(** * Block-shifting puzzle: the constraint checker and the puzzle session

    A shallow embedding of [block.py], [blockset.py], [constraints.py] and of
    the session logic of [game.py] and [web/ui.py].

    Conventions of the embedding.
    - Python [int] is [Z]; a grid position is a pair [Z * Z].
    - A Python [float] is represented by the rational it stands for, and only
      where that is sound.  The program computes with floats in two places.
      -- The symmetry checks compute a centre [(min + max) / 2] and mirrored
         coordinates such as [2 * center_x - x] or [y + center_d].  All these
         numbers are multiples of 1/2.  A multiple of 1/2 of magnitude at
         most [2 ^ 52] is a double, and an IEEE operation whose exact result
         is a double returns that result: within this range the embedding
         computes exactly what the program computes.
      -- The sail check computes the nodes [pos - 0.4] and [pos + 0.4] and
         compares squared distances with [0.61 ** 2].  For coordinates of
         magnitude at most [2 ^ 40] the rational [z - 0.4] stands for the
         double the program computes, which lies within [2 ^ -12] of it.
         A squared distance below 2 is then within [2 ^ -8] of the exact
         one, which is a multiple of 0.04; the multiples nearest to the
         threshold 0.3721 are 0.36 and 0.40, and the exact squared distance
         is 1 between two nodes with whole-number coordinates only.  So
         every comparison, and every test that two nodes are equal, has the
         outcome it has in the program.
         Between the nodes of solid cells the program computes with ints
         alone, whatever their magnitude.
      -- An int of magnitude [2 ^ 1024 - 2 ^ 970] or more cannot be converted
         to a float, nor can a quotient that large be returned by [/]: the
         program raises [OverflowError].
      Beyond these ranges the program goes on with rounded or infinite
      floats, which the embedding does not represent: such a run is
      [Unmodelled], and nothing is stated about it.
    - A [Block] object is identified by its index in [BlockSet.blocks]; the
      blocks list is the store, and mutating a block is an update of the list
      at that index.
    - A Python [set] of blocks is a list of such indices, iterated in list
      order (Python fixes no order; the statements hold for every order).
      Membership follows [Block.__eq__] (same [type] and [pos]).
      [Block.__hash__] hashes the same pair, and a set remembers the hash a
      member had when it was added: the model takes that hash to be the one
      of the member's current position.  This is what the program does as
      long as no member has been moved since it was added.  Members are
      moved by the last loop of [ui.end_drag] and by [Game._restore_state]
      when the entry restored records other positions.  In the sessions of
      [in_play] below neither happens while the set is still searched (a
      drag that ends there is followed by a reset, which empties the set);
      after the release of a drag whose selection is no longer confirmed the
      program's set holds moved members, and what the model says of
      membership from then on is not what the program does.
    - An exception is a [Raise] result; a [while] loop runs on fuel, and the
      fuel given is shown to be enough. *)

From Stdlib Require Import ZArith QArith Qabs Bool List String Lia.
From stdpp Require Import base list.
Import ListNotations.

Local Open Scope string_scope.
Local Open Scope list_scope.
Local Open Scope Z_scope.

(** ** Python values and control *)

Inductive exn :=
  IndexError | TypeError | NameError | AttributeError | ZeroDivisionError
| OverflowError.

(** What a call comes to: a value, an exception, a loop of the embedding out
    of fuel, or a run that goes on with a float the embedding does not
    represent. *)
Inductive result (A : Type) :=
| Ok (a : A)
| Raise (e : exn)
| OutOfFuel
| Unmodelled.

Arguments Ok {A} a.
Arguments Raise {A} e.
Arguments OutOfFuel {A}.
Arguments Unmodelled {A}.

#[global] Instance result_ret : MRet result := fun A a => Ok a.

#[global] Instance result_bind : MBind result := fun A B k r =>
  match r with
  | Ok a => k a
  | Raise e => Raise e
  | OutOfFuel => OutOfFuel
  | Unmodelled => Unmodelled
  end.

(** [l[k]] for a non-negative literal [k]. *)
Definition py_index {A} (l : list A) (k : nat) : result A :=
  match l !! k with
  | Some a => Ok a
  | None => Raise IndexError
  end.

(** [l[k]] for an integer [k]: a negative index counts from the end. *)
Definition py_getitem {A} (l : list A) (k : Z) : result A :=
  if 0 <=? k then py_index l (Z.to_nat k)
  else if 0 <=? Z.of_nat (length l) + k
       then py_index l (Z.to_nat (Z.of_nat (length l) + k))
       else Raise IndexError.

(** [o[k]] where [o] may be [None]. *)
Definition py_subscript {A} (o : option (list A)) (k : nat) : result A :=
  match o with
  | Some l => py_index l k
  | None => Raise TypeError
  end.

(** [a // b] *)
Definition py_floordiv (a b : Z) : result Z :=
  if b =? 0 then Raise ZeroDivisionError else Ok (a / b).

(** [l[:k]] *)
Definition py_slice_to {A} (l : list A) (k : Z) : list A :=
  if 0 <=? k then take (Z.to_nat k) l
  else take (Z.to_nat (Z.of_nat (length l) + k)) l.

(** [l[-k:]] for a positive literal [k]. *)
Definition py_slice_last {A} (l : list A) (k : nat) : list A :=
  drop (length l - k)%nat l.

(** [int(q)]: truncation toward zero. *)
Definition py_int (q : Q) : Z := Z.quot (Qnum q) (Zpos (Qden q)).

(** [q.is_integer()] *)
Definition is_integer (q : Q) : bool := Qeq_bool q (inject_Z (py_int q)).

(** The least magnitude of an int that has no float: it rounds to
    [2 ^ 1024]. *)
Definition float_overflow : Z := 2 ^ 1024 - 2 ^ 970.

(** The conversion that [+], [-] and [*] apply to an int operand next to a
    float one.  An int of magnitude at most [2 ^ 52] is a double. *)
Definition float_of_int (z : Z) : result Q :=
  if Z.abs z <=? 2 ^ 52 then Ok (inject_Z z)
  else if float_overflow <=? Z.abs z then Raise OverflowError
  else Unmodelled.

(** [a / 2] for an int [a]: the double nearest to the quotient, which is the
    quotient itself when [a] is at most [2 ^ 53] in magnitude. *)
Definition py_truediv_2 (a : Z) : result Q :=
  if Z.abs a <=? 2 ^ 53 then Ok (inject_Z a / 2)%Q
  else if 2 * float_overflow <=? Z.abs a then Raise OverflowError
  else Unmodelled.

(** A multiple of 1/2 of magnitude at most [2 ^ 52]. *)
Definition half_integer (q : Q) : bool :=
  is_integer (2 * q)%Q && (Z.abs (py_int (2 * q)%Q) <=? 2 ^ 53).

(** The float that [+], [-] or [*] returns on two floats when the exact
    result is [q]. *)
Definition float_result (q : Q) : result Q :=
  if half_integer q then Ok q else Unmodelled.

(** [z - d] and [z + d] for an int [z] and the float [d = 0.4] of the sail
    check. *)
Definition int_minus_float (z : Z) (d : Q) : result Q :=
  if Z.abs z <=? 2 ^ 40 then Ok (inject_Z z - d)%Q
  else if float_overflow <=? Z.abs z then Raise OverflowError
  else Unmodelled.

Definition int_plus_float (z : Z) (d : Q) : result Q :=
  if Z.abs z <=? 2 ^ 40 then Ok (inject_Z z + d)%Q
  else if float_overflow <=? Z.abs z then Raise OverflowError
  else Unmodelled.

Definition list_min (d : Z) (l : list Z) : Z := fold_left Z.min l d.
Definition list_max (d : Z) (l : list Z) : Z := fold_left Z.max l d.

(** [min(l)] and [max(l)] of a non-empty list. *)
Definition py_min (l : list Z) : Z :=
  match l with [] => 0 | x :: t => list_min x t end.
Definition py_max (l : list Z) : Z :=
  match l with [] => 0 | x :: t => list_max x t end.

Definition Pos : Type := Z * Z.

Definition pos_eqb (p q : Pos) : bool :=
  (fst p =? fst q) && (snd p =? snd q).

(** ** block.py *)

(** [selected] is created as [False]; [ui.start_drag] stores [1] and
    [ui.end_drag] stores [0] in it.  Only its truth value is ever read, and
    [1 == True], [0 == False], so it is a [bool] here.  [size] is used for
    drawing only and is left out. *)
Record Block := mkBlock {
  type : Z;
  pos : Pos;
  color : Z * Z * Z;
  detailed_information : list Z;
  selected : bool;
  ghost : bool;
  original_pos : Pos
}.

(** [Block(block_type, pos, color, detailed_information)] *)
Definition new_Block (ty : Z) (p : Pos) (c : Z * Z * Z) (d : list Z) : Block :=
  mkBlock ty p c d false false p.

Definition set_pos (p : Pos) (b : Block) : Block :=
  mkBlock (type b) p (color b) (detailed_information b) (selected b) (ghost b)
          (original_pos b).

Definition set_selected (s : bool) (b : Block) : Block :=
  mkBlock (type b) (pos b) (color b) (detailed_information b) s (ghost b)
          (original_pos b).

Definition set_ghost (g : bool) (b : Block) : Block :=
  mkBlock (type b) (pos b) (color b) (detailed_information b) (selected b) g
          (original_pos b).

Definition set_color (c : Z * Z * Z) (b : Block) : Block :=
  mkBlock (type b) (pos b) c (detailed_information b) (selected b) (ghost b)
          (original_pos b).

(** [Block.move] *)
Definition move (new_pos : Pos) (b : Block) : Block := set_pos new_pos b.

(** [Block.reset_position] *)
Definition reset_position (b : Block) : Block := set_pos (original_pos b) b.

(** [Block.__eq__]: same [type] and same [pos]. *)
Definition Block_eqb (a b : Block) : bool :=
  (type a =? type b) && pos_eqb (pos a) (pos b).

(** ** blockset.py: the queries *)

(** [selected_blocks] holds indices into [blocks].  [on_selection_change] is
    [true] when [Game._load_level] has registered [Game._save_state]. *)
Record BlockSet := mkBlockSet {
  blocks : list Block;
  selected_blocks : list nat;
  on_selection_change : bool
}.

(** The blocks a list of references stands for. *)
Definition deref (bl : list Block) (refs : list nat) : list Block :=
  omap (fun i => bl !! i) refs.

(** [get_block_at_position]: the index of the first block at [p]. *)
Fixpoint find_index_from (k : nat) (p : Pos) (bl : list Block) : option nat :=
  match bl with
  | [] => None
  | b :: rest => if pos_eqb (pos b) p then Some k
                 else find_index_from (S k) p rest
  end.

Definition get_block_at_position (bs : BlockSet) (p : Pos) : option nat :=
  find_index_from 0 p (blocks bs).

(** [block in self.blocks], by [__eq__]. *)
Definition in_blocks (bs : BlockSet) (i : nat) : bool :=
  match blocks bs !! i with
  | Some b => existsb (Block_eqb b) (blocks bs)
  | None => false
  end.

(** Whether the set entry [j] is the block [i] or equals it. *)
Definition same_block (bl : list Block) (i j : nat) : bool :=
  (j =? i)%nat ||
  match bl !! i, bl !! j with
  | Some bi, Some bj => Block_eqb bj bi
  | _, _ => false
  end.

(** [block in self.selected_blocks], for a set none of whose members has
    moved since it was added (see the conventions): the hash the set keeps
    of a member is then the hash of the member as it is. *)
Definition in_selected (bs : BlockSet) (i : nat) : bool :=
  existsb (same_block (blocks bs) i) (selected_blocks bs).

(** [selected_blocks.add(block)]; [selected_blocks.remove(block)] and
    [selected_blocks.discard(block)] for a block of the set; all three for a
    set none of whose members has moved since it was added. *)
Definition set_add (bl : list Block) (i : nat) (sel : list nat) : list nat :=
  if existsb (same_block bl i) sel then sel else sel ++ [i].

Definition set_discard (bl : list Block) (i : nat) (sel : list nat) : list nat :=
  filter (fun j => same_block bl i j = false) sel.

(** [get_selected_positions], [get_all_positions] *)
Definition get_selected_positions (bs : BlockSet) : list Pos :=
  map pos (deref (blocks bs) (selected_blocks bs)).

Definition get_all_positions (bs : BlockSet) : list Pos :=
  map pos (blocks bs).

Definition pos_mem (p : Pos) (l : list Pos) : bool := existsb (pos_eqb p) l.

(** [set(positions)] keeps one copy of each position. *)
Fixpoint pos_set (l : list Pos) : list Pos :=
  match l with
  | [] => []
  | p :: rest => if pos_mem p rest then pos_set rest else p :: pos_set rest
  end.

(** The [while queue] loop of [is_connected]; [None] when fuel runs out. *)
Fixpoint connected_bfs (fuel : nat) (selected_positions visited queue : list Pos)
  : option (list Pos) :=
  match queue with
  | [] => Some visited
  | current :: rest =>
    match fuel with
    | O => None
    | S fuel' =>
      let '(x, y) := current in
      let neighbors := [(x + 1, y); (x - 1, y); (x, y + 1); (x, y - 1)] in
      let '(visited', queue') :=
        fold_left
          (fun '(v, q) neighbor =>
             if pos_mem neighbor selected_positions && negb (pos_mem neighbor v)
             then (v ++ [neighbor], q ++ [neighbor]) else (v, q))
          neighbors (visited, rest) in
      connected_bfs fuel' selected_positions visited' queue'
    end
  end.

(** [is_connected] *)
Definition is_connected (bs : BlockSet) : result bool :=
  if (length (selected_blocks bs) <=? 1)%nat then Ok true
  else
    let selected_positions := pos_set (get_selected_positions bs) in
    match selected_positions with
    | [] => Ok true
    | start_pos :: _ =>
      match connected_bfs (S (length selected_positions)) selected_positions
                          [start_pos] [start_pos] with
      | Some visited =>
          Ok (length visited =? length selected_positions)%nat
      | None => OutOfFuel
      end
    end.

(** ** constraints.py *)

Inductive Stage := Selection | Movement.

(** [{block.pos: block for block in blocks}]: a later block at the same
    position replaces an earlier one. *)
Definition pos_to_block (bl : list Block) (p : Pos) : option Block :=
  find (fun b => pos_eqb (pos b) p) (rev bl).

(** [_check_glue] *)
Definition _check_glue (bs : BlockSet) : result bool :=
  match get_all_positions bs with
  | [] => Ok false
  | _ => is_connected bs
  end.

(** The face comparison of [_is_horizontally_symmetric_blocks]: top and
    bottom swapped. *)
Definition faces_differ_horizontal (b s : Block) : bool :=
  let d := detailed_information b in
  let e := detailed_information s in
  negb (nth 0 d 0 =? nth 1 e 0) || negb (nth 1 d 0 =? nth 0 e 0) ||
  negb (nth 2 d 0 =? nth 2 e 0) || negb (nth 3 d 0 =? nth 3 e 0).

(** The face comparison of [_is_vertically_symmetric_blocks]: left and
    right swapped. *)
Definition faces_differ_vertical (b s : Block) : bool :=
  let d := detailed_information b in
  let e := detailed_information s in
  negb (nth 0 d 0 =? nth 0 e 0) || negb (nth 1 d 0 =? nth 1 e 0) ||
  negb (nth 2 d 0 =? nth 3 e 0) || negb (nth 3 d 0 =? nth 2 e 0).

(** The body of the [for block in blocks] loop of the two axis checks, after
    [symmetric_pos] is computed: [false] is [return False], [true] lets the
    loop go on. *)
Definition axis_block_ok (faces_differ : Block -> Block -> bool)
           (bl : list Block) (block : Block) (symmetric_pos : Pos) : bool :=
  match pos_to_block bl symmetric_pos with
  | None => false
  | Some symmetric_block =>
    if negb (type block =? type symmetric_block) then
      if (type block =? 3) && (type symmetric_block =? 3) then
        if (4 <=? length (detailed_information block))%nat &&
           (4 <=? length (detailed_information symmetric_block))%nat then
          if faces_differ block symmetric_block then false else true
        else true
      else false
    else true
  end.

(** The [for block in blocks] loop of a symmetry check: [body] gives [false]
    for [return False], which leaves the loop, and [true] to go on; after the
    loop the check returns [True]. *)
Fixpoint for_blocks (body : Block -> result bool) (bl : list Block) : result bool :=
  match bl with
  | [] => Ok true
  | block :: rest =>
    go_on ← body block;
    if go_on : bool then for_blocks body rest else Ok false
  end.

(** [2 * center - x] for a float [center] and an int [x]. *)
Definition mirrored (center : Q) (x : Z) : result Q :=
  twice ← float_result (2 * center)%Q;
  fx ← float_of_int x;
  float_result (twice - fx)%Q.

(** [_is_horizontally_symmetric_blocks] *)
Definition _is_horizontally_symmetric_blocks (bl : list Block) : result bool :=
  match bl with
  | [] => Ok true
  | _ =>
    let x_coords := map (fun b => fst (pos b)) bl in
    center_x ← py_truediv_2 (py_min x_coords + py_max x_coords);
    for_blocks
      (fun block =>
         let '(x, y) := pos block in
         symmetric_x ← mirrored center_x x;
         Ok (axis_block_ok faces_differ_horizontal bl block (py_int symmetric_x, y)))
      bl
  end.

(** [_is_vertically_symmetric_blocks] *)
Definition _is_vertically_symmetric_blocks (bl : list Block) : result bool :=
  match bl with
  | [] => Ok true
  | _ =>
    let y_coords := map (fun b => snd (pos b)) bl in
    center_y ← py_truediv_2 (py_min y_coords + py_max y_coords);
    for_blocks
      (fun block =>
         let '(x, y) := pos block in
         symmetric_y ← mirrored center_y y;
         Ok (axis_block_ok faces_differ_vertical bl block (x, py_int symmetric_y)))
      bl
  end.

(** The loop body shared by the two diagonal checks, once [x_sym] and
    [y_sym] are computed. *)
Definition diagonal_block_ok (bl : list Block) (block : Block) (x_sym y_sym : Q)
  : bool :=
  if negb (is_integer x_sym && is_integer y_sym) then false
  else
    match pos_to_block bl (py_int x_sym, py_int y_sym) with
    | None => false
    | Some symmetric_block =>
      if negb (type block =? type symmetric_block) then false else true
    end.

(** [_is_diagonal1_symmetric_blocks] *)
Definition _is_diagonal1_symmetric_blocks (bl : list Block) : result bool :=
  match bl with
  | [] => Ok true
  | _ =>
    let d_values := map (fun b => fst (pos b) - snd (pos b)) bl in
    center_d ← py_truediv_2 (py_min d_values + py_max d_values);
    for_blocks
      (fun block =>
         let '(x, y) := pos block in
         x_sym ← (fy ← float_of_int y; float_result (fy + center_d)%Q);
         y_sym ← (fx ← float_of_int x; float_result (fx - center_d)%Q);
         Ok (diagonal_block_ok bl block x_sym y_sym))
      bl
  end.

(** [_is_diagonal2_symmetric_blocks] *)
Definition _is_diagonal2_symmetric_blocks (bl : list Block) : result bool :=
  match bl with
  | [] => Ok true
  | _ =>
    let s_values := map (fun b => fst (pos b) + snd (pos b)) bl in
    center_s ← py_truediv_2 (py_min s_values + py_max s_values);
    for_blocks
      (fun block =>
         let '(x, y) := pos block in
         x_sym ← (fy ← float_of_int y; float_result (center_s - fy)%Q);
         y_sym ← (fx ← float_of_int x; float_result (center_s - fx)%Q);
         Ok (diagonal_block_ok bl block x_sym y_sym))
      bl
  end.

(** [a or b]: [b] is evaluated only when [a] is false. *)
Definition py_or (a b : result bool) : result bool :=
  x ← a; if x : bool then Ok true else b.

(** [_check_mirror] *)
Definition _check_mirror (bs : BlockSet) : result bool :=
  if (length (blocks bs) <=? 1)%nat then Ok true
  else py_or (_is_horizontally_symmetric_blocks (blocks bs))
         (py_or (_is_vertically_symmetric_blocks (blocks bs))
            (py_or (_is_diagonal1_symmetric_blocks (blocks bs))
                   (_is_diagonal2_symmetric_blocks (blocks bs)))).

(** [_check_symmetry] *)
Definition _check_symmetry (bs : BlockSet) : result bool := _check_mirror bs.

(** [_check_pyramid_adjacent] *)
Definition _check_pyramid_adjacent (p : Pos) (requirement : Z)
           (dict : Pos -> option Block) (is_movement_stage : bool)
           (face_checked : string) : bool :=
  if (requirement =? 0) && negb (bool_decide (is_Some (dict p))) then true
  else
    match dict p with
    | Some adjacent_block =>
      if (type adjacent_block =? 1) || (type adjacent_block =? 2) then
        ((requirement =? 1) && (type adjacent_block =? 1)) ||
        ((requirement =? 2) && (type adjacent_block =? 2))
      else if (type adjacent_block =? 3) &&
              (4 <=? length (detailed_information adjacent_block))%nat then
        let d := detailed_information adjacent_block in
        if String.eqb face_checked "bottom" then nth 0 d 0 =? requirement
        else if String.eqb face_checked "top" then nth 1 d 0 =? requirement
        else if String.eqb face_checked "right" then nth 2 d 0 =? requirement
        else if String.eqb face_checked "left" then nth 3 d 0 =? requirement
        else false
      else false
    | None =>
      if is_movement_stage &&
         (existsb (String.eqb face_checked) ["top"; "bottom"; "left"; "right"]
          && negb (requirement =? 0))
      then false else true
    end.

(** The four face checks made for one block by [_check_pyramid_selection]
    and [_check_pyramid_movement]. *)
Definition pyramid_block_ok (dict : Pos -> option Block)
           (is_movement_stage : bool) (block : Block) : bool :=
  if (type block =? 3) && (4 <=? length (detailed_information block))%nat then
    let d := detailed_information block in
    let top_req := nth 0 d 0 in
    let bottom_req := nth 1 d 0 in
    let left_req := nth 2 d 0 in
    let right_req := nth 3 d 0 in
    let '(x, y) := pos block in
    if negb (_check_pyramid_adjacent (x, y - 1) top_req dict is_movement_stage "top")
    then false
    else if negb (_check_pyramid_adjacent (x, y + 1) bottom_req dict
                                          is_movement_stage "bottom")
    then false
    else if negb (_check_pyramid_adjacent (x - 1, y) left_req dict
                                          is_movement_stage "left")
    then false
    else if negb (_check_pyramid_adjacent (x + 1, y) right_req dict
                                          is_movement_stage "right")
    then false
    else true
  else true.

(** [_check_pyramid_selection] *)
Definition _check_pyramid_selection (bs : BlockSet) : bool :=
  let selected_blocks := filter (fun b => selected b = true) (blocks bs) in
  match selected_blocks with
  | [] => true
  | _ => forallb (pyramid_block_ok (pos_to_block selected_blocks) false)
                 selected_blocks
  end.

(** [_check_pyramid_movement] *)
Definition _check_pyramid_movement (bs : BlockSet) : bool :=
  match blocks bs with
  | [] => true
  | bl => forallb (pyramid_block_ok (pos_to_block bl) true) bl
  end.

(** [_check_pyramid] *)
Definition _check_pyramid (bs : BlockSet) : bool := _check_pyramid_movement bs.

(** A sail node: a pair of numbers, integers or floats. *)
Definition Node : Type := Q * Q.

Definition node_eqb (a b : Node) : bool :=
  Qeq_bool (fst a) (fst b) && Qeq_bool (snd a) (snd b).

Definition node_mem (a : Node) (l : list Node) : bool := existsb (node_eqb a) l.

Definition node_of_pos (p : Pos) : Node := (inject_Z (fst p), inject_Z (snd p)).

(** [if cell.type == 3 and cell.detailed_information[k] == 2:
     nodes.append(node)]: the index is evaluated only for type 3, and is not
    guarded by a length test; the node is computed only when the face has
    colour B. *)
Definition face_node (cell : Block) (k : nat) (node : result Node)
  : result (list Node) :=
  if type cell =? 3 then
    d ← py_index (detailed_information cell) k;
    if d =? 2 then n ← node; Ok [n] else Ok []
  else Ok [].

(** The nodes one cell adds, in the order of the five [if]s. *)
Definition cell_nodes (cell : Block) : result (list Node) :=
  let '(x, y) := pos cell in
  let n0 := if type cell =? 2 then [node_of_pos (x, y)] else [] in
  n1 ← face_node cell 0 (fy ← int_minus_float y 0.4; Ok (inject_Z x, fy));
  n2 ← face_node cell 1 (fy ← int_plus_float y 0.4; Ok (inject_Z x, fy));
  n3 ← face_node cell 2 (fx ← int_minus_float x 0.4; Ok (fx, inject_Z y));
  n4 ← face_node cell 3 (fx ← int_plus_float x 0.4; Ok (fx, inject_Z y));
  Ok (n0 ++ n1 ++ n2 ++ n3 ++ n4).

(** The [for cell in blockset.blocks] loop that builds [nodes]. *)
Fixpoint sail_nodes (bl : list Block) : result (list Node) :=
  match bl with
  | [] => Ok []
  | cell :: rest =>
    ns ← cell_nodes cell;
    more ← sail_nodes rest;
    Ok (ns ++ more)
  end.

(** A node of a solid cell: a pair of ints. *)
Definition node_is_int (n : Node) : bool :=
  is_integer (fst n) && is_integer (snd n).

(** A node whose coordinates are at most [2 ^ 40 + 1] in magnitude. *)
Definition node_is_small (n : Node) : bool :=
  Qle_bool (Qabs (fst n)) (inject_Z (2 ^ 40 + 1)) &&
  Qle_bool (Qabs (snd n)) (inject_Z (2 ^ 40 + 1)).

(** Whether the embedding follows the distance tests made on [nodes]: they
    are made on ints alone, or on coordinates of small magnitude. *)
Definition distances_followed (nodes : list Node) : bool :=
  forallb node_is_int nodes || forallb node_is_small nodes.

(** [(a[0] - b[0]) ** 2 + (a[1] - b[1]) ** 2], on nodes that
    [distances_followed] accepts: [_check_sail] computes no other. *)
Definition dist2 (a b : Node) : Q :=
  ((fst a - fst b) ^ 2 + (snd a - snd b) ^ 2)%Q.

(** The test that appends [neighbor] to [adjacency[point]]. *)
Definition sail_adjacent (point neighbor : Node) : bool :=
  if Qle_bool (dist2 point neighbor) (0.61 ^ 2)%Q then true
  else if Qeq_bool (fst point) (inject_Z (py_int (fst point))) &&
          Qeq_bool (snd point) (inject_Z (py_int (snd point)))
  then Qeq_bool (dist2 point neighbor) 1
  else false.

(** [adjacency[key]] after the double loop: the dictionary has one entry per
    distinct node, and every occurrence of the key in [nodes] appends its
    neighbours to that entry. *)
Definition adjacency (nodes : list Node) (key : Node) : list Node :=
  flat_map
    (fun point =>
       if node_eqb point key then filter (fun n => sail_adjacent point n = true) nodes
       else [])
    nodes.

(** The [while queue] loop of [_check_sail]; [None] when fuel runs out. *)
Fixpoint sail_bfs (fuel : nat) (nodes visited queue : list Node)
  : option (list Node) :=
  match queue with
  | [] => Some visited
  | current :: rest =>
    match fuel with
    | O => None
    | S fuel' =>
      if negb (node_mem current visited) then
        let visited' := visited ++ [current] in
        sail_bfs fuel' nodes visited'
                 (rest ++ filter (fun n => node_mem n visited' = false)
                                 (adjacency nodes current))
      else sail_bfs fuel' nodes visited rest
    end
  end.

(** Fuel for [sail_bfs]: every node is visited once, and each visit extends
    the queue by at most [len(nodes) ** 2] entries. *)
Definition sail_fuel (nodes : list Node) : nat :=
  S (length nodes * S (length nodes * length nodes)).

(** [_check_sail] *)
Definition _check_sail (bs : BlockSet) : result bool :=
  nodes ← sail_nodes (blocks bs);
  if (length nodes <? 2)%nat then Ok true
  else if negb (distances_followed nodes) then Unmodelled
  else
    match nodes with
    | [] => Raise IndexError
    | first :: _ =>
      match sail_bfs (sail_fuel nodes) nodes [] [first] with
      | Some visited => Ok (length visited =? length nodes)%nat
      | None => OutOfFuel
      end
    end.

(** A [Dict[str, bool]]: keys in insertion order. *)
Definition Results : Type := list (string * bool).

Fixpoint dict_set (k : string) (v : bool) (d : Results) : Results :=
  match d with
  | [] => [(k, v)]
  | (k', v') :: rest =>
    if String.eqb k' k then (k', v) :: rest else (k', v') :: dict_set k v rest
  end.

Definition is_selection (s : Stage) : bool :=
  match s with Selection => true | Movement => false end.

Definition is_movement (s : Stage) : bool :=
  match s with Selection => false | Movement => true end.

(** The value [results[constraint_name]] holds at the end of one iteration of
    the loop of [check_constraints]: the registered check is always called
    first, and the stage rules then overwrite its result. *)
Definition check_one (bs : BlockSet) (constraint_name : string) (stage : Stage)
  : result bool :=
  let named name := String.eqb constraint_name name in
  r0 ← (if named "glue" then _check_glue bs
        else if named "mirror" then _check_mirror bs
        else if named "symmetry" then _check_symmetry bs
        else if named "pyramid" then Ok (_check_pyramid bs)
        else if named "sail" then _check_sail bs
        else Ok true);
  let r1 := if named "mirror" && is_selection stage then true else r0 in
  let r2 := if named "glue" && is_movement stage then true else r1 in
  let r3 := if named "pyramid" && is_selection stage
            then _check_pyramid_selection bs else r2 in
  let r4 := if named "pyramid" && is_movement stage
            then _check_pyramid_movement bs else r3 in
  r5 ← (if named "sail" && is_movement stage then _check_sail bs else Ok r4);
  let r6 := if named "sail" && is_selection stage then true else r5 in
  Ok r6.

(** [check_constraints] *)
Fixpoint check_constraints_from (results : Results) (bs : BlockSet)
         (constraint_names : list string) (stage : Stage) : result Results :=
  match constraint_names with
  | [] => Ok results
  | constraint_name :: rest =>
    r ← check_one bs constraint_name stage;
    check_constraints_from (dict_set constraint_name r results) bs rest stage
  end.

Definition check_constraints (bs : BlockSet) (constraint_names : list string)
           (stage : Stage) : result Results :=
  check_constraints_from [] bs constraint_names stage.

(** [[name for name, result in results.items() if not result]] *)
Definition failed_names (results : Results) : list string :=
  map fst (filter (fun kv => snd kv = false) results).

(** ** The session: game.py and web/ui.py

    The record describes the game while a level is loaded: [current_level]
    and [ui.current_blockset] are then objects, so the source's guards
    [if self.current_level] and [if self.ui.current_blockset] hold.  Only the
    attributes the session logic reads are kept. *)

(** An attribute that is created late: missing, [None], or a value. *)
Inductive attr (A : Type) := Absent | PyNone | Val (a : A).

Arguments Absent {A}.
Arguments PyNone {A}.
Arguments Val {A} a.

(** The drag attributes of [UI].  [original_colors], [start_mouse_pos] and
    the four offset limits do not exist before the first [start_drag] with a
    selection ([None] here); they are never assigned [None]. *)
Record Drag := mkDrag {
  dragging : bool;
  drag_start : option Pos;
  drag_end : option Pos;
  moving_blocks : bool;
  move_start_pos : option Pos;
  original_positions : option (list Pos);
  temp_selected_block_set : attr (list Block);
  original_colors : option (list (Z * Z * Z));
  start_mouse_pos : option Pos;
  min_offset_x : option Z;
  max_offset_x : option Z;
  min_offset_y : option Z;
  max_offset_y : option Z
}.

(** [UI.__init__] *)
Definition no_drag : Drag :=
  mkDrag false None None false None None Absent None None None None None None.

Record Layout := mkLayout {
  margin_left : Z;
  margin_top : Z;
  margin_right : Z;
  margin_bottom : Z;
  grid_w : Z;
  grid_h : Z;
  cell_size : Z;
  grid_offset : Pos
}.

(** One history entry: [(state, state_confirmed)]. *)
Definition Snapshot : Type := list (Pos * bool) * bool.

Record Game := mkGame {
  current_blockset : BlockSet;        (* ui.current_blockset *)
  drag : Drag;                        (* ui.* drag attributes *)
  layout : Layout;                    (* ui.* layout attributes *)
  current_state : string;             (* ui.current_state *)
  selection_confirmed : bool;         (* ui.selection_confirmed *)
  failed_constraints : list string;   (* ui.failed_constraints *)
  constraints : list string;          (* current_level.constraints *)
  completed : bool;                   (* current_level.completed *)
  history : list Snapshot;
  history_index : Z
}.

Definition with_blockset (bs : BlockSet) (g : Game) : Game :=
  mkGame bs (drag g) (layout g) (current_state g) (selection_confirmed g)
         (failed_constraints g) (constraints g) (completed g) (history g)
         (history_index g).

Definition with_drag (d : Drag) (g : Game) : Game :=
  mkGame (current_blockset g) d (layout g) (current_state g)
         (selection_confirmed g) (failed_constraints g) (constraints g)
         (completed g) (history g) (history_index g).

Definition with_current_state (st : string) (g : Game) : Game :=
  mkGame (current_blockset g) (drag g) (layout g) st (selection_confirmed g)
         (failed_constraints g) (constraints g) (completed g) (history g)
         (history_index g).

Definition with_selection_confirmed (c : bool) (g : Game) : Game :=
  mkGame (current_blockset g) (drag g) (layout g) (current_state g) c
         (failed_constraints g) (constraints g) (completed g) (history g)
         (history_index g).

Definition with_failed_constraints (f : list string) (g : Game) : Game :=
  mkGame (current_blockset g) (drag g) (layout g) (current_state g)
         (selection_confirmed g) f (constraints g) (completed g) (history g)
         (history_index g).

Definition with_completed (c : bool) (g : Game) : Game :=
  mkGame (current_blockset g) (drag g) (layout g) (current_state g)
         (selection_confirmed g) (failed_constraints g) (constraints g) c
         (history g) (history_index g).

Definition with_history (h : list Snapshot) (i : Z) (g : Game) : Game :=
  mkGame (current_blockset g) (drag g) (layout g) (current_state g)
         (selection_confirmed g) (failed_constraints g) (constraints g)
         (completed g) h i.

Definition with_blocks (bl : list Block) (g : Game) : Game :=
  with_blockset (mkBlockSet bl (selected_blocks (current_blockset g))
                            (on_selection_change (current_blockset g))) g.

Definition with_selected_blocks (sel : list nat) (g : Game) : Game :=
  with_blockset (mkBlockSet (blocks (current_blockset g)) sel
                            (on_selection_change (current_blockset g))) g.

(** [Game._save_state] *)
Definition _save_state (g : Game) : Game :=
  let state := map (fun b => (pos b, selected b)) (blocks (current_blockset g)) in
  let state_confirmed := selection_confirmed g in
  let h := py_slice_to (history g) (history_index g + 1)
           ++ [(state, state_confirmed)] in
  let i := Z.of_nat (length h) - 1 in
  if (20 <? length h)%nat then
    let h' := py_slice_last h 20 in
    with_history h' (Z.of_nat (length h') - 1) g
  else with_history h i g.

(** [if self.on_selection_change: self.on_selection_change()] *)
Definition fire_selection_change (g : Game) : Game :=
  if on_selection_change (current_blockset g) then _save_state g else g.

(** ** blockset.py: the mutators

    They run on the whole [Game] because the callback they fire,
    [on_selection_change], is [Game._save_state]. *)

(** [select_block] *)
Definition select_block (i : nat) (g : Game) : Game :=
  let bs := current_blockset g in
  if in_blocks bs i then
    let g1 := with_blocks (alter (set_selected true) i (blocks bs)) g in
    let bl1 := blocks (current_blockset g1) in
    let g2 := with_selected_blocks (set_add bl1 i (selected_blocks bs)) g1 in
    fire_selection_change g2
  else g.

(** [deselect_block] *)
Definition deselect_block (i : nat) (g : Game) : Game :=
  let bs := current_blockset g in
  if in_selected bs i then
    let g1 := with_blocks (alter (set_selected false) i (blocks bs)) g in
    let bl1 := blocks (current_blockset g1) in
    let g2 := with_selected_blocks (set_discard bl1 i (selected_blocks bs)) g1 in
    fire_selection_change g2
  else g.

(** [select_blocks_in_area] *)
Definition select_blocks_in_area (start_pos end_pos : Pos) (g : Game) : Game :=
  let min_x := Z.min (fst start_pos) (fst end_pos) in
  let min_y := Z.min (snd start_pos) (snd end_pos) in
  let max_x := Z.max (fst start_pos) (fst end_pos) in
  let max_y := Z.max (snd start_pos) (snd end_pos) in
  fold_left
    (fun g i =>
       match blocks (current_blockset g) !! i with
       | Some block =>
         if (min_x <=? fst (pos block)) && (fst (pos block) <=? max_x) &&
            (min_y <=? snd (pos block)) && (snd (pos block) <=? max_y)
         then select_block i g else g
       | None => g
       end)
    (seq 0 (length (blocks (current_blockset g)))) g.

(** [clear_selection] *)
Definition clear_selection (g : Game) : Game :=
  let bs := current_blockset g in
  let bl := fold_left (fun bl i => alter (set_selected false) i bl)
                      (selected_blocks bs) (blocks bs) in
  fire_selection_change (with_selected_blocks [] (with_blocks bl g)).

(** ** game.py: history and reset *)

(** One iteration of the loop of [_restore_state]. *)
Definition restore_block (bs : BlockSet) (i : nat) (entry : Pos * bool) : BlockSet :=
  if (i <? length (blocks bs))%nat then
    let '(p, sel) := entry in
    let bl := alter (fun b => set_selected sel (set_pos p b)) i (blocks bs) in
    mkBlockSet bl
               (if sel then set_add bl i (selected_blocks bs)
                else set_discard bl i (selected_blocks bs))
               (on_selection_change bs)
  else bs.

Fixpoint restore_blocks (bs : BlockSet) (i : nat) (state_blocks : list (Pos * bool))
  : BlockSet :=
  match state_blocks with
  | [] => bs
  | entry :: rest => restore_blocks (restore_block bs i entry) (S i) rest
  end.

(** [Game._restore_state] *)
Definition _restore_state (state : Snapshot) (g : Game) : Game :=
  let '(state_blocks, state_confirmed) := state in
  let g1 := with_blockset (restore_blocks (current_blockset g) 0 state_blocks) g in
  with_failed_constraints [] (with_selection_confirmed state_confirmed g1).

(** [Game._undo] *)
Definition _undo (g : Game) : result Game :=
  if 0 <? history_index g then
    let g1 := with_history (history g) (history_index g - 1) g in
    state ← py_getitem (history g1) (history_index g1);
    let g2 := _restore_state state g1 in
    Ok (with_failed_constraints [] (with_selection_confirmed false g2))
  else Ok g.

(** [Game._redo] *)
Definition _redo (g : Game) : result Game :=
  if history_index g <? Z.of_nat (length (history g)) - 1 then
    let g1 := with_history (history g) (history_index g + 1) g in
    state ← py_getitem (history g1) (history_index g1);
    let g2 := _restore_state state g1 in
    Ok (with_failed_constraints [] (with_selection_confirmed false g2))
  else Ok g.

(** [Game._reset_level] *)
Definition _reset_level (g : Game) : Game :=
  let g1 := with_blocks (map reset_position (blocks (current_blockset g))) g in
  let g2 := clear_selection g1 in
  let g3 := with_selection_confirmed false g2 in
  let g4 := with_drag
              (let d := drag g3 in
               mkDrag (dragging d) (drag_start d) (drag_end d) false
                      (move_start_pos d) (original_positions d)
                      (temp_selected_block_set d) (original_colors d)
                      (start_mouse_pos d) (min_offset_x d) (max_offset_x d)
                      (min_offset_y d) (max_offset_y d)) g3 in
  with_failed_constraints [] (with_history [] (-1) g4).

(** [Game._confirm_selection] *)
Definition _confirm_selection (g : Game) : Game :=
  match selected_blocks (current_blockset g) with
  | [] => g
  | _ => with_failed_constraints [] (_save_state (with_selection_confirmed true g))
  end.

(** [Game._handle_action], for the actions the level screen produces.
    ["reselection"] matches no branch. *)
Definition _handle_action (action : string) (g : Game) : result Game :=
  if String.eqb action "reset" then Ok (_reset_level g)
  else if String.eqb action "undo" then _undo g
  else if String.eqb action "redo" then _redo g
  else if String.eqb action "confirm" then Ok (_confirm_selection g)
  else if String.eqb action "back_to_levels"
       then Ok (with_current_state "choose_level" g)
  else Ok g.

(** ** web/ui.py: clicks and drags *)

(** [UI.get_grid_pos] and [UI._screen_to_grid] *)
Definition get_grid_pos (g : Game) (screen_pos : Pos) : result Pos :=
  let offset := grid_offset (layout g) in
  x ← py_floordiv (fst screen_pos - fst offset) (cell_size (layout g));
  y ← py_floordiv (snd screen_pos - snd offset) (cell_size (layout g));
  Ok (x, y).

Definition _screen_to_grid (g : Game) (screen_pos : Pos) : result Pos :=
  get_grid_pos g screen_pos.

(** [UI.handle_click] on the level screen.  [hit] is the first of the buttons
    [reset], [undo], [redo], [confirm], [back_to_levels] whose rectangle
    contains the click, if any.  The result is the new state and the action
    returned.  The menu screens and the congratulation screen only navigate
    between levels and are not part of the session: there the state is left
    as it is. *)
Definition handle_click (hit : option string) (g : Game)
  : result (Game * option string) :=
  if String.eqb (current_state g) "in_level_chooseblock" then
    match hit with
    | Some button_name =>
      if String.eqb button_name "confirm" then
        results ← check_constraints (current_blockset g) (constraints g) Selection;
        let failed_now_constraints := failed_names results in
        match failed_now_constraints with
        | _ :: _ =>
          Ok (with_failed_constraints failed_now_constraints
                (with_selection_confirmed false g), Some "reselection")
        | [] =>
          Ok (with_failed_constraints []
                (with_selection_confirmed true g), Some button_name)
        end
      else Ok (g, Some button_name)
    | None => Ok (g, None)
    end
  else Ok (g, None).

(** [[f(block) for block in selected_blocks]] *)
Definition selected_list (g : Game) : list Block :=
  deref (blocks (current_blockset g)) (selected_blocks (current_blockset g)).

(** [UI.start_drag] *)
Definition start_drag (p : Pos) (g : Game) : Game :=
  let d := drag g in
  let bs := current_blockset g in
  match selected_blocks bs with
  | [] =>
    with_drag (mkDrag true (Some p) (Some p) (moving_blocks d) (move_start_pos d)
                      (original_positions d) (temp_selected_block_set d)
                      (original_colors d) (start_mouse_pos d) (min_offset_x d)
                      (max_offset_x d) (min_offset_y d) (max_offset_y d)) g
  | _ =>
    let l := layout g in
    let sel := selected_list g in
    let original_positions := map pos sel in
    let temp :=
      map (fun b => new_Block (type b) (pos b) (color b) (detailed_information b))
          sel in
    let original_colors := map color sel in
    let left_limits := map (fun o => - margin_left l - fst o) original_positions in
    let right_limits :=
      map (fun o => (grid_w l - margin_right l - 1) - fst o) original_positions in
    let top_limits := map (fun o => - margin_top l - snd o) original_positions in
    let bottom_limits :=
      map (fun o => (grid_h l - margin_bottom l - 1) - snd o) original_positions in
    let bl :=
      fold_left (fun bl i => alter (fun b => set_ghost true (set_selected true b)) i bl)
                (selected_blocks bs) (blocks bs) in
    with_blocks bl
      (with_drag (mkDrag true (Some p) (Some p) true (Some p)
                         (Some original_positions) (Val temp)
                         (Some original_colors) (Some p)
                         (Some (py_min left_limits)) (Some (py_max right_limits))
                         (Some (py_min top_limits)) (Some (py_max bottom_limits)))
                 g)
  end.

(** [not (new_x < -margin_left or new_x >= grid_w - margin_right or
         new_y < -margin_top or new_y >= grid_h - margin_bottom)] *)
Definition in_bounds (l : Layout) (p : Pos) : bool :=
  negb ((fst p <? - margin_left l) || (grid_w l - margin_right l <=? fst p) ||
        (snd p <? - margin_top l) || (grid_h l - margin_bottom l <=? snd p)).

(** Some block outside the selected set is at [p]; with [skip_ghost], blocks
    whose [ghost] flag is set do not count. *)
Definition overlaps (bs : BlockSet) (skip_ghost : bool) (p : Pos) : bool :=
  existsb
    (fun j => match blocks bs !! j with
              | Some other_block =>
                negb (in_selected bs j) &&
                negb (skip_ghost && ghost other_block) &&
                pos_eqb (pos other_block) p
              | None => false
              end)
    (seq 0 (length (blocks bs))).

Definition attr_get {A} (o : option A) : result A :=
  match o with
  | Some a => Ok a
  | None => Raise AttributeError
  end.

(** The validity loop of [update_drag] and the second one of [end_drag]:
    over [enumerate(selected_blocks)], stopping at the first invalid block. *)
Fixpoint drag_valid_from (g : Game) (skip_ghost : bool) (off : result Pos)
         (i : nat) (sel : list nat) : result bool :=
  match sel with
  | [] => Ok true
  | _ :: rest =>
    orig ← py_subscript (original_positions (drag g)) i;
    o ← off;
    let new := (fst orig + fst o, snd orig + snd o) in
    if negb (in_bounds (layout g) new) then Ok false
    else if overlaps (current_blockset g) skip_ghost new then Ok false
    else drag_valid_from g skip_ghost off (S i) rest
  end.

(** The loop of [update_drag] over [enumerate(self.temp_selected_block_set)]. *)
Fixpoint update_temp_from (g : Game) (off : Pos) (is_valid : bool) (i : nat)
         (temp : list Block) : result (list Block) :=
  match temp with
  | [] => Ok []
  | temp_block :: rest =>
    orig ← py_subscript (original_positions (drag g)) i;
    let b := set_ghost true
               (set_color (if is_valid then (144, 238, 144) else (255, 182, 193))
                  (set_selected true
                     (set_pos (fst orig + fst off, snd orig + snd off) temp_block))) in
    more ← update_temp_from g off is_valid (S i) rest;
    Ok (b :: more)
  end.

(** [UI.update_drag] *)
Definition update_drag (p : Pos) (g : Game) : result Game :=
  let d := drag g in
  if negb (moving_blocks d) || negb (bool_decide (is_Some (move_start_pos d))) ||
     match original_positions d with Some (_ :: _) => false | _ => true end
  then Ok g
  else
    start ← attr_get (start_mouse_pos d);
    grid_offset_x ← py_floordiv (fst p - fst start) (cell_size (layout g));
    grid_offset_y ← py_floordiv (snd p - snd start) (cell_size (layout g));
    max_x ← attr_get (max_offset_x d);
    min_x ← attr_get (min_offset_x d);
    let grid_offset_x := Z.max (Z.min grid_offset_x max_x) min_x in
    max_y ← attr_get (max_offset_y d);
    min_y ← attr_get (min_offset_y d);
    let grid_offset_y := Z.max (Z.min grid_offset_y max_y) min_y in
    is_valid ← drag_valid_from g false (Ok (grid_offset_x, grid_offset_y)) 0
                 (selected_blocks (current_blockset g));
    temp ← match temp_selected_block_set d with
           | Absent => Raise AttributeError
           | PyNone => Raise TypeError
           | Val temp =>
             update_temp_from g (grid_offset_x, grid_offset_y) is_valid 0 temp
           end;
    Ok (with_drag (mkDrag (dragging d) (drag_start d) (drag_end d)
                          (moving_blocks d) (move_start_pos d)
                          (original_positions d) (Val temp) (original_colors d)
                          (start_mouse_pos d) (min_offset_x d) (max_offset_x d)
                          (min_offset_y d) (max_offset_y d)) g).

(** [for i, block in enumerate(selected_blocks): block.pos = original_positions[i]] *)
Fixpoint restore_positions_from (orig : option (list Pos)) (i : nat)
         (sel : list nat) (bl : list Block) : result (list Block) :=
  match sel with
  | [] => Ok bl
  | r :: rest =>
    p ← py_subscript orig i;
    restore_positions_from orig (S i) rest (alter (set_pos p) r bl)
  end.

(** The last loop of [end_drag]: colour, position, [selected = 0] and
    [ghost = False] for every block of the selected set that has a recorded
    colour. *)
Fixpoint apply_drag_from (d : Drag) (colors : list (Z * Z * Z)) (is_valid : bool)
         (i : nat) (sel : list nat) (bl : list Block) : result (list Block) :=
  match sel with
  | [] => Ok bl
  | r :: rest =>
    match colors !! i with
    | Some c =>
      p ← (if is_valid then
             match temp_selected_block_set d with
             | Absent => Raise AttributeError
             | PyNone => Raise TypeError
             | Val temp => temp_block ← py_index temp i; Ok (pos temp_block)
             end
           else py_subscript (original_positions d) i);
      apply_drag_from d colors is_valid (S i) rest
        (alter (fun b => set_ghost false
                           (set_selected false (set_pos p (set_color c b)))) r bl)
    | None => apply_drag_from d colors is_valid (S i) rest bl
    end
  end.

(** [UI.end_drag]; [mouse] is what [pygame.mouse.get_pos()] returns. *)
Definition end_drag (mouse : Pos) (g : Game) : result Game :=
  let d := drag g in
  (* first validity check, made when a move is in progress *)
  '(is_valid, off) ←
    match moving_blocks d, move_start_pos d with
    | true, Some start =>
      grid_offset_x ← py_floordiv (fst mouse - fst start) (cell_size (layout g));
      grid_offset_y ← py_floordiv (snd mouse - snd start) (cell_size (layout g));
      match original_positions d with
      | None => Raise TypeError
      | Some origs =>
        Ok (forallb
              (fun orig =>
                 let new := (fst orig + grid_offset_x, snd orig + grid_offset_y) in
                 in_bounds (layout g) new &&
                 negb (overlaps (current_blockset g) false new))
              origs,
            Ok (grid_offset_x, grid_offset_y))
      end
    | _, _ => Ok (false, Raise NameError)
    end;
  (* put the blocks back, or select the dragged area *)
  g1 ←
    (if negb is_valid then
       bl ← restore_positions_from (original_positions d) 0
              (selected_blocks (current_blockset g)) (blocks (current_blockset g));
       Ok (with_blocks bl g)
     else if dragging d && bool_decide (is_Some (drag_start d)) &&
             bool_decide (is_Some (drag_end d)) && negb (selection_confirmed g)
     then
       match drag_start d, drag_end d with
       | Some ds, Some de =>
         start_pos ← _screen_to_grid g ds;
         end_pos ← _screen_to_grid g de;
         Ok (select_blocks_in_area start_pos end_pos g)
       | _, _ => Ok g
       end
     else Ok g);
  (* validity of the final position *)
  let sel := selected_blocks (current_blockset g1) in
  is_valid ←
    match sel with
    | [] => Ok false
    | _ => drag_valid_from g1 true off 0 sel
    end;
  (* apply or restore *)
  bl ←
    match sel, original_colors d with
    | _ :: _, Some colors =>
      apply_drag_from d colors is_valid 0 sel (blocks (current_blockset g1))
    | _, _ => Ok (blocks (current_blockset g1))
    end;
  (* clear the temporary state *)
  Ok (with_drag (mkDrag false None None false None None PyNone
                        (original_colors d) (start_mouse_pos d) (min_offset_x d)
                        (max_offset_x d) (min_offset_y d) (max_offset_y d))
                (with_blocks bl g1)).

(** ** game.py: the mouse events *)

(** The index of the first block of [blocks] at [grid_pos]. *)
Definition clicked_block (g : Game) (grid_pos : Pos) : option nat :=
  get_block_at_position (current_blockset g) grid_pos.

(** [Game._handle_mouse_down] on the level screen; [hit] as in
    [handle_click]. *)
Definition _handle_mouse_down (hit : option string) (p : Pos) (g : Game)
  : result Game :=
  if String.eqb (current_state g) "in_level_chooseblock" then
    '(g1, action) ← handle_click hit g;
    match action with
    | Some a => _handle_action a g1
    | None =>
      if negb (selection_confirmed g1) then
        grid_pos ← get_grid_pos g1 p;
        match clicked_block g1 grid_pos with
        | Some i =>
          if in_selected (current_blockset g1) i
          then Ok (with_failed_constraints [] (deselect_block i g1))
          else Ok (with_failed_constraints [] (select_block i g1))
        | None => Ok g1
        end
      else
        grid_pos ← get_grid_pos g1 p;
        let d := drag g1 in
        let g2 :=
          if existsb (fun b => pos_eqb (pos b) grid_pos) (selected_list g1) then
            with_drag (mkDrag (dragging d) (drag_start d) (drag_end d) true (Some p)
                              (Some (map pos (selected_list g1)))
                              (temp_selected_block_set d) (original_colors d)
                              (start_mouse_pos d) (min_offset_x d) (max_offset_x d)
                              (min_offset_y d) (max_offset_y d)) g1
          else g1 in
        Ok (start_drag p g2)
    end
  else Ok g.

(** [Game._handle_mouse_motion] *)
Definition _handle_mouse_motion (p : Pos) (g : Game) : result Game :=
  if String.eqb (current_state g) "in_level_chooseblock" then
    if dragging (drag g) then update_drag p g else Ok g
  else Ok g.

(** [Game._handle_mouse_up]; [mouse] is the pointer position that [end_drag]
    reads.  Writing the save file in [complete_level] is left out. *)
Definition _handle_mouse_up (mouse : Pos) (g : Game) : result Game :=
  if String.eqb (current_state g) "in_level_chooseblock" then
    if dragging (drag g) then
      g1 ← end_drag mouse g;
      let d := drag g1 in
      let g2 := with_drag
                  (mkDrag (dragging d) (drag_start d) (drag_end d) (moving_blocks d)
                          None (Some []) (temp_selected_block_set d)
                          (original_colors d) (start_mouse_pos d) (min_offset_x d)
                          (max_offset_x d) (min_offset_y d) (max_offset_y d)) g1 in
      if selection_confirmed g2 then
        results ← check_constraints (current_blockset g2) (constraints g2) Movement;
        let failed := failed_names results in
        let g3 := with_failed_constraints failed g2 in
        match failed with
        | _ :: _ => Ok (with_failed_constraints failed (_reset_level g3))
        | [] =>
          Ok (with_failed_constraints []
                (with_current_state "congrats" (with_completed true g3)))
        end
      else Ok g2
    else Ok g
  else Ok g.

(** [Level.create_blockset], [UI.load_level] and [Game._load_level], in a UI
    that has not dragged yet: a fresh session on the blocks of a level. *)
Definition _load_level (level_blocks : list Block) (level_constraints : list string)
           (l : Layout) : Game :=
  mkGame (mkBlockSet level_blocks [] true) no_drag l "in_level_chooseblock"
         false [] level_constraints false [] (-1).

(** ** Vocabulary of the statements *)

(** Face [k] of a pyramid, as [detailed_information] orders them: top, bottom,
    left, right; the name [_check_pyramid_movement] passes for it, and the
    neighbouring position it looks at. *)
Definition face_name (k : nat) : string :=
  match k with
  | 0%nat => "top"
  | 1%nat => "bottom"
  | 2%nat => "left"
  | _ => "right"
  end.

Definition face_neighbor (k : nat) (p : Pos) : Pos :=
  let '(x, y) := p in
  match k with
  | 0%nat => (x, y - 1)
  | 1%nat => (x, y + 1)
  | 2%nat => (x - 1, y)
  | _ => (x + 1, y)
  end.

(** A cell's [selected] flag is true exactly when the cell is in the selected
    set. *)
Definition flags_agree (bs : BlockSet) : Prop :=
  forall i b, blocks bs !! i = Some b ->
              (selected b = true <-> In i (selected_blocks bs)).

(** No two cells of the grid are equal for [Block.__eq__]. *)
Definition distinct_blocks (bl : list Block) : Prop :=
  forall i j bi bj, bl !! i = Some bi -> bl !! j = Some bj ->
                    Block_eqb bi bj = true -> i = j.

(** What [_save_state] records of the grid. *)
Definition snapshot_of (bs : BlockSet) : list (Pos * bool) :=
  map (fun b => (pos b, selected b)) (blocks bs).

(** A solid cell of colour A (type 1) or B (type 2), a pyramid (type 3). *)
Definition solid (ty : Z) (p : Pos) : Block := new_Block ty p (0, 0, 0) [].
Definition pyramid (p : Pos) (faces : list Z) : Block := new_Block 3 p (0, 0, 0) faces.

Definition grid_of (bl : list Block) : BlockSet := mkBlockSet bl [] false.

(** Every cell lies at coordinates of magnitude at most [2 ^ 40]. *)
Definition small_coordinates (bl : list Block) : Prop :=
  forall b, In b bl ->
            Z.abs (fst (pos b)) <= 2 ^ 40 /\ Z.abs (snd (pos b)) <= 2 ^ 40.

Definition example_layout : Layout := mkLayout 4 4 4 4 10 9 40 (0, 0).

(** The measure that bounds the loop of [_check_sail]: the nodes not yet
    visited, each allowed one extension of the queue, plus the queue. *)
Fixpoint count_unvisited (visited nodes : list Node) : nat :=
  match nodes with
  | [] => 0
  | n :: rest =>
    (if node_mem n visited then 0 else 1) + count_unvisited visited rest
  end.

Definition sail_measure (nodes visited queue : list Node) : nat :=
  count_unvisited visited nodes * S (length nodes * length nodes) + length queue.

(** [bl'] is [bl] where cells of [sel] may have been moved, recoloured or had
    their flags changed: no cell appears or disappears, no cell changes its
    type or its original position, and cells outside [sel] are untouched. *)
Definition moved_only (sel : list nat) (bl bl' : list Block) : Prop :=
  length bl' = length bl /\
  forall i b', bl' !! i = Some b' ->
    exists b, bl !! i = Some b /\ type b' = type b /\
              original_pos b' = original_pos b /\ (~ In i sel -> b' = b).

(** The history [_save_state] leaves when it records [entry]. *)
Definition pushed_history (h : list Snapshot) (idx : Z) (entry : Snapshot)
  : list Snapshot :=
  py_slice_last (py_slice_to h (idx + 1) ++ [entry]) 20.

(** A level of three colour-A cells with [glue] required, just loaded. *)
Definition example_level : Game :=
  _load_level [solid 1 (0, 0); solid 1 (1, 0); solid 1 (3, 0)] ["glue"]
              example_layout.

(** The example level after clicks on its first two cells. *)
Definition example_selecting : Game :=
  Eval vm_compute in select_block 1 (select_block 0 example_level).

(** What identifies a cell and where it belongs: type, position, original
    position. *)
Definition cell_key (b : Block) : Z * Pos * Pos := (type b, pos b, original_pos b).

(** The invariant of a session between drags: flags and selected set agree,
    cells are pairwise distinct and at their original positions, and every
    history entry records the cells at the positions they have. *)
Definition session_inv (g : Game) : Prop :=
  let bs := current_blockset g in
  flags_agree bs /\
  distinct_blocks (blocks bs) /\
  (forall b, In b (blocks bs) -> pos b = original_pos b) /\
  (forall (e : Snapshot) i p f b,
      In e (history g) -> fst e !! i = Some (p, f) ->
      blocks bs !! i = Some b -> p = pos b).

(** The example session after Confirm, with a drag begun on the first cell. *)
Definition example_dragging : Game :=
  Eval vm_compute in
    start_drag (5, 5)
      (_confirm_selection (with_selection_confirmed true example_selecting)).

(** The sessions a level's play goes through while no drag has ended on a
    passing evaluation: loading, mouse presses (cell toggles, the buttons,
    the start of a drag), mouse motion, and mouse releases that end the drag
    of a confirmed selection on a failing movement-stage evaluation.
    [level] is the list of cells of the level. *)
Inductive in_play (level : list Block) (required : list string) (l : Layout)
  : Game -> Prop :=
| play_load : in_play level required l (_load_level level required l)
| play_mouse_down g hit p g' :
    in_play level required l g -> _handle_mouse_down hit p g = Ok g' ->
    in_play level required l g'
| play_mouse_motion g p g' :
    in_play level required l g -> _handle_mouse_motion p g = Ok g' ->
    in_play level required l g'
| play_failed_drop g mouse g1 results g' :
    in_play level required l g ->
    current_state g = "in_level_chooseblock" ->
    dragging (drag g) = true ->
    selection_confirmed g = true ->
    end_drag mouse g = Ok g1 ->
    check_constraints (current_blockset g1) (constraints g) Movement = Ok results ->
    failed_names results <> [] ->
    _handle_mouse_up mouse g = Ok g' ->
    in_play level required l g'.

(** The measure that bounds the loop of [is_connected]: the selected
    positions not yet visited, plus the queue. *)
Fixpoint count_unvisited_pos (visited positions : list Pos) : nat :=
  match positions with
  | [] => 0
  | p :: rest =>
    (if pos_mem p visited then 0 else 1) + count_unvisited_pos visited rest
  end.

(** ** More of block.py, blockset.py, web/level_parser.py and web/ui.py *)

(** [Block.is_point_inside] *)
Definition is_point_inside (b : Block) (point offset : Pos) (size : Z) : bool :=
  let x := fst (pos b) * size + fst offset in
  let y := snd (pos b) * size + snd offset in
  let '(px, py) := point in
  ((x <=? px) && (px <? x + size)) && ((y <=? py) && (py <? y + size)).

(** [BlockSet.add_block] *)
Definition add_block (block : Block) (bs : BlockSet) : BlockSet :=
  mkBlockSet (blocks bs ++ [block]) (selected_blocks bs) (on_selection_change bs).

(** [BlockSet.move_selected_blocks] *)
Definition move_selected_blocks (offset : Pos) (bs : BlockSet) : BlockSet :=
  mkBlockSet
    (fold_left
       (fun bl i =>
          alter (fun block =>
                   let new_pos := (fst (pos block) + fst offset,
                                   snd (pos block) + snd offset) in
                   move new_pos block) i bl)
       (selected_blocks bs) (blocks bs))
    (selected_blocks bs) (on_selection_change bs).

(** [BlockSet.reset_selected_blocks] *)
Definition reset_selected_blocks (bs : BlockSet) : BlockSet :=
  mkBlockSet
    (fold_left (fun bl i => alter reset_position i bl)
               (selected_blocks bs) (blocks bs))
    (selected_blocks bs) (on_selection_change bs).

(** [BlockSet.has_overlap]: the two sets of positions have a common
    element. *)
Definition has_overlap (bs other_blockset : BlockSet) : bool :=
  let self_positions := pos_set (get_all_positions bs) in
  let other_positions := pos_set (get_all_positions other_blockset) in
  match filter (fun p => pos_mem p other_positions = true) self_positions with
  | [] => false
  | _ => true
  end.

(** [Level._calc_max_rect] *)
Definition _calc_max_rect (level_blocks : list Block) : Z * Z :=
  match level_blocks with
  | [] => (1, 1)
  | _ =>
    let min_x := py_min (map (fun b => fst (pos b)) level_blocks) in
    let max_x := py_max (map (fun b => fst (pos b)) level_blocks) in
    let min_y := py_min (map (fun b => snd (pos b)) level_blocks) in
    let max_y := py_max (map (fun b => snd (pos b)) level_blocks) in
    let width := max_x - min_x + 1 in
    let height := max_y - min_y + 1 in
    (width, height)
  end.

(** [UI.__init__]: the widths of the information panel and of the button
    column. *)
Definition info_width : Z := 260.
Definition button_width : Z := 120.

(** [UI.set_level_layout], in a window of [width] by [height] pixels, for a
    level with the four margins and the rectangle [max_rect]. *)
Definition set_level_layout (width height : Z)
           (level_margin_left level_margin_top level_margin_right
            level_margin_bottom : Z) (max_rect : Z * Z) : result Layout :=
  let '(max_w, max_h) := max_rect in
  let grid_w := max_w + level_margin_left + level_margin_right in
  let grid_h := max_h + level_margin_top + level_margin_bottom in
  let max_area_w := width - info_width - button_width - 40 in
  let max_area_h := height - 40 in
  cw ← py_floordiv max_area_w grid_w;
  ch ← py_floordiv max_area_h grid_h;
  let cell_size := Z.min (Z.min cw ch) 60 in
  let area_w := grid_w * cell_size in
  let area_h := grid_h * cell_size in
  ax ← py_floordiv (width - info_width - button_width - area_w) 2;
  let area_x := info_width + ax in
  area_y ← py_floordiv (height - area_h) 2;
  Ok (mkLayout level_margin_left level_margin_top level_margin_right
               level_margin_bottom grid_w grid_h cell_size
               (area_x + level_margin_left * cell_size,
                area_y + level_margin_top * cell_size)).

(** [UI.get_screen_pos] *)
Definition get_screen_pos (g : Game) (grid_pos : Pos) : Pos :=
  let offset := grid_offset (layout g) in
  let x := fst grid_pos * cell_size (layout g) + fst offset in
  let y := snd grid_pos * cell_size (layout g) + snd offset in
  (x, y).

(** ** Vocabulary of the further properties *)

(** The least and the greatest element of a list of coordinates. *)
Definition is_least (m : Z) (l : list Z) : Prop :=
  In m l /\ forall x, In x l -> m <= x.

Definition is_greatest (m : Z) (l : list Z) : Prop :=
  In m l /\ forall x, In x l -> x <= m.

(** The map [f] on positions sends every cell of the grid onto a cell of the
    same type. *)
Definition type_preserving (bl : list Block) (f : Pos -> Pos) : Prop :=
  forall b, In b bl -> exists s, In s bl /\ pos s = f (pos b) /\ type s = type b.

(** The face that looks back at face [k] from the neighbouring cell. *)
Definition opposite_face (k : nat) : nat :=
  match k with
  | 0%nat => 1%nat
  | 1%nat => 0%nat
  | 2%nat => 3%nat
  | _ => 2%nat
  end.

(** What the pyramid constraint asks of face [k] of the pyramid [b] against
    the cell [n] that face looks at: a solid cell has the colour of the face,
    and a pyramid shows the same colour (or the same absence of colour) on
    the face that looks back. *)
Definition face_agrees (b : Block) (k : nat) (n : Block) : Prop :=
  ((type n = 1 \/ type n = 2) /\ nth k (detailed_information b) 0 = type n) \/
  (type n = 3 /\ (4 <= length (detailed_information n))%nat /\
   nth (opposite_face k) (detailed_information n) 0 =
   nth k (detailed_information b) 0).

(** A pyramid with its four face entries. *)
Definition is_pyramid (b : Block) : Prop :=
  type b = 3 /\ (4 <= length (detailed_information b))%nat.

(** Two positions one step apart, horizontally or vertically. *)
Definition adjacent4 (a b : Pos) : Prop :=
  b = (fst a + 1, snd a) \/ b = (fst a - 1, snd a) \/
  b = (fst a, snd a + 1) \/ b = (fst a, snd a - 1).

(** [b] is reached from [a] by steps between adjacent positions, each step
    ending on a position of [ps]. *)
Inductive linked (ps : list Pos) (a : Pos) : Pos -> Prop :=
| linked_here : linked ps a a
| linked_step b c : linked ps a b -> adjacent4 b c -> In c ps -> linked ps a c.

(** The positions of [ps] form one orthogonally connected group. *)
Definition connected_positions (ps : list Pos) : Prop :=
  forall a b, In a ps -> In b ps -> linked ps a b.

(** The loop body of [is_connected] for one neighbour. *)
Definition visit_neighbor (ps : list Pos)
  : list Pos * list Pos -> Pos -> list Pos * list Pos :=
  fun '(v, q) neighbor =>
    if pos_mem neighbor ps && negb (pos_mem neighbor v)
    then (v ++ [neighbor], q ++ [neighbor]) else (v, q).

(** What a level fixes of a cell: its type, its faces and the position it
    starts from. *)
Definition static_of (b : Block) : Z * list Z * Pos :=
  (type b, detailed_information b, original_pos b).

(** What a level fixes of a session: the cells, the required constraints and
    the layout. *)
Definition level_data (g : Game) : list (Z * list Z * Pos) * list string * Layout :=
  (map static_of (blocks (current_blockset g)), constraints g, layout g).

(** The history holds at most 20 entries and the cursor is the index of one
    of them, or -1 when there is none. *)
Definition history_ok (g : Game) : Prop :=
  (length (history g) <= 20)%nat /\
  -1 <= history_index g < Z.of_nat (length (history g)) /\
  (history g <> [] -> 0 <= history_index g).

(** Every session a level's play goes through: loading, then any sequence of
    mouse presses, motions and releases that are handled on the level screen
    and return.  [hit] is as in [handle_click]. *)
Inductive played (level : list Block) (required : list string) (l : Layout)
  : Game -> Prop :=
| played_load : played level required l (_load_level level required l)
| played_mouse_down g hit p g' :
    played level required l g ->
    current_state g = "in_level_chooseblock" ->
    _handle_mouse_down hit p g = Ok g' ->
    played level required l g'
| played_mouse_motion g p g' :
    played level required l g ->
    current_state g = "in_level_chooseblock" ->
    _handle_mouse_motion p g = Ok g' ->
    played level required l g'
| played_mouse_up g mouse g' :
    played level required l g ->
    current_state g = "in_level_chooseblock" ->
    _handle_mouse_up mouse g = Ok g' ->
    played level required l g'.

(** A session with the level data [S] and a history in order. *)
Definition steady (S : list (Z * list Z * Pos) * list string * Layout) (g : Game)
  : Prop :=
  level_data g = S /\ history_ok g.

(** [p] lies in the rectangle spanned by the corners [a] and [b], borders
    included. *)
Definition in_rectangle (a b p : Pos) : Prop :=
  Z.min (fst a) (fst b) <= fst p <= Z.max (fst a) (fst b) /\
  Z.min (snd a) (snd b) <= snd p <= Z.max (snd a) (snd b).

(** One iteration of the loop of [select_blocks_in_area], for the cell [i]
    and the rectangle test [test]. *)
Definition select_if (test : Pos -> bool) (g : Game) (i : nat) : Game :=
  match blocks (current_blockset g) !! i with
  | Some block => if test (pos block) then select_block i g else g
  | None => g
  end.

(** The example session after its drag is released where it began. *)
Definition example_dropped : Game :=
  Eval vm_compute in
    match end_drag (5, 5) example_dragging with
    | Ok g1 => g1
    | _ => example_dragging
    end.

(** The pixel rectangle [set_level_layout] reserves for the grid: its left
    and top edge, its width and its height. *)
Definition grid_area (l : Layout) : Z * Z * Z * Z :=
  (fst (grid_offset l) - margin_left l * cell_size l,
   snd (grid_offset l) - margin_top l * cell_size l,
   grid_w l * cell_size l, grid_h l * cell_size l).

(** Where the last loop of [end_drag] takes the position of the [k]-th
    selected cell from: the [k]-th preview copy when the drop is valid, the
    [k]-th recorded original position when it is not. *)
Definition drop_position (d : Drag) (valid : bool) (k : nat) (p : Pos) : Prop :=
  if valid then
    exists temp t, temp_selected_block_set d = Val temp /\ temp !! k = Some t /\
                   p = pos t
  else
    exists origs, original_positions d = Some origs /\ origs !! k = Some p.

(** One step of the traversal of [_check_sail]: [n] is a node of the grid
    that the adjacency test accepts from a node equal to [a]. *)
Definition sail_step (nodes : list Node) (a n : Node) : Prop :=
  In n nodes /\
  exists point, In point nodes /\ node_eqb point a = true /\
                sail_adjacent point n = true.

(** [b] is reached from [a] by steps of the traversal. *)
Inductive sail_linked (nodes : list Node) (a : Node) : Node -> Prop :=
| sail_linked_here : sail_linked nodes a a
| sail_linked_step b c :
    sail_linked nodes a b -> sail_step nodes b c -> sail_linked nodes a c.

(** No two entries of the list are equal as pairs of numbers. *)
Definition distinct_nodes (l : list Node) : Prop :=
  forall i j a b, l !! i = Some a -> l !! j = Some b -> node_eqb a b = true -> i = j.

(** * Properties *)

(** ** Results and small facts *)

Lemma pos_eqb_eq p q : pos_eqb p q = true <-> p = q.
Proof.
  destruct p as [a b], q as [c d]. unfold pos_eqb. simpl.
  rewrite andb_true_iff, !Z.eqb_eq. split.
  - intros [-> ->]. reflexivity.
  - intros H. injection H as -> ->. split; reflexivity.
Qed.

Lemma pos_eqb_refl p : pos_eqb p p = true.
Proof. apply pos_eqb_eq. reflexivity. Qed.

Lemma bind_Ok {A B} (r : result A) (k : A -> result B) (b : B) :
  r ≫= k = Ok b -> exists a, r = Ok a /\ k a = Ok b.
Proof. destruct r as [a| | |]; simpl; intros H; [eauto | discriminate..]. Qed.

(** Reduce the field accessors applied to the [with_*] updates, and nothing
    else. *)
Ltac fields :=
  cbn [current_blockset drag layout current_state selection_confirmed
       failed_constraints constraints completed history history_index
       blocks selected_blocks on_selection_change
       with_blockset with_drag with_current_state with_selection_confirmed
       with_failed_constraints with_completed with_history with_blocks
       with_selected_blocks mbind result_bind].

Tactic Notation "fields" "in" hyp(H) :=
  cbn [current_blockset drag layout current_state selection_confirmed
       failed_constraints constraints completed history history_index
       blocks selected_blocks on_selection_change
       with_blockset with_drag with_current_state with_selection_confirmed
       with_failed_constraints with_completed with_history with_blocks
       with_selected_blocks mbind result_bind] in H.

(** ** C1: glue at the selection stage *)

(** With at least one cell in the grid, [_check_glue] is [is_connected]. *)
Lemma glue_is_connected_on_nonempty_grid (bs : BlockSet) :
  blocks bs <> [] -> _check_glue bs = is_connected bs.
Proof.
  intros H. unfold _check_glue, get_all_positions.
  destruct (blocks bs); [congruence | reflexivity].
Qed.

(** With nothing selected, [is_connected] answers true. *)
Lemma is_connected_empty_selection (bs : BlockSet) :
  selected_blocks bs = [] -> is_connected bs = Ok true.
Proof. intros H. unfold is_connected. rewrite H. reflexivity. Qed.

(** The glue check passes at the selection stage whenever the grid has a cell
    and nothing is selected. *)
Lemma glue_passes_without_selection (bs : BlockSet) :
  blocks bs <> [] -> selected_blocks bs = [] ->
  check_one bs "glue" Selection = Ok true.
Proof.
  intros Hb Hs. unfold check_one. simpl.
  rewrite glue_is_connected_on_nonempty_grid by assumption.
  rewrite is_connected_empty_selection by assumption. reflexivity.
Qed.

(** C1.  The glue check tests that the grid has a cell, not that the selected
    set has one: on a freshly loaded level with one solid cell and nothing
    selected, [glue] evaluates to true at the selection stage, and pressing
    Confirm confirms the selection and reports no failing constraint. *)
Theorem C1_glue_accepts_empty_selection :
  let g := _load_level [solid 1 (0, 0)] ["glue"] example_layout in
  selected_blocks (current_blockset g) = [] /\
  check_constraints (current_blockset g) ["glue"] Selection = Ok [("glue", true)] /\
  (g' ← _handle_mouse_down (Some "confirm") (0, 0) g;
   Ok (selection_confirmed g', failed_constraints g')) = Ok (true, []).
Proof. vm_compute. repeat split. Qed.

Lemma pos_mem_snoc (p n : Pos) (v : list Pos) :
  pos_mem p (v ++ [n]) = pos_mem p v || pos_eqb p n.
Proof. unfold pos_mem. rewrite existsb_app. simpl. rewrite orb_false_r. reflexivity. Qed.

Lemma count_unvisited_pos_le (v ps : list Pos) :
  (count_unvisited_pos v ps <= length ps)%nat.
Proof.
  induction ps as [|p ps IH]; simpl; [lia|]. destruct (pos_mem p v); lia.
Qed.

Lemma count_unvisited_pos_mono (v ps : list Pos) (n : Pos) :
  (count_unvisited_pos (v ++ [n]) ps <= count_unvisited_pos v ps)%nat.
Proof.
  induction ps as [|p ps IH]; simpl; [lia|].
  rewrite pos_mem_snoc. destruct (pos_mem p v), (pos_eqb p n); simpl; lia.
Qed.

Lemma count_unvisited_pos_strict (v ps : list Pos) (n : Pos) :
  pos_mem n ps = true -> pos_mem n v = false ->
  (count_unvisited_pos (v ++ [n]) ps < count_unvisited_pos v ps)%nat.
Proof.
  intros Hin Hv. induction ps as [|p ps IH]; [discriminate|].
  simpl in *. rewrite pos_mem_snoc.
  destruct (pos_eqb n p) eqn:E.
  - apply pos_eqb_eq in E. subst p. rewrite Hv, pos_eqb_refl. simpl.
    pose proof (count_unvisited_pos_mono v ps n). lia.
  - simpl in Hin. specialize (IH Hin).
    destruct (pos_mem p v), (pos_eqb p n); simpl; lia.
Qed.

Lemma connected_step_measure (ps neighbors v q : list Pos) :
  let '(v', q') :=
    fold_left
      (fun '(v, q) neighbor =>
         if pos_mem neighbor ps && negb (pos_mem neighbor v)
         then (v ++ [neighbor], q ++ [neighbor]) else (v, q))
      neighbors (v, q) in
  (count_unvisited_pos v' ps + length q' <= count_unvisited_pos v ps + length q)%nat.
Proof.
  revert v q. induction neighbors as [|n neighbors IH]; intros v q; simpl; [lia|].
  destruct (pos_mem n ps) eqn:Hn, (pos_mem n v) eqn:Hv; simpl;
    try apply IH.
  specialize (IH (v ++ [n]) (q ++ [n])).
  destruct (fold_left _ neighbors (v ++ [n], q ++ [n])) as [v' q'].
  pose proof (count_unvisited_pos_strict v ps n Hn Hv).
  rewrite length_app in IH. simpl in IH. lia.
Qed.

Lemma connected_bfs_terminates (ps : list Pos) (fuel : nat) :
  forall v q, (count_unvisited_pos v ps + length q <= fuel)%nat ->
              exists r, connected_bfs fuel ps v q = Some r.
Proof.
  induction fuel as [|fuel IH]; intros v q Hm.
  - destruct q; [simpl; eauto | simpl in Hm; lia].
  - destruct q as [|[x y] rest]; [simpl; eauto|]. simpl.
    pose proof (connected_step_measure
                  ps [(x + 1, y); (x - 1, y); (x, y + 1); (x, y - 1)] v rest) as Hs.
    simpl in Hs.
    match goal with
    | |- context [let '(_, _) := ?e in _] => destruct e as [v' q']
    end.
    apply IH. simpl in Hm. lia.
Qed.

(** [is_connected] always returns: its loop ends within the fuel given. *)
Lemma is_connected_total (bs : BlockSet) : exists b, is_connected bs = Ok b.
Proof.
  unfold is_connected. destruct (length (selected_blocks bs) <=? 1)%nat; [eauto|].
  destruct (pos_set (get_selected_positions bs)) as [|start ps] eqn:E; [eauto|].
  destruct (connected_bfs_terminates (start :: ps) (S (length (start :: ps)))
                                     [start] [start]) as [r ->]; [|eauto].
  pose proof (count_unvisited_pos_le [start] (start :: ps)). simpl in *. lia.
Qed.

(** ** C2: mirror and symmetry at the selection stage *)

(** Under the name [mirror] the value the check returns is overwritten at
    the selection stage; under the name [symmetry] it is kept. *)
Lemma mirror_passes_at_selection (bs : BlockSet) (r : bool) :
  _check_mirror bs = Ok r -> check_one bs "mirror" Selection = Ok true.
Proof. intros H. unfold check_one. simpl. rewrite H. reflexivity. Qed.

Lemma symmetry_is_checked_at_selection (bs : BlockSet) :
  check_one bs "symmetry" Selection = _check_mirror bs.
Proof.
  unfold check_one, _check_symmetry. simpl.
  destruct (_check_mirror bs); reflexivity.
Qed.

(** C2.  Only the name [mirror] is exempted at the selection stage: on two
    solid cells at (0,0) and (2,1), [mirror] evaluates to true and [symmetry]
    to false. *)
Theorem C2_symmetry_differs_from_mirror_at_selection :
  let bs := grid_of [solid 1 (0, 0); solid 1 (2, 1)] in
  check_constraints bs ["mirror"] Selection = Ok [("mirror", true)] /\
  check_constraints bs ["symmetry"] Selection = Ok [("symmetry", false)].
Proof. vm_compute. split; reflexivity. Qed.

(** ** C3: the face comparison of the two axis checks *)

(** The face comparison sits under [block.type != symmetric_block.type], where
    the two types cannot both be 3: the axis checks compare types only. *)
Lemma axis_block_ok_types_only faces_differ bl block p :
  axis_block_ok faces_differ bl block p =
  match pos_to_block bl p with
  | Some symmetric_block => type block =? type symmetric_block
  | None => false
  end.
Proof.
  unfold axis_block_ok. destruct (pos_to_block bl p) as [s|]; [|reflexivity].
  destruct (Z.eqb_spec (type block) (type s)) as [E|N]; simpl; [reflexivity|].
  destruct (Z.eqb_spec (type block) 3) as [E3|]; simpl; [|reflexivity].
  destruct (Z.eqb_spec (type s) 3) as [E3'|]; simpl; [|reflexivity].
  congruence.
Qed.

(** C3.  Two pyramids mirrored in x whose faces do not satisfy the top/bottom
    swap pass the x-reflection check, and two pyramids mirrored in y whose
    faces do not satisfy the left/right swap pass the y-reflection check. *)
Theorem C3_axis_checks_accept_unswapped_faces :
  let a := pyramid (0, 0) [1; 0; 0; 0] in
  let b := pyramid (1, 0) [0; 0; 0; 0] in
  let c := pyramid (0, 0) [0; 0; 1; 0] in
  let d := pyramid (0, 1) [0; 0; 0; 0] in
  nth 1 (detailed_information b) 0 <> nth 0 (detailed_information a) 0 /\
  _is_horizontally_symmetric_blocks [a; b] = Ok true /\
  nth 3 (detailed_information d) 0 <> nth 2 (detailed_information c) 0 /\
  _is_vertically_symmetric_blocks [c; d] = Ok true.
Proof. vm_compute. repeat split; congruence. Qed.

(** ** C7: a coloured pyramid face with no neighbour *)

Lemma find_None_iff {A} (f : A -> bool) (l : list A) :
  find f l = None <-> forall x, In x l -> f x = false.
Proof.
  induction l as [|a l IH]; simpl.
  - split; [intros _ x [] | reflexivity].
  - destruct (f a) eqn:E.
    + split; [discriminate|]. intros H.
      rewrite (H a (or_introl eq_refl)) in E. discriminate.
    + rewrite IH. split.
      * intros H x [<-|Hx]; [assumption | apply H, Hx].
      * intros H x Hx. apply H. right. assumption.
Qed.

Lemma pos_to_block_None (bl : list Block) (p : Pos) :
  pos_to_block bl p = None <-> forall b, In b bl -> pos_eqb (pos b) p = false.
Proof.
  unfold pos_to_block. rewrite find_None_iff. split; intros H b Hb; apply H.
  - apply in_rev in Hb. exact Hb.
  - apply in_rev. exact Hb.
Qed.

Lemma pos_to_block_filter_None (P : Block -> Prop) `{forall b, Decision (P b)}
      (bl : list Block) (p : Pos) :
  pos_to_block bl p = None -> pos_to_block (filter P bl) p = None.
Proof.
  rewrite !pos_to_block_None. intros Hn b Hb. apply Hn.
  apply list_elem_of_In in Hb. apply list_elem_of_filter in Hb as [_ Hb].
  apply list_elem_of_In. exact Hb.
Qed.

Lemma face_name_known (k : nat) :
  existsb (String.eqb (face_name k)) ["top"; "bottom"; "left"; "right"] = true.
Proof. destruct k as [|[|[|k]]]; reflexivity. Qed.

(** [checkFace] on an unoccupied position, for a coloured requirement. *)
Lemma check_adjacent_missing_colored p requirement dict k strict :
  requirement = 1 \/ requirement = 2 -> dict p = None ->
  _check_pyramid_adjacent p requirement dict strict (face_name k) = negb strict.
Proof.
  intros Hreq Hd. unfold _check_pyramid_adjacent. rewrite Hd, face_name_known.
  assert ((requirement =? 0) = false) as -> by (apply Z.eqb_neq; lia).
  destruct strict; reflexivity.
Qed.

(** At the selection stage an unoccupied position passes for every
    requirement. *)
Lemma check_adjacent_missing_lenient p requirement dict face :
  dict p = None -> _check_pyramid_adjacent p requirement dict false face = true.
Proof.
  intros Hd. unfold _check_pyramid_adjacent. rewrite Hd.
  destruct (requirement =? 0); reflexivity.
Qed.

Lemma forallb_false_intro {A} (f : A -> bool) (l : list A) (x : A) :
  In x l -> f x = false -> forallb f l = false.
Proof.
  intros Hx Hf. destruct (forallb f l) eqn:E; [|reflexivity].
  rewrite forallb_forall in E. rewrite (E x Hx) in Hf. discriminate.
Qed.

Lemma pyramid_block_fails_on_missing_colored dict block k :
  type block = 3 -> (4 <= length (detailed_information block))%nat ->
  (k < 4)%nat ->
  nth k (detailed_information block) 0 = 1 \/
  nth k (detailed_information block) 0 = 2 ->
  dict (face_neighbor k (pos block)) = None ->
  pyramid_block_ok dict true block = false.
Proof.
  intros Ht Hl Hk Hreq Hd. unfold pyramid_block_ok.
  rewrite Ht. apply Nat.leb_le in Hl. rewrite Hl. simpl.
  destruct (pos block) as [x y] eqn:Hp. unfold face_neighbor in Hd.
  destruct k as [|[|[|[|k]]]]; [| | | |lia];
    [ pose proof (check_adjacent_missing_colored _ _ dict 0 true Hreq Hd) as Hc
    | pose proof (check_adjacent_missing_colored _ _ dict 1 true Hreq Hd) as Hc
    | pose proof (check_adjacent_missing_colored _ _ dict 2 true Hreq Hd) as Hc
    | pose proof (check_adjacent_missing_colored _ _ dict 3 true Hreq Hd) as Hc ];
    simpl in Hc; rewrite Hc;
    repeat match goal with
           | |- context [_check_pyramid_adjacent ?a ?b ?c ?d ?e] =>
             destruct (_check_pyramid_adjacent a b c d e); simpl
           end; reflexivity.
Qed.

Lemma pyramid_block_alone_passes block :
  pyramid_block_ok (pos_to_block [block]) false block = true.
Proof.
  unfold pyramid_block_ok.
  destruct ((type block =? 3) && (4 <=? length (detailed_information block))%nat);
    [|reflexivity].
  destruct (pos block) as [x y] eqn:Hp.
  assert (Hnone : forall q, q <> (x, y) -> pos_to_block [block] q = None).
  { intros q Hq. apply pos_to_block_None. intros b [<-|[]].
    rewrite Hp. destruct (pos_eqb (x, y) q) eqn:E; [|reflexivity].
    apply pos_eqb_eq in E. congruence. }
  rewrite !check_adjacent_missing_lenient; [reflexivity|..];
    apply Hnone; intros E; injection E; lia.
Qed.

(** C7 as amended.  Take a pyramid cell of the grid whose face [k] asks for
    colour A (1) or colour B (2) while no cell occupies the position that
    face looks at.  The face check passes when missing neighbours are
    tolerated (selection stage) and fails when they are not (movement
    stage); the pyramid constraint as a whole fails at the movement stage;
    and at the selection stage it passes when this pyramid is the only
    selected cell. *)
Theorem C7_colored_face_without_neighbor (bs : BlockSet) (block : Block) (k : nat) :
  In block (blocks bs) ->
  type block = 3 ->
  (4 <= length (detailed_information block))%nat ->
  (k < 4)%nat ->
  nth k (detailed_information block) 0 = 1 \/
  nth k (detailed_information block) 0 = 2 ->
  pos_to_block (blocks bs) (face_neighbor k (pos block)) = None ->
  let requirement := nth k (detailed_information block) 0 in
  let neighbor := face_neighbor k (pos block) in
  let selected_cells := filter (fun b => selected b = true) (blocks bs) in
  _check_pyramid_adjacent neighbor requirement (pos_to_block selected_cells)
                          false (face_name k) = true /\
  _check_pyramid_adjacent neighbor requirement (pos_to_block (blocks bs))
                          true (face_name k) = false /\
  check_one bs "pyramid" Movement = Ok false /\
  (selected_cells = [block] -> check_one bs "pyramid" Selection = Ok true).
Proof.
  intros Hin Ht Hl Hk Hreq Hd requirement neighbor selected_cells.
  split; [|split; [|split]].
  - apply (check_adjacent_missing_colored _ _ _ _ false Hreq).
    apply pos_to_block_filter_None. exact Hd.
  - apply (check_adjacent_missing_colored _ _ _ _ true Hreq Hd).
  - unfold check_one. simpl. f_equal. unfold _check_pyramid_movement.
    destruct (blocks bs) as [|b0 bl] eqn:Hb; [destruct Hin|].
    apply (forallb_false_intro _ _ block Hin).
    apply (pyramid_block_fails_on_missing_colored _ _ k); assumption.
  - intros Hsel. unfold check_one. simpl. f_equal.
    unfold _check_pyramid_selection. fold selected_cells. rewrite Hsel.
    simpl. rewrite pyramid_block_alone_passes. reflexivity.
Qed.

(** The spec's example: a pyramid with [faces[top] = ColorA], selected, with
    no neighbour. *)
Lemma C7_top_face_example :
  let block := set_selected true (pyramid (0, 0) [1; 0; 0; 0]) in
  let bs := mkBlockSet [block] [0%nat] false in
  check_one bs "pyramid" Movement = Ok false /\
  check_one bs "pyramid" Selection = Ok true.
Proof.
  intros block bs.
  assert (In block (blocks bs)) as Hin by (left; reflexivity).
  destruct (C7_colored_face_without_neighbor bs block 0 Hin) as (_ & _ & Hm & Hs);
    [reflexivity | simpl; lia | lia | left; reflexivity | reflexivity |].
  split; [exact Hm | apply Hs; reflexivity].
Defined.

(** C7, the claim as stated fails: at the selection stage the pyramid
    constraint can fail all the same, on another face.  Here the top face
    asks for colour A and looks at no cell, while the right face asks for no
    colour and looks at a selected solid cell. *)
Lemma C7_selection_fails_on_another_face :
  let block := set_selected true (pyramid (0, 0) [1; 0; 0; 0]) in
  let other := set_selected true (solid 1 (1, 0)) in
  let bs := mkBlockSet [block; other] [0%nat; 1%nat] false in
  type block = 3 /\
  nth 0 (detailed_information block) 0 = 1 /\
  pos_to_block (blocks bs) (face_neighbor 0 (pos block)) = None /\
  check_one bs "pyramid" Selection = Ok false /\
  check_one bs "pyramid" Movement = Ok false.
Proof. vm_compute. repeat split. Qed.

(** ** C8: the sail constraint on small grids *)

(** At the movement stage the result of [sail] is that of [_check_sail]. *)
Lemma check_one_sail_movement (bs : BlockSet) :
  check_one bs "sail" Movement = _check_sail bs.
Proof.
  unfold check_one. simpl. destruct (_check_sail bs) as [b| | |]; reflexivity.
Qed.

Lemma check_sail_of_nodes (bs : BlockSet) (nodes : list Node) :
  sail_nodes (blocks bs) = Ok nodes ->
  _check_sail bs =
  if (length nodes <? 2)%nat then Ok true
  else if negb (distances_followed nodes) then Unmodelled
  else match nodes with
       | [] => Raise IndexError
       | first :: _ =>
         match sail_bfs (sail_fuel nodes) nodes [] [first] with
         | Some visited => Ok (length visited =? length nodes)%nat
         | None => OutOfFuel
         end
       end.
Proof. intros H. unfold _check_sail. rewrite H. reflexivity. Qed.

(** Two integer nodes one step apart are too far for the [0.61 ** 2] test
    and adjacent by the exact-distance test. *)
Lemma sail_unit_step_adjacent :
  let a := node_of_pos (0, 0) in
  let b := node_of_pos (1, 0) in
  Qle_bool (dist2 a b) (0.61 ^ 2)%Q = false /\
  Qeq_bool (dist2 a b) 1 = true /\
  sail_adjacent a b = true /\
  sail_adjacent a (node_of_pos (2, 0)) = false.
Proof. vm_compute. repeat split. Qed.

(** C8.  At the movement stage, a grid whose sail nodes are the two solid
    colour-B cells at (0,0) and (1,0) passes [sail]; one whose sail nodes are
    the two solid colour-B cells at (0,0) and (2,0) fails it; and a grid with
    fewer than two sail nodes passes. *)
Theorem C8_sail_small_grids (bs : BlockSet) (nodes : list Node) :
  sail_nodes (blocks bs) = Ok nodes ->
  (nodes = [node_of_pos (0, 0); node_of_pos (1, 0)] \/
   nodes = [node_of_pos (1, 0); node_of_pos (0, 0)] ->
   check_one bs "sail" Movement = Ok true) /\
  (nodes = [node_of_pos (0, 0); node_of_pos (2, 0)] \/
   nodes = [node_of_pos (2, 0); node_of_pos (0, 0)] ->
   check_one bs "sail" Movement = Ok false) /\
  ((length nodes < 2)%nat -> check_one bs "sail" Movement = Ok true).
Proof.
  intros Hn. rewrite check_one_sail_movement, (check_sail_of_nodes bs nodes Hn).
  split; [|split].
  - intros [-> | ->]; vm_compute; reflexivity.
  - intros [-> | ->]; vm_compute; reflexivity.
  - intros Hlt. apply Nat.ltb_lt in Hlt. rewrite Hlt. reflexivity.
Qed.

(** The three cases on concrete grids: two colour-B cells side by side next
    to a colour-A cell, two colour-B cells a cell apart, one colour-B cell. *)
Lemma C8_sail_examples :
  check_one (grid_of [solid 2 (0, 0); solid 2 (1, 0); solid 1 (5, 5)]) "sail" Movement
  = Ok true /\
  check_one (grid_of [solid 2 (0, 0); solid 2 (2, 0)]) "sail" Movement = Ok false /\
  check_one (grid_of [solid 2 (0, 0); solid 1 (1, 0)]) "sail" Movement = Ok true.
Proof.
  split; [|split].
  - refine (proj1 (C8_sail_small_grids
                     (grid_of [solid 2 (0, 0); solid 2 (1, 0); solid 1 (5, 5)])
                     [node_of_pos (0, 0); node_of_pos (1, 0)] eq_refl) _).
    left. reflexivity.
  - refine (proj1 (proj2 (C8_sail_small_grids
                            (grid_of [solid 2 (0, 0); solid 2 (2, 0)])
                            [node_of_pos (0, 0); node_of_pos (2, 0)] eq_refl)) _).
    left. reflexivity.
  - refine (proj2 (proj2 (C8_sail_small_grids
                            (grid_of [solid 2 (0, 0); solid 1 (1, 0)])
                            [node_of_pos (0, 0)] eq_refl)) _).
    simpl. lia.
Defined.

(** ** C9: the history after a snapshot *)

Lemma py_slice_last_length {A} (l : list A) (k : nat) :
  (length (py_slice_last l k) <= k)%nat.
Proof. unfold py_slice_last. rewrite length_drop. lia. Qed.

Lemma py_slice_last_short {A} (l : list A) (k : nat) :
  (length l <= k)%nat -> py_slice_last l k = l.
Proof.
  intros H. unfold py_slice_last.
  replace (length l - k)%nat with 0%nat by lia. reflexivity.
Qed.

Lemma py_slice_last_snoc {A} (l : list A) (x : A) (k : nat) :
  (0 < k)%nat ->
  py_slice_last (l ++ [x]) k = py_slice_last l (k - 1) ++ [x].
Proof.
  intros Hk. unfold py_slice_last. rewrite length_app. simpl.
  destruct (Nat.le_gt_cases (length l + 1) k) as [Hle|Hgt].
  - replace (length l + 1 - k)%nat with 0%nat by lia.
    replace (length l - (k - 1))%nat with 0%nat by lia. reflexivity.
  - replace (length l + 1 - k)%nat with (length l - (k - 1))%nat by lia.
    rewrite drop_app_le by lia. reflexivity.
Qed.

(** The history [_save_state] leaves, in one expression. *)
Lemma save_state_history (g : Game) :
  history (_save_state g) =
  py_slice_last (py_slice_to (history g) (history_index g + 1)
                 ++ [(snapshot_of (current_blockset g), selection_confirmed g)]) 20
  /\ history_index (_save_state g) = Z.of_nat (length (history (_save_state g))) - 1.
Proof.
  unfold _save_state, snapshot_of.
  set (h := py_slice_to (history g) (history_index g + 1) ++ _).
  destruct (20 <? length h)%nat eqn:E; simpl.
  - split; reflexivity.
  - apply Nat.ltb_ge in E. rewrite py_slice_last_short by exact E.
    split; reflexivity.
Qed.

(** C9.  After [_save_state] the history has at most 20 entries, the cursor
    is the index of the last entry, and that entry is the snapshot just
    taken.  When the cursor was at entry [history_index] (or at -1, before
    the first entry), the entries before the new one are the last ones of
    [history[0 .. history_index]]: what lay after the cursor is gone. *)
Theorem C9_history_after_snapshot (g : Game) :
  let g' := _save_state g in
  let entry := (snapshot_of (current_blockset g), selection_confirmed g) in
  (length (history g') <= 20)%nat /\
  history_index g' = Z.of_nat (length (history g')) - 1 /\
  last (history g') = Some entry /\
  (-1 <= history_index g ->
   exists k, history g' =
             drop k (take (Z.to_nat (history_index g + 1)) (history g)) ++ [entry]).
Proof.
  intros g' entry. destruct (save_state_history g) as [Hh Hi].
  fold g' in Hh, Hi. fold entry in Hh.
  rewrite py_slice_last_snoc in Hh by lia.
  split; [|split; [|split]].
  - rewrite Hh, length_app.
    pose proof (py_slice_last_length
                  (py_slice_to (history g) (history_index g + 1)) (20 - 1)) as Hl.
    cbn [length] in *. lia.
  - exact Hi.
  - rewrite Hh. apply last_snoc.
  - intros Hc. rewrite Hh. unfold py_slice_to.
    assert ((0 <=? history_index g + 1) = true) as -> by (apply Z.leb_le; lia).
    unfold py_slice_last. eexists. reflexivity.
Qed.

(** A snapshot taken after an undo: three entries, cursor on the first. *)
Lemma C9_truncation_example :
  let e := ([((0, 0), false)], false) in
  let g := with_history [e; e; e] 0 (_load_level [solid 1 (0, 0)] [] example_layout) in
  history (_save_state g) = [e; e] /\ history_index (_save_state g) = 1.
Proof.
  intros e g.
  destruct (C9_history_after_snapshot g) as (_ & Hi & _ & Ht).
  destruct Ht as [k Hk]; [simpl; lia|].
  split.
  - reflexivity.
  - rewrite Hi. reflexivity.
Defined.

(** ** C10: evaluating the sail constraint *)

Lemma py_index_in_range {A} (l : list A) (k : nat) :
  (k < length l)%nat -> exists a, py_index l k = Ok a.
Proof.
  intros H. unfold py_index. destruct (lookup_lt_is_Some_2 l k H) as [a ->].
  eauto.
Qed.

Lemma py_index_out_of_range {A} (l : list A) (k : nat) :
  (length l <= k)%nat -> py_index l k = Raise IndexError.
Proof.
  intros H. unfold py_index. rewrite (lookup_ge_None_2 l k H). reflexivity.
Qed.

Lemma int_minus_float_small (z : Z) (d : Q) :
  Z.abs z <= 2 ^ 40 -> int_minus_float z d = Ok (inject_Z z - d)%Q.
Proof.
  intros H. unfold int_minus_float. apply Z.leb_le in H. rewrite H. reflexivity.
Qed.

Lemma int_plus_float_small (z : Z) (d : Q) :
  Z.abs z <= 2 ^ 40 -> int_plus_float z d = Ok (inject_Z z + d)%Q.
Proof.
  intros H. unfold int_plus_float. apply Z.leb_le in H. rewrite H. reflexivity.
Qed.

Lemma face_node_ok cell k (node : Q * Q) :
  (type cell = 3 -> (k < length (detailed_information cell))%nat) ->
  exists ns, face_node cell k (Ok node) = Ok ns /\ (ns = [] \/ ns = [node]).
Proof.
  intros H. unfold face_node. destruct (Z.eqb_spec (type cell) 3) as [E|N].
  - destruct (py_index_in_range (detailed_information cell) k (H E)) as [d ->].
    simpl. destruct (d =? 2); simpl; eauto.
  - eauto.
Qed.

Lemma face_node_Ok_or_IndexError cell k (node : Q * Q) :
  (exists ns, face_node cell k (Ok node) = Ok ns /\ (ns = [] \/ ns = [node])) \/
  face_node cell k (Ok node) = Raise IndexError.
Proof.
  unfold face_node, py_index. destruct (type cell =? 3); [|eauto].
  destruct (detailed_information cell !! k) as [d|]; simpl; [|eauto].
  destruct (d =? 2); simpl; eauto.
Qed.

Lemma face_node_short cell k node :
  type cell = 3 -> (length (detailed_information cell) <= k)%nat ->
  face_node cell k node = Raise IndexError.
Proof.
  intros Ht Hl. unfold face_node. rewrite Ht. simpl.
  rewrite py_index_out_of_range by exact Hl. reflexivity.
Qed.

(** The nodes of a cell at small coordinates: the offsets are computed, and
    only an index can raise. *)
Lemma cell_nodes_small cell :
  Z.abs (fst (pos cell)) <= 2 ^ 40 -> Z.abs (snd (pos cell)) <= 2 ^ 40 ->
  cell_nodes cell =
  let x := inject_Z (fst (pos cell)) in
  let y := inject_Z (snd (pos cell)) in
  let n0 := if type cell =? 2 then [node_of_pos (pos cell)] else [] in
  n1 ← face_node cell 0 (Ok (x, y - 0.4)%Q);
  n2 ← face_node cell 1 (Ok (x, y + 0.4)%Q);
  n3 ← face_node cell 2 (Ok (x - 0.4, y)%Q);
  n4 ← face_node cell 3 (Ok (x + 0.4, y)%Q);
  Ok (n0 ++ n1 ++ n2 ++ n3 ++ n4).
Proof.
  intros Hx Hy. unfold cell_nodes. destruct (pos cell) as [x y]. simpl in Hx, Hy.
  rewrite !int_minus_float_small, !int_plus_float_small by assumption.
  reflexivity.
Qed.

Lemma cell_nodes_ok cell :
  Z.abs (fst (pos cell)) <= 2 ^ 40 -> Z.abs (snd (pos cell)) <= 2 ^ 40 ->
  (type cell = 3 -> (4 <= length (detailed_information cell))%nat) ->
  exists ns, cell_nodes cell = Ok ns.
Proof.
  intros Hx Hy H. rewrite (cell_nodes_small cell Hx Hy). cbv zeta.
  set (x := inject_Z (fst (pos cell))). set (y := inject_Z (snd (pos cell))).
  destruct (face_node_ok cell 0 (x, (y - 0.4)%Q)) as (n1 & -> & _);
    [intros E; specialize (H E); lia|].
  destruct (face_node_ok cell 1 (x, (y + 0.4)%Q)) as (n2 & -> & _);
    [intros E; specialize (H E); lia|].
  destruct (face_node_ok cell 2 ((x - 0.4)%Q, y)) as (n3 & -> & _);
    [intros E; specialize (H E); lia|].
  destruct (face_node_ok cell 3 ((x + 0.4)%Q, y)) as (n4 & -> & _);
    [intros E; specialize (H E); lia|].
  simpl. eauto.
Qed.

Lemma cell_nodes_Ok_or_IndexError cell :
  Z.abs (fst (pos cell)) <= 2 ^ 40 -> Z.abs (snd (pos cell)) <= 2 ^ 40 ->
  (exists ns, cell_nodes cell = Ok ns) \/ cell_nodes cell = Raise IndexError.
Proof.
  intros Hx Hy. rewrite (cell_nodes_small cell Hx Hy). cbv zeta.
  set (x := inject_Z (fst (pos cell))). set (y := inject_Z (snd (pos cell))).
  destruct (face_node_Ok_or_IndexError cell 0 (x, (y - 0.4)%Q)) as [(n1 & -> & _)| ->];
    [|right; reflexivity].
  destruct (face_node_Ok_or_IndexError cell 1 (x, (y + 0.4)%Q)) as [(n2 & -> & _)| ->];
    [|right; reflexivity].
  destruct (face_node_Ok_or_IndexError cell 2 ((x - 0.4)%Q, y)) as [(n3 & -> & _)| ->];
    [|right; reflexivity].
  destruct (face_node_Ok_or_IndexError cell 3 ((x + 0.4)%Q, y)) as [(n4 & -> & _)| ->];
    [|right; reflexivity].
  left. simpl. eauto.
Qed.

Lemma cell_nodes_short cell :
  Z.abs (fst (pos cell)) <= 2 ^ 40 -> Z.abs (snd (pos cell)) <= 2 ^ 40 ->
  type cell = 3 -> (length (detailed_information cell) < 4)%nat ->
  cell_nodes cell = Raise IndexError.
Proof.
  intros Hx Hy Ht Hl. rewrite (cell_nodes_small cell Hx Hy). cbv zeta.
  set (x := inject_Z (fst (pos cell))). set (y := inject_Z (snd (pos cell))).
  destruct (face_node_Ok_or_IndexError cell 0 (x, (y - 0.4)%Q)) as [(n1 & -> & _)| ->];
    [|reflexivity].
  destruct (face_node_Ok_or_IndexError cell 1 (x, (y + 0.4)%Q)) as [(n2 & -> & _)| ->];
    [|reflexivity].
  destruct (face_node_Ok_or_IndexError cell 2 ((x - 0.4)%Q, y)) as [(n3 & -> & _)| ->];
    [|reflexivity].
  rewrite (face_node_short cell 3) by (assumption || lia). reflexivity.
Qed.

Lemma small_coordinates_cons (c : Block) (bl : list Block) :
  small_coordinates (c :: bl) ->
  (Z.abs (fst (pos c)) <= 2 ^ 40 /\ Z.abs (snd (pos c)) <= 2 ^ 40) /\
  small_coordinates bl.
Proof.
  intros H. split; [apply H; now left|]. intros b Hb. apply H. now right.
Qed.

Lemma sail_nodes_ok (bl : list Block) :
  small_coordinates bl ->
  Forall (fun c => type c = 3 -> (4 <= length (detailed_information c))%nat) bl ->
  exists nodes, sail_nodes bl = Ok nodes.
Proof.
  intros Hs Hwf. induction Hwf as [|c bl Hc _ IH]; simpl; [eauto|].
  apply small_coordinates_cons in Hs. destruct Hs as [[Hx Hy] Hs].
  destruct (cell_nodes_ok c Hx Hy Hc) as [ns ->]. destruct (IH Hs) as [more ->].
  simpl. eauto.
Qed.

Lemma sail_nodes_Ok_or_IndexError (bl : list Block) :
  small_coordinates bl ->
  (exists nodes, sail_nodes bl = Ok nodes) \/ sail_nodes bl = Raise IndexError.
Proof.
  induction bl as [|c bl IH]; intros Hs; simpl; [eauto|].
  apply small_coordinates_cons in Hs. destruct Hs as [[Hx Hy] Hs].
  destruct (cell_nodes_Ok_or_IndexError c Hx Hy) as [[ns ->]| ->];
    [|right; reflexivity].
  destruct (IH Hs) as [[more ->]| ->]; simpl; eauto.
Qed.

Lemma sail_nodes_short (bl : list Block) :
  small_coordinates bl ->
  Exists (fun c => type c = 3 /\ (length (detailed_information c) < 4)%nat) bl ->
  sail_nodes bl = Raise IndexError.
Proof.
  intros Hs Hex. induction Hex as [c bl [Ht Hl]|c bl _ IH]; simpl;
    apply small_coordinates_cons in Hs; destruct Hs as [[Hx Hy] Hs].
  - rewrite (cell_nodes_short c Hx Hy Ht Hl). reflexivity.
  - destruct (cell_nodes_Ok_or_IndexError c Hx Hy) as [[ns ->]| ->]; [|reflexivity].
    rewrite (IH Hs). reflexivity.
Qed.

Lemma node_is_small_intro (a b : Q) :
  (Qabs a <= inject_Z (2 ^ 40 + 1))%Q -> (Qabs b <= inject_Z (2 ^ 40 + 1))%Q ->
  node_is_small (a, b) = true.
Proof.
  intros Ha Hb. unfold node_is_small. simpl.
  apply Qle_bool_iff in Ha. apply Qle_bool_iff in Hb. rewrite Ha, Hb. reflexivity.
Qed.

Lemma small_offsets (z : Z) :
  Z.abs z <= 2 ^ 40 ->
  (Qabs (inject_Z z) <= inject_Z (2 ^ 40 + 1))%Q /\
  (Qabs (inject_Z z - 0.4) <= inject_Z (2 ^ 40 + 1))%Q /\
  (Qabs (inject_Z z + 0.4) <= inject_Z (2 ^ 40 + 1))%Q.
Proof.
  intros H. unfold Qle, Qabs, Qminus, Qplus, Qopp, inject_Z. cbn [Qnum Qden].
  repeat split; lia.
Qed.

(** The nodes of cells at small coordinates are small. *)
Lemma cell_nodes_are_small cell ns :
  Z.abs (fst (pos cell)) <= 2 ^ 40 -> Z.abs (snd (pos cell)) <= 2 ^ 40 ->
  cell_nodes cell = Ok ns -> forallb node_is_small ns = true.
Proof.
  intros Hx Hy. rewrite (cell_nodes_small cell Hx Hy). cbv zeta.
  destruct (small_offsets _ Hx) as (X0 & X1 & X2).
  destruct (small_offsets _ Hy) as (Y0 & Y1 & Y2).
  set (x := inject_Z (fst (pos cell))) in *.
  set (y := inject_Z (snd (pos cell))) in *.
  assert (H0 : forallb node_is_small
                 (if type cell =? 2 then [node_of_pos (pos cell)] else []) = true).
  { destruct (type cell =? 2); [|reflexivity].
    change (node_of_pos (pos cell)) with (x, y). cbn [forallb].
    rewrite (node_is_small_intro _ _ X0 Y0). reflexivity. }
  assert (Hface : forall k (n : Q * Q) ns',
             node_is_small n = true ->
             face_node cell k (Ok n) = Ok ns' -> forallb node_is_small ns' = true).
  { intros k n ns' Hn Hf.
    destruct (face_node_Ok_or_IndexError cell k n) as [(l & E & Hl)|E];
      rewrite E in Hf; [|discriminate].
    injection Hf as <-. destruct Hl as [-> | ->]; simpl; [reflexivity|].
    rewrite Hn. reflexivity. }
  intros H.
  apply bind_Ok in H. destruct H as (n1 & E1 & H).
  apply bind_Ok in H. destruct H as (n2 & E2 & H).
  apply bind_Ok in H. destruct H as (n3 & E3 & H).
  apply bind_Ok in H. destruct H as (n4 & E4 & H).
  injection H as <-. rewrite !forallb_app, H0.
  rewrite (Hface _ _ _ (node_is_small_intro _ _ X0 Y1) E1).
  rewrite (Hface _ _ _ (node_is_small_intro _ _ X0 Y2) E2).
  rewrite (Hface _ _ _ (node_is_small_intro _ _ X1 Y0) E3).
  rewrite (Hface _ _ _ (node_is_small_intro _ _ X2 Y0) E4).
  reflexivity.
Qed.

Lemma sail_nodes_are_small (bl : list Block) (nodes : list Node) :
  small_coordinates bl -> sail_nodes bl = Ok nodes ->
  distances_followed nodes = true.
Proof.
  intros Hs H. unfold distances_followed.
  enough (forallb node_is_small nodes = true) as -> by apply orb_true_r.
  revert nodes H. induction bl as [|c bl IH]; simpl; intros nodes H.
  - injection H as <-. reflexivity.
  - apply small_coordinates_cons in Hs. destruct Hs as [[Hx Hy] Hs].
    apply bind_Ok in H. destruct H as (ns & E1 & H).
    apply bind_Ok in H. destruct H as (more & E2 & H). injection H as <-.
    rewrite forallb_app, (cell_nodes_are_small c ns Hx Hy E1), (IH Hs more E2).
    reflexivity.
Qed.

Lemma node_eqb_refl (n : Node) : node_eqb n n = true.
Proof. unfold node_eqb. rewrite !Qeq_bool_refl. reflexivity. Qed.

Lemma node_mem_snoc (n c : Node) (v : list Node) :
  node_mem n (v ++ [c]) = node_mem n v || node_eqb n c.
Proof. unfold node_mem. rewrite existsb_app. simpl. rewrite orb_false_r. reflexivity. Qed.

Lemma count_unvisited_le (v nodes : list Node) :
  (count_unvisited v nodes <= length nodes)%nat.
Proof.
  induction nodes as [|n nodes IH]; simpl; [lia|].
  destruct (node_mem n v); lia.
Qed.

Lemma count_unvisited_mono (v nodes : list Node) (c : Node) :
  (count_unvisited (v ++ [c]) nodes <= count_unvisited v nodes)%nat.
Proof.
  induction nodes as [|n nodes IH]; simpl; [lia|].
  rewrite node_mem_snoc. destruct (node_mem n v), (node_eqb n c); simpl; lia.
Qed.

Lemma count_unvisited_strict (v nodes : list Node) (c : Node) :
  In c nodes -> node_mem c v = false ->
  (count_unvisited (v ++ [c]) nodes < count_unvisited v nodes)%nat.
Proof.
  intros Hin Hc. induction nodes as [|n nodes IH]; [destruct Hin|].
  simpl. rewrite node_mem_snoc. destruct Hin as [->|Hin].
  - rewrite Hc, node_eqb_refl. simpl.
    pose proof (count_unvisited_mono v nodes c). lia.
  - specialize (IH Hin).
    destruct (node_mem n v), (node_eqb n c); simpl; lia.
Qed.

Lemma length_flat_map_le {A B} (f : A -> list B) (l : list A) (bound : nat) :
  (forall x, (length (f x) <= bound)%nat) ->
  (length (flat_map f l) <= length l * bound)%nat.
Proof.
  intros H. induction l as [|a l IH]; simpl; [lia|].
  rewrite length_app. specialize (H a). lia.
Qed.

Lemma adjacency_length (nodes : list Node) (key : Node) :
  (length (adjacency nodes key) <= length nodes * length nodes)%nat.
Proof.
  unfold adjacency. apply length_flat_map_le. intros point.
  destruct (node_eqb point key); [apply length_filter | simpl; lia].
Qed.

Lemma adjacency_In (nodes : list Node) (key n : Node) :
  In n (adjacency nodes key) -> In n nodes.
Proof.
  unfold adjacency. rewrite in_flat_map. intros (point & _ & Hn).
  destruct (node_eqb point key); [|destruct Hn].
  apply list_elem_of_In in Hn. apply list_elem_of_filter in Hn as [_ Hn].
  apply list_elem_of_In. exact Hn.
Qed.

(** The loop of [_check_sail] ends within [sail_measure] iterations. *)
Lemma sail_bfs_terminates (nodes : list Node) (fuel : nat) :
  forall visited queue,
    Forall (fun q => In q nodes) queue ->
    (sail_measure nodes visited queue <= fuel)%nat ->
    exists v, sail_bfs fuel nodes visited queue = Some v.
Proof.
  induction fuel as [|fuel IH]; intros visited queue Hq Hm.
  - destruct queue as [|c rest]; [simpl; eauto|].
    unfold sail_measure in Hm. simpl in Hm. lia.
  - destruct queue as [|current rest]; [simpl; eauto|].
    simpl. inversion Hq as [|? ? Hc Hrest]; subst.
    destruct (node_mem current visited) eqn:Hv; simpl.
    + apply IH; [exact Hrest|]. unfold sail_measure in *. simpl in Hm. lia.
    + apply IH.
      * apply Forall_app. split; [exact Hrest|].
        apply Forall_forall. intros n Hn.
        apply list_elem_of_filter in Hn as [_ Hn].
        apply list_elem_of_In in Hn. apply (adjacency_In nodes current n Hn).
      * unfold sail_measure in *. simpl in Hm. rewrite length_app.
        pose proof (count_unvisited_strict visited nodes current Hc Hv) as Hs.
        pose proof (adjacency_length nodes current) as Ha.
        pose proof (length_filter
                      (fun n => node_mem n (visited ++ [current]) = false)
                      (adjacency nodes current)) as Hf.
        nia.
Qed.

Lemma sail_fuel_enough (nodes : list Node) (first : Node) :
  In first nodes ->
  exists v, sail_bfs (sail_fuel nodes) nodes [] [first] = Some v.
Proof.
  intros Hin. apply sail_bfs_terminates.
  - constructor; [exact Hin | constructor].
  - unfold sail_measure, sail_fuel. simpl.
    pose proof (count_unvisited_le [] nodes). nia.
Qed.

(** The traversal of [_check_sail] returns once the nodes are built from
    cells at small coordinates. *)
Lemma check_sail_returns_on_nodes (bs : BlockSet) (nodes : list Node) :
  small_coordinates (blocks bs) -> sail_nodes (blocks bs) = Ok nodes ->
  exists b, _check_sail bs = Ok b.
Proof.
  intros Hs Hn. rewrite (check_sail_of_nodes bs nodes Hn).
  rewrite (sail_nodes_are_small _ _ Hs Hn).
  destruct (length nodes <? 2)%nat eqn:E; [eauto|]. cbn [negb].
  destruct nodes as [|first rest]; [discriminate|].
  destruct (sail_fuel_enough (first :: rest) first) as [v Hv];
    [left; reflexivity|].
  rewrite Hv. eauto.
Qed.

(** C10 as amended.  On a grid whose cells lie at coordinates of magnitude
    at most [2 ^ 40]: when every pyramid (type 3) cell has at least four face
    entries, [_check_sail] returns a boolean (no index is out of range, no
    float operation overflows and the traversal ends within its fuel); when
    some pyramid cell has fewer than four, it raises [IndexError]. *)
Theorem C10_sail_evaluation (bs : BlockSet) :
  small_coordinates (blocks bs) ->
  (Forall (fun c => type c = 3 -> (4 <= length (detailed_information c))%nat)
          (blocks bs) ->
   exists b, _check_sail bs = Ok b) /\
  (Exists (fun c => type c = 3 /\ (length (detailed_information c) < 4)%nat)
          (blocks bs) ->
   _check_sail bs = Raise IndexError).
Proof.
  intros Hs. split.
  - intros Hwf. destruct (sail_nodes_ok (blocks bs) Hs Hwf) as [nodes Hn].
    exact (check_sail_returns_on_nodes bs nodes Hs Hn).
  - intros Hshort. unfold _check_sail.
    rewrite (sail_nodes_short (blocks bs) Hs Hshort). reflexivity.
Qed.

Lemma small_coordinates_intro (bl : list Block) :
  forallb (fun b => (Z.abs (fst (pos b)) <=? 2 ^ 40) &&
                    (Z.abs (snd (pos b)) <=? 2 ^ 40)) bl = true ->
  small_coordinates bl.
Proof.
  rewrite forallb_forall. intros H b Hb. specialize (H b Hb).
  apply andb_true_iff in H. destruct H as [H1 H2].
  apply Z.leb_le in H1. apply Z.leb_le in H2. auto.
Qed.

(** A chain of two pyramids between two colour-B cells is evaluated; a
    pyramid with three face entries makes the evaluation raise. *)
Lemma C10_sail_examples :
  (exists b, _check_sail (grid_of [solid 2 (0, 0); pyramid (1, 0) [0; 0; 2; 2];
                                   pyramid (2, 0) [0; 0; 2; 2]; solid 2 (3, 0)])
             = Ok b) /\
  _check_sail (grid_of [solid 2 (0, 0); pyramid (1, 0) [0; 0; 2]]) = Raise IndexError.
Proof.
  split.
  - refine (proj1 (C10_sail_evaluation
                     (grid_of [solid 2 (0, 0); pyramid (1, 0) [0; 0; 2; 2];
                               pyramid (2, 0) [0; 0; 2; 2]; solid 2 (3, 0)]) _) _).
    + apply small_coordinates_intro. reflexivity.
    + simpl. repeat constructor; simpl; intros; lia.
  - refine (proj2 (C10_sail_evaluation
                     (grid_of [solid 2 (0, 0); pyramid (1, 0) [0; 0; 2]]) _) _).
    + apply small_coordinates_intro. reflexivity.
    + simpl. right. left. split; [reflexivity | simpl; lia].
Defined.

(** C10, the claim as stated fails: the precondition on the face entries
    does not make the evaluation total.  A pyramid with four face entries
    whose cell lies at [y = 2 ^ 1024] has a colour-B top face, and computing
    the node [y - 0.4] raises [OverflowError]. *)
Lemma C10_sail_overflows_on_a_well_formed_grid :
  let bs := grid_of [pyramid (0, 2 ^ 1024) [2; 0; 0; 0]] in
  Forall (fun c => type c = 3 -> (4 <= length (detailed_information c))%nat)
         (blocks bs) /\
  _check_sail bs = Raise OverflowError.
Proof.
  split.
  - constructor; [intros _; simpl; lia | constructor].
  - vm_compute. reflexivity.
Qed.

(** ** The session: shape of the state after each method *)

Lemma lookup_map {A B} (f : A -> B) (l : list A) (i : nat) :
  map f l !! i = f <$> (l !! i).
Proof. exact (list_lookup_fmap f l i). Qed.

Lemma save_state_shape (g : Game) :
  exists h i, _save_state g = with_history h i g.
Proof. unfold _save_state. destruct (20 <? length _)%nat; eauto. Qed.

Lemma fire_selection_change_shape (g : Game) :
  exists h i, fire_selection_change g = with_history h i g.
Proof.
  unfold fire_selection_change. destruct (on_selection_change _).
  - apply save_state_shape.
  - exists (history g), (history_index g). destruct g; reflexivity.
Qed.

Section FoldAlter.

Variable f : Block -> Block.

Lemma fold_alter_length (sel : list nat) (bl : list Block) :
  length (fold_left (fun bl i => alter f i bl) sel bl) = length bl.
Proof.
  revert bl. induction sel as [|r sel IH]; intros bl; simpl; [reflexivity|].
  rewrite IH. apply length_alter.
Qed.

Lemma fold_alter_lookup_notin (sel : list nat) (bl : list Block) (i : nat) :
  ~ In i sel -> fold_left (fun bl i => alter f i bl) sel bl !! i = bl !! i.
Proof.
  revert bl. induction sel as [|r sel IH]; intros bl Hn; simpl; [reflexivity|].
  rewrite IH by (intros H; apply Hn; right; exact H).
  apply list_lookup_alter_ne. intros ->. apply Hn. left. reflexivity.
Qed.

Hypothesis f_idempotent : forall b, f (f b) = f b.

Lemma fold_alter_lookup_fixed (sel : list nat) (bl : list Block) (i : nat) (b : Block) :
  bl !! i = Some (f b) ->
  fold_left (fun bl i => alter f i bl) sel bl !! i = Some (f b).
Proof.
  revert bl. induction sel as [|r sel IH]; intros bl Hb; simpl; [exact Hb|].
  apply IH. destruct (decide (r = i)) as [->|Hne].
  - rewrite list_lookup_alter_eq, Hb. simpl. rewrite f_idempotent. reflexivity.
  - rewrite list_lookup_alter_ne by exact Hne. exact Hb.
Qed.

Lemma fold_alter_lookup_in (sel : list nat) (bl : list Block) (i : nat) :
  In i sel -> fold_left (fun bl i => alter f i bl) sel bl !! i = f <$> (bl !! i).
Proof.
  revert bl. induction sel as [|r sel IH]; intros bl Hin; [destruct Hin|].
  simpl. destruct (decide (r = i)) as [->|Hne].
  - destruct (bl !! i) as [b|] eqn:Hb.
    + apply fold_alter_lookup_fixed.
      rewrite list_lookup_alter_eq, Hb. reflexivity.
    + simpl. apply lookup_ge_None. rewrite fold_alter_length.
      rewrite length_alter. apply lookup_ge_None. exact Hb.
  - destruct Hin as [->|Hin]; [congruence|].
    rewrite IH by exact Hin. rewrite list_lookup_alter_ne by exact Hne.
    reflexivity.
Qed.

End FoldAlter.

(** [Game._reset_level], field by field. *)
Lemma reset_level_fields (g : Game) :
  let g' := _reset_level g in
  blocks (current_blockset g') =
    fold_left (fun bl i => alter (set_selected false) i bl)
              (selected_blocks (current_blockset g))
              (map reset_position (blocks (current_blockset g))) /\
  selected_blocks (current_blockset g') = [] /\
  on_selection_change (current_blockset g') =
    on_selection_change (current_blockset g) /\
  history g' = [] /\ history_index g' = -1 /\
  selection_confirmed g' = false /\ failed_constraints g' = [] /\
  current_state g' = current_state g /\ constraints g' = constraints g /\
  layout g' = layout g.
Proof.
  unfold _reset_level, clear_selection.
  match goal with
  | |- context [fire_selection_change ?x] =>
    destruct (fire_selection_change_shape x) as (h & i & ->)
  end.
  simpl. repeat split; reflexivity.
Qed.

Lemma reset_level_positions (g : Game) (b : Block) :
  In b (blocks (current_blockset (_reset_level g))) -> pos b = original_pos b.
Proof.
  destruct (reset_level_fields g) as (Hb & _). rewrite Hb. clear Hb. intros Hin.
  apply list_elem_of_In, list_elem_of_lookup in Hin as [i Hi].
  set (sel := selected_blocks (current_blockset g)) in *.
  set (bl := map reset_position (blocks (current_blockset g))) in *.
  assert (exists b0, bl !! i = Some b0 /\
                     (b = b0 \/ b = set_selected false b0)) as (b0 & Hb0 & Hor).
  { destruct (in_dec Nat.eq_dec i sel) as [Hin|Hnot].
    - rewrite fold_alter_lookup_in in Hi by (auto || exact Hin).
      destruct (bl !! i) as [b0|]; [|discriminate].
      injection Hi as <-. eauto.
    - rewrite fold_alter_lookup_notin in Hi by exact Hnot. eauto. }
  unfold bl in Hb0. rewrite lookup_map in Hb0.
  destruct (blocks (current_blockset g) !! i) as [b1|]; [|discriminate].
  injection Hb0 as <-. destruct Hor as [-> | ->]; reflexivity.
Qed.

Lemma reset_level_flags (g : Game) (i : nat) (b : Block) :
  In i (selected_blocks (current_blockset g)) ->
  blocks (current_blockset (_reset_level g)) !! i = Some b -> selected b = false.
Proof.
  destruct (reset_level_fields g) as (Hb & _). rewrite Hb. clear Hb. intros Hin Hi.
  rewrite fold_alter_lookup_in in Hi by (auto || exact Hin).
  destruct (map reset_position _ !! i) as [b0|]; [|discriminate].
  injection Hi as <-. reflexivity.
Qed.

Lemma moved_only_refl sel bl : moved_only sel bl bl.
Proof. split; [reflexivity|]. intros i b Hb. exists b. auto. Qed.

Lemma moved_only_trans sel bl1 bl2 bl3 :
  moved_only sel bl1 bl2 -> moved_only sel bl2 bl3 -> moved_only sel bl1 bl3.
Proof.
  intros [L1 H1] [L2 H2]. split; [congruence|]. intros i b3 Hb3.
  destruct (H2 i b3 Hb3) as (b2 & Hb2 & T2 & O2 & E2).
  destruct (H1 i b2 Hb2) as (b1 & Hb1 & T1 & O1 & E1).
  exists b1. repeat split; [assumption | congruence | congruence |].
  intros Hn. rewrite (E2 Hn). apply E1, Hn.
Qed.

Lemma moved_only_alter sel bl r (f : Block -> Block) :
  In r sel ->
  (forall b, type (f b) = type b /\ original_pos (f b) = original_pos b) ->
  moved_only sel bl (alter f r bl).
Proof.
  intros Hr Hf. split; [apply length_alter|]. intros i b' Hb'.
  destruct (decide (r = i)) as [->|Hne].
  - rewrite list_lookup_alter_eq in Hb'. destruct (bl !! i) as [b|]; [|discriminate].
    injection Hb' as <-. exists b. destruct (Hf b) as [Ht Ho].
    repeat split; [assumption..|]. intros Hn. contradiction.
  - rewrite list_lookup_alter_ne in Hb' by exact Hne. exists b'. auto.
Qed.

Lemma restore_positions_moved sel orig :
  forall sel' i bl bl',
    (forall r, In r sel' -> In r sel) ->
    restore_positions_from orig i sel' bl = Ok bl' -> moved_only sel bl bl'.
Proof.
  induction sel' as [|r sel' IH]; intros i bl bl' Hsub H; simpl in H.
  - injection H as <-. apply moved_only_refl.
  - apply bind_Ok in H as (p & _ & H).
    eapply moved_only_trans; [|eapply IH; [|exact H]].
    + apply moved_only_alter; [apply Hsub; left; reflexivity|].
      intros b. split; reflexivity.
    + intros r' Hr'. apply Hsub. right. exact Hr'.
Qed.

Lemma apply_drag_moved sel d colors is_valid :
  forall sel' i bl bl',
    (forall r, In r sel' -> In r sel) ->
    apply_drag_from d colors is_valid i sel' bl = Ok bl' -> moved_only sel bl bl'.
Proof.
  induction sel' as [|r sel' IH]; intros i bl bl' Hsub H; simpl in H.
  - injection H as <-. apply moved_only_refl.
  - assert (Hsub' : forall r', In r' sel' -> In r' sel)
      by (intros r' Hr'; apply Hsub; right; exact Hr').
    destruct (colors !! i) as [c|]; [|eapply IH; eassumption].
    apply bind_Ok in H as (p & _ & H).
    eapply moved_only_trans; [|eapply IH; [exact Hsub'|exact H]].
    apply moved_only_alter; [apply Hsub; left; reflexivity|].
    intros b. split; reflexivity.
Qed.

Lemma with_blocks_twice bl1 bl2 g :
  with_blocks bl2 (with_blocks bl1 g) = with_blocks bl2 g.
Proof. reflexivity. Qed.

Lemma with_blocks_same g : with_blocks (blocks (current_blockset g)) g = g.
Proof. destruct g as [[bl sel cb] ? ? ? ? ? ? ? ? ?]. reflexivity. Qed.

(** [end_drag] in the moving phase: it replaces the drag attributes and may
    move, recolour and unflag cells of the selected set; nothing else. *)
Lemma end_drag_shape (mouse : Pos) (g g1 : Game) :
  selection_confirmed g = true ->
  end_drag mouse g = Ok g1 ->
  exists bl d,
    g1 = with_drag d (with_blocks bl g) /\
    moved_only (selected_blocks (current_blockset g))
               (blocks (current_blockset g)) bl.
Proof.
  intros Hconf H. unfold end_drag in H.
  apply bind_Ok in H as ([is_valid off] & _ & H).
  rewrite Hconf in H. rewrite !andb_false_r in H.
  apply bind_Ok in H as (gm & Hgm & H).
  assert (exists bl1, gm = with_blocks bl1 g /\
                      moved_only (selected_blocks (current_blockset g))
                                 (blocks (current_blockset g)) bl1)
    as (bl1 & -> & Hm1).
  { destruct (negb is_valid).
    - apply bind_Ok in Hgm as (bl1 & Hbl1 & Hgm). injection Hgm as <-.
      exists bl1. split; [reflexivity|].
      eapply restore_positions_moved; [|exact Hbl1]. auto.
    - injection Hgm as <-. exists (blocks (current_blockset g)).
      split; [symmetry; apply with_blocks_same | apply moved_only_refl]. }
  apply bind_Ok in H as (is_valid2 & _ & H).
  apply bind_Ok in H as (bl2 & Hbl2 & H). injection H as <-.
  exists bl2. eexists. split; [reflexivity|].
  eapply moved_only_trans; [exact Hm1|].
  simpl in Hbl2.
  destruct (selected_blocks (current_blockset g)) as [|r sel] eqn:Hsel.
  - injection Hbl2 as <-. apply moved_only_refl.
  - destruct (original_colors (drag g)) as [colors|].
    + eapply apply_drag_moved; [|exact Hbl2]. auto.
    + injection Hbl2 as <-. apply moved_only_refl.
Qed.

(** ** C6: a drag that ends on a failing evaluation *)

(** The names reported are those whose entry of [results] is false. *)
Lemma failed_names_spec (results : Results) (name : string) :
  In name (failed_names results) <-> In (name, false) results.
Proof.
  unfold failed_names. rewrite in_map_iff. split.
  - intros ([k v] & <- & Hin). apply list_elem_of_In in Hin.
    apply list_elem_of_filter in Hin as [Hv Hin]. simpl in *. subst v.
    apply list_elem_of_In. exact Hin.
  - intros Hin. exists (name, false). split; [reflexivity|].
    apply list_elem_of_In, list_elem_of_filter. split; [reflexivity|].
    apply list_elem_of_In. exact Hin.
Qed.

(** C6.  In the moving phase, when the drag ends and the movement-stage
    evaluation of the required constraints has a failing entry, releasing the
    mouse leaves every cell at its original position, the selected set empty
    (its former members unflagged), the history empty with cursor -1, the
    session unconfirmed on the level screen, and [failed_constraints] equal
    to the list of names whose evaluation was false. *)
Theorem C6_failed_move_reverts (mouse : Pos) (g g1 : Game) (results : Results) :
  current_state g = "in_level_chooseblock" ->
  dragging (drag g) = true ->
  selection_confirmed g = true ->
  end_drag mouse g = Ok g1 ->
  check_constraints (current_blockset g1) (constraints g) Movement = Ok results ->
  failed_names results <> [] ->
  exists g',
    _handle_mouse_up mouse g = Ok g' /\
    (forall b, In b (blocks (current_blockset g')) -> pos b = original_pos b) /\
    selected_blocks (current_blockset g') = [] /\
    (forall i b, In i (selected_blocks (current_blockset g)) ->
                 blocks (current_blockset g') !! i = Some b -> selected b = false) /\
    history g' = [] /\ history_index g' = -1 /\
    selection_confirmed g' = false /\
    current_state g' = "in_level_chooseblock" /\
    failed_constraints g' = failed_names results /\
    (forall name, In name (failed_constraints g') <-> In (name, false) results).
Proof.
  intros Hst Hdrag Hconf Hend Hcheck Hfail.
  destruct (end_drag_shape mouse g g1 Hconf Hend) as (bl & d & -> & _).
  unfold _handle_mouse_up. rewrite Hst, String.eqb_refl, Hdrag, Hend. fields.
  rewrite Hconf. fields in Hcheck. rewrite Hcheck. fields.
  destruct (failed_names results) as [|n ns] eqn:Hf; [congruence|].
  rewrite <- Hf.
  match goal with
  | |- context [_reset_level ?x] =>
    pose proof (reset_level_positions x) as Hpos;
    pose proof (reset_level_flags x) as Hflags;
    destruct (reset_level_fields x)
      as (_ & Hsel & _ & Hh & Hi & Hc & _ & Hs & _ & _);
    fields in Hflags; fields in Hs;
    generalize dependent (_reset_level x)
  end.
  intros R Hpos Hflags Hsel Hh Hi Hc Hs.
  eexists. split; [reflexivity|]. fields.
  split; [exact Hpos|]. split; [exact Hsel|]. split; [exact Hflags|].
  split; [exact Hh|]. split; [exact Hi|]. split; [exact Hc|].
  split; [exact (eq_trans Hs Hst)|]. split; [reflexivity|].
  intros name. exact (failed_names_spec results name).
Qed.

(** A level of three colour-A cells with [glue] and [mirror] required: the
    first two are selected and confirmed, a drag starts and ends in place,
    and [mirror] fails on the unchanged layout. *)
Lemma C6_failed_move_example :
  let level := _load_level [solid 1 (0, 0); solid 1 (1, 0); solid 1 (2, 1)]
                           ["glue"; "mirror"] example_layout in
  let g := start_drag (5, 5)
             (_confirm_selection
                (with_selection_confirmed true
                   (select_block 1 (select_block 0 level)))) in
  exists g', _handle_mouse_up (5, 5) g = Ok g' /\
             failed_constraints g' = ["mirror"] /\
             selected_blocks (current_blockset g') = [] /\
             history g' = [].
Proof.
  intros level g.
  edestruct (C6_failed_move_reverts (5, 5) g) as (g' & Hup & _ & Hsel & _ & Hh & _ & _ & _ & Hf & _).
  - reflexivity.
  - reflexivity.
  - reflexivity.
  - vm_compute. reflexivity.
  - vm_compute. reflexivity.
  - vm_compute. discriminate.
  - exists g'. split; [exact Hup|]. split; [exact Hf|]. split; [exact Hsel | exact Hh].
Defined.

(** ** C4: undo and redo around a confirmed selection *)

Lemma handle_action_reset g : _handle_action "reset" g = Ok (_reset_level g).
Proof. reflexivity. Qed.

Lemma handle_action_undo g : _handle_action "undo" g = _undo g.
Proof. reflexivity. Qed.

Lemma handle_action_redo g : _handle_action "redo" g = _redo g.
Proof. reflexivity. Qed.

Lemma handle_action_confirm g : _handle_action "confirm" g = Ok (_confirm_selection g).
Proof. reflexivity. Qed.

Lemma handle_action_back g :
  _handle_action "back_to_levels" g = Ok (with_current_state "choose_level" g).
Proof. reflexivity. Qed.

Lemma handle_action_reselection g : _handle_action "reselection" g = Ok g.
Proof. reflexivity. Qed.

Lemma handle_click_confirm_passes g results :
  current_state g = "in_level_chooseblock" ->
  check_constraints (current_blockset g) (constraints g) Selection = Ok results ->
  failed_names results = [] ->
  handle_click (Some "confirm") g =
  Ok (with_failed_constraints [] (with_selection_confirmed true g), Some "confirm").
Proof.
  intros Hst Hc Hf. unfold handle_click.
  rewrite Hst, !String.eqb_refl, Hc. fields. rewrite Hf. reflexivity.
Qed.

Lemma handle_click_other_button g name :
  current_state g = "in_level_chooseblock" ->
  String.eqb name "confirm" = false ->
  handle_click (Some name) g = Ok (g, Some name).
Proof.
  intros Hst Hn. unfold handle_click. rewrite Hst, String.eqb_refl, Hn. reflexivity.
Qed.

Lemma mouse_down_on_button name p g g1 action :
  current_state g = "in_level_chooseblock" ->
  handle_click (Some name) g = Ok (g1, Some action) ->
  _handle_mouse_down (Some name) p g = _handle_action action g1.
Proof.
  intros Hst Hc. unfold _handle_mouse_down.
  rewrite Hst, String.eqb_refl, Hc. reflexivity.
Qed.

Lemma same_block_refl (bl : list Block) (i : nat) : same_block bl i i = true.
Proof. unfold same_block. rewrite Nat.eqb_refl. reflexivity. Qed.

Lemma same_block_distinct (bl : list Block) (i j : nat) (bi : Block) :
  distinct_blocks bl -> bl !! i = Some bi ->
  same_block bl i j = true -> j = i.
Proof.
  intros Hd Hi. unfold same_block. rewrite Hi.
  destruct (Nat.eqb_spec j i) as [->|Hne]; [reflexivity|]. simpl.
  destruct (bl !! j) as [bj|] eqn:Hj; [|discriminate].
  intros E. apply (Hd j i bj bi Hj Hi E).
Qed.

Lemma filter_all {A} (P : A -> Prop) `{forall x, Decision (P x)} (l : list A) :
  (forall x, In x l -> P x) -> filter P l = l.
Proof.
  induction l as [|a l IH]; intros Hall; [reflexivity|].
  rewrite filter_cons_True by (apply Hall; left; reflexivity).
  rewrite IH; [reflexivity|]. intros x Hx. apply Hall. right. exact Hx.
Qed.

Lemma alter_fixed (f : Block -> Block) (bl : list Block) (i : nat) (b : Block) :
  bl !! i = Some b -> f b = b -> alter f i bl = bl.
Proof.
  intros Hb Hf. apply list_eq. intros j. destruct (decide (i = j)) as [<-|Hne].
  - rewrite list_lookup_alter_eq, Hb. simpl. rewrite Hf. reflexivity.
  - apply list_lookup_alter_ne. exact Hne.
Qed.

(** Restoring a cell to the position and flag it already has changes
    nothing. *)
Lemma restore_block_same (bs : BlockSet) (i : nat) (b : Block) :
  flags_agree bs -> distinct_blocks (blocks bs) ->
  blocks bs !! i = Some b ->
  restore_block bs i (pos b, selected b) = bs.
Proof.
  intros Hag Hd Hb. unfold restore_block.
  assert ((i <? length (blocks bs))%nat = true) as ->
    by (apply Nat.ltb_lt; eapply lookup_lt_Some; exact Hb).
  rewrite (alter_fixed _ (blocks bs) i b Hb) by (destruct b; reflexivity).
  destruct bs as [bl sel cb]. simpl in *. f_equal.
  destruct (selected b) eqn:Hs.
  - unfold set_add.
    assert (existsb (same_block bl i) sel = true) as ->; [|reflexivity].
    apply existsb_exists. exists i. split; [|apply same_block_refl].
    apply (Hag i b Hb). exact Hs.
  - unfold set_discard. apply filter_all. intros j Hj.
    destruct (same_block bl i j) eqn:E; [|reflexivity].
    apply (same_block_distinct bl i j b Hd Hb) in E. subst j.
    apply (Hag i b Hb) in Hj. simpl in Hj. congruence.
Qed.

Lemma restore_blocks_same_from (bs : BlockSet) :
  flags_agree bs -> distinct_blocks (blocks bs) ->
  forall k, restore_blocks bs k (drop k (snapshot_of bs)) = bs.
Proof.
  intros Hag Hd k.
  remember (length (blocks bs) - k)%nat as n eqn:Hn.
  revert k Hn. induction n as [|n IH]; intros k Hn.
  - rewrite drop_ge; [reflexivity|]. unfold snapshot_of. rewrite length_map. lia.
  - destruct (lookup_lt_is_Some_2 (blocks bs) k) as [b Hb]; [lia|].
    rewrite (drop_S _ (pos b, selected b) k)
      by (unfold snapshot_of; rewrite lookup_map, Hb; reflexivity).
    simpl. rewrite (restore_block_same bs k b Hag Hd Hb). apply IH. lia.
Qed.

Lemma restore_blocks_same (bs : BlockSet) :
  flags_agree bs -> distinct_blocks (blocks bs) ->
  restore_blocks bs 0 (snapshot_of bs) = bs.
Proof. intros Hag Hd. exact (restore_blocks_same_from bs Hag Hd 0). Qed.

Lemma with_blockset_same g : with_blockset (current_blockset g) g = g.
Proof. destruct g. reflexivity. Qed.

(** The two newest entries of the history after a snapshot taken with the
    cursor on an entry [e0]. *)
Lemma history_after_snapshot_on_entry (h : list Snapshot) (idx : Z) (e0 e : Snapshot) :
  0 <= idx -> h !! Z.to_nat idx = Some e0 ->
  exists m, let h' := pushed_history h idx e in
            length h' = S (S m) /\ h' !! m = Some e0 /\ h' !! S m = Some e.
Proof.
  intros Hidx He0. unfold pushed_history, py_slice_to.
  assert ((0 <=? idx + 1) = true) as -> by (apply Z.leb_le; lia).
  replace (Z.to_nat (idx + 1)) with (S (Z.to_nat idx)) by lia.
  set (n := Z.to_nat idx) in *. set (P := take (S n) h).
  assert (HlenP : length P = S n).
  { unfold P. rewrite length_take. apply lookup_lt_Some in He0. lia. }
  rewrite py_slice_last_snoc by lia. simpl.
  set (Q := py_slice_last P 19).
  assert (HlenQ : length Q = Nat.min (S n) 19).
  { unfold Q, py_slice_last. rewrite length_drop, HlenP. lia. }
  exists (length Q - 1)%nat. cbv zeta.
  split; [rewrite length_app; simpl; lia|]. split.
  - rewrite lookup_app_l by lia.
    assert (Hm : (S n - 19 + (length Q - 1) = n)%nat) by lia.
    revert Hm. generalize (length Q - 1)%nat as m. intros m Hm.
    unfold Q, py_slice_last. rewrite lookup_drop, HlenP, Hm.
    unfold P. rewrite lookup_take_lt by lia. exact He0.
  - replace (S (length Q - 1)) with (length Q + 0)%nat by lia.
    rewrite lookup_app_r by lia.
    replace (length Q + 0 - length Q)%nat with 0%nat by lia. reflexivity.
Qed.

Lemma save_state_eq (g : Game) :
  let h := pushed_history (history g) (history_index g)
                          (snapshot_of (current_blockset g), selection_confirmed g) in
  _save_state g = with_history h (Z.of_nat (length h) - 1) g.
Proof.
  unfold _save_state, snapshot_of, pushed_history.
  set (h := py_slice_to (history g) (history_index g + 1) ++ _).
  destruct (20 <? length h)%nat eqn:E; simpl.
  - reflexivity.
  - apply Nat.ltb_ge in E. rewrite py_slice_last_short by exact E. reflexivity.
Qed.

Lemma restore_state_same (g : Game) (c : bool) :
  flags_agree (current_blockset g) -> distinct_blocks (blocks (current_blockset g)) ->
  _restore_state (snapshot_of (current_blockset g), c) g =
  with_failed_constraints [] (with_selection_confirmed c g).
Proof.
  intros Hag Hd. unfold _restore_state.
  rewrite (restore_blocks_same _ Hag Hd), with_blockset_same. reflexivity.
Qed.

(** Undo onto an entry that records the grid as it is: only the cursor, the
    confirmed flag and the reported failures change. *)
Lemma undo_onto_same_grid (g : Game) (m : nat) (c : bool) :
  history_index g = Z.of_nat (S m) ->
  history g !! m = Some ((snapshot_of (current_blockset g), c) : Snapshot) ->
  flags_agree (current_blockset g) -> distinct_blocks (blocks (current_blockset g)) ->
  _undo g = Ok (with_failed_constraints []
                  (with_selection_confirmed false
                     (with_history (history g) (Z.of_nat m) g))).
Proof.
  intros Hi He Hag Hd. unfold _undo. rewrite Hi.
  assert ((0 <? Z.of_nat (S m)) = true) as -> by (apply Z.ltb_lt; lia).
  replace (Z.of_nat (S m) - 1) with (Z.of_nat m) by lia.
  fields. unfold py_getitem.
  assert ((0 <=? Z.of_nat m) = true) as -> by (apply Z.leb_le; lia).
  rewrite Nat2Z.id. unfold py_index. fields. rewrite He. fields.
  pose proof (restore_state_same (with_history (history g) (Z.of_nat m) g) c Hag Hd)
    as Hr.
  fields in Hr. rewrite Hr. reflexivity.
Qed.

(** Redo onto an entry that records the grid as it is. *)
Lemma redo_onto_same_grid (g : Game) (m : nat) (c : bool) :
  history_index g = Z.of_nat m ->
  history g !! S m = Some ((snapshot_of (current_blockset g), c) : Snapshot) ->
  flags_agree (current_blockset g) -> distinct_blocks (blocks (current_blockset g)) ->
  _redo g = Ok (with_failed_constraints []
                  (with_selection_confirmed false
                     (with_history (history g) (Z.of_nat (S m)) g))).
Proof.
  intros Hi He Hag Hd. unfold _redo. rewrite Hi.
  pose proof (lookup_lt_Some _ _ _ He) as Hlt.
  assert ((Z.of_nat m <? Z.of_nat (length (history g)) - 1) = true) as ->
    by (apply Z.ltb_lt; lia).
  replace (Z.of_nat m + 1) with (Z.of_nat (S m)) by lia.
  fields. unfold py_getitem.
  assert ((0 <=? Z.of_nat (S m)) = true) as -> by (apply Z.leb_le; lia).
  rewrite Nat2Z.id. unfold py_index. fields. rewrite He. fields.
  pose proof (restore_state_same (with_history (history g) (Z.of_nat (S m)) g) c Hag Hd)
    as Hr.
  fields in Hr. rewrite Hr. reflexivity.
Qed.

(** C4 as amended.  Take a session on the level screen whose selection is not
    empty and passes the selection-stage evaluation, whose flags and selected
    set agree, whose cells are pairwise distinct, and whose history cursor is
    on an entry recording the grid as it is.  Confirm makes the session
    confirmed; Undo then leaves it unconfirmed with the grid (positions,
    flags and selected set) as before Confirm; Redo then restores the grid
    of the confirmed snapshot and leaves the session unconfirmed. *)
Theorem C4_undo_redo_after_confirm (p : Pos) (g : Game) (c : bool) (results : Results) :
  current_state g = "in_level_chooseblock" ->
  selected_blocks (current_blockset g) <> [] ->
  check_constraints (current_blockset g) (constraints g) Selection = Ok results ->
  failed_names results = [] ->
  flags_agree (current_blockset g) ->
  distinct_blocks (blocks (current_blockset g)) ->
  0 <= history_index g ->
  history g !! Z.to_nat (history_index g)
  = Some ((snapshot_of (current_blockset g), c) : Snapshot) ->
  exists g1 g2 g3,
    _handle_mouse_down (Some "confirm") p g = Ok g1 /\
    selection_confirmed g1 = true /\
    current_blockset g1 = current_blockset g /\
    _handle_mouse_down (Some "undo") p g1 = Ok g2 /\
    selection_confirmed g2 = false /\
    current_blockset g2 = current_blockset g /\
    _handle_mouse_down (Some "redo") p g2 = Ok g3 /\
    selection_confirmed g3 = false /\
    current_blockset g3 = current_blockset g1.
Proof.
  intros Hst Hne Hcheck Hf Hag Hd Hidx He.
  pose proof (handle_click_confirm_passes g results Hst Hcheck Hf) as Hclick.
  set (ga := with_failed_constraints [] (with_selection_confirmed true g)) in *.
  set (gb := with_selection_confirmed true ga).
  destruct (history_after_snapshot_on_entry
              (history g) (history_index g) _
              (snapshot_of (current_blockset g), true) Hidx He)
    as (m & Hlen & Hm & HSm).
  cbv zeta in Hlen, Hm, HSm.
  assert (Hconfirm : _confirm_selection ga =
                     with_failed_constraints []
                       (with_history
                          (pushed_history (history g) (history_index g)
                                          (snapshot_of (current_blockset g), true))
                          (Z.of_nat (S m)) gb)).
  { unfold _confirm_selection. fold gb.
    change (current_blockset ga) with (current_blockset g).
    destruct (selected_blocks (current_blockset g)); [congruence|].
    rewrite (save_state_eq gb). cbv zeta.
    change (history gb) with (history g).
    change (history_index gb) with (history_index g).
    change (current_blockset gb) with (current_blockset g).
    change (selection_confirmed gb) with true.
    rewrite Hlen. f_equal. f_equal. lia. }
  revert Hlen Hm HSm Hconfirm.
  generalize (pushed_history (history g) (history_index g)
                             (snapshot_of (current_blockset g), true)).
  intros h Hlen Hm HSm Hconfirm.
  set (g1 := with_failed_constraints [] (with_history h (Z.of_nat (S m)) gb)) in *.
  set (g2 := with_failed_constraints []
               (with_selection_confirmed false
                  (with_history (history g1) (Z.of_nat m) g1))).
  set (g3 := with_failed_constraints []
               (with_selection_confirmed false
                  (with_history (history g2) (Z.of_nat (S m)) g2))).
  exists g1, g2, g3.
  split; [|split; [reflexivity|split; [reflexivity|]]].
  { rewrite (mouse_down_on_button _ p _ _ _ Hst Hclick), handle_action_confirm.
    rewrite Hconfirm. reflexivity. }
  split; [|split; [reflexivity|split; [reflexivity|]]].
  { rewrite (mouse_down_on_button "undo" p g1 g1 "undo" Hst
               (handle_click_other_button g1 "undo" Hst eq_refl)).
    rewrite handle_action_undo.
    apply (undo_onto_same_grid g1 m c eq_refl Hm Hag Hd). }
  split; [|split; reflexivity].
  rewrite (mouse_down_on_button "redo" p g2 g2 "redo" Hst
             (handle_click_other_button g2 "redo" Hst eq_refl)).
  rewrite handle_action_redo.
  apply (redo_onto_same_grid g2 m true eq_refl HSm Hag Hd).
Qed.

Lemma example_selecting_reached :
  (g1 ← _handle_mouse_down None (5, 5) example_level;
   _handle_mouse_down None (45, 5) g1) = Ok example_selecting.
Proof. vm_compute. reflexivity. Qed.

Lemma example_selecting_flags_agree : flags_agree (current_blockset example_selecting).
Proof.
  intros i b Hb. destruct i as [|[|[|i]]]; cbn in Hb;
    [injection Hb as <-..|discriminate]; cbn; intuition (discriminate || lia || auto).
Qed.

Lemma example_selecting_distinct :
  distinct_blocks (blocks (current_blockset example_selecting)).
Proof.
  intros i j bi bj Hi Hj.
  destruct i as [|[|[|i]]]; cbn in Hi; [injection Hi as <-..|discriminate];
    (destruct j as [|[|[|j]]]; cbn in Hj; [injection Hj as <-..|discriminate]);
    cbn; intros E; (reflexivity || discriminate).
Qed.

(** On the example session Confirm succeeds, Undo unconfirms it and leaves the
    grid alone, and Redo leaves it unconfirmed. *)
Lemma C4_undo_redo_example :
  exists g1 g2 g3,
    _handle_mouse_down (Some "confirm") (0, 0) example_selecting = Ok g1 /\
    selection_confirmed g1 = true /\
    _handle_mouse_down (Some "undo") (0, 0) g1 = Ok g2 /\
    selection_confirmed g2 = false /\
    current_blockset g2 = current_blockset example_selecting /\
    _handle_mouse_down (Some "redo") (0, 0) g2 = Ok g3 /\
    selection_confirmed g3 = false.
Proof.
  edestruct (C4_undo_redo_after_confirm (0, 0) example_selecting)
    as (g1 & g2 & g3 & H1 & C1 & _ & H2 & C2 & B2 & H3 & C3 & _).
  - reflexivity.
  - discriminate.
  - vm_compute. reflexivity.
  - reflexivity.
  - exact example_selecting_flags_agree.
  - exact example_selecting_distinct.
  - vm_compute. discriminate.
  - reflexivity.
  - exists g1, g2, g3. repeat (split; [assumption|]). assumption.
Defined.

(** C4, the claim as stated fails: after Confirm and Undo on the example
    session, Redo does not bring the confirmed state back. *)
Lemma C4_redo_does_not_reconfirm :
  ~ (exists g1 g2 g3,
       _handle_mouse_down (Some "confirm") (0, 0) example_selecting = Ok g1 /\
       selection_confirmed g1 = true /\
       _handle_mouse_down (Some "undo") (0, 0) g1 = Ok g2 /\
       _handle_mouse_down (Some "redo") (0, 0) g2 = Ok g3 /\
       selection_confirmed g3 = true).
Proof.
  intros (g1 & g2 & g3 & H1 & _ & H2 & H3 & H4).
  vm_compute in H1. injection H1 as <-.
  vm_compute in H2. injection H2 as <-.
  vm_compute in H3. injection H3 as <-.
  vm_compute in H4. discriminate.
Qed.

(** ** C5: the selected flags and the selected set *)

Lemma keys_lookup (bl bl' : list Block) (i : nat) (b b' : Block) :
  map cell_key bl' = map cell_key bl ->
  bl !! i = Some b -> bl' !! i = Some b' -> cell_key b' = cell_key b.
Proof.
  intros Hk Hb Hb'.
  assert (H : map cell_key bl' !! i = map cell_key bl !! i) by (rewrite Hk; reflexivity).
  rewrite !lookup_map, Hb, Hb' in H. simpl in H. congruence.
Qed.

Lemma keys_lookup_back (bl bl' : list Block) (i : nat) (b' : Block) :
  map cell_key bl' = map cell_key bl ->
  bl' !! i = Some b' -> exists b, bl !! i = Some b /\ cell_key b' = cell_key b.
Proof.
  intros Hk Hb'.
  assert (H : map cell_key bl' !! i = map cell_key bl !! i) by (rewrite Hk; reflexivity).
  rewrite !lookup_map, Hb' in H. simpl in H.
  destruct (bl !! i) as [b|]; [|discriminate]. exists b. split; [reflexivity|].
  simpl in H. congruence.
Qed.

Lemma keys_alter (f : Block -> Block) (bl : list Block) (i : nat) :
  (forall b, cell_key (f b) = cell_key b) ->
  map cell_key (alter f i bl) = map cell_key bl.
Proof.
  intros Hf. apply list_eq. intros j. rewrite !lookup_map.
  destruct (decide (i = j)) as [<-|Hne].
  - rewrite list_lookup_alter_eq. destruct (bl !! i); simpl; [|reflexivity].
    rewrite Hf. reflexivity.
  - rewrite list_lookup_alter_ne by exact Hne. reflexivity.
Qed.

Lemma keys_fold_alter (f : Block -> Block) (sel : list nat) (bl : list Block) :
  (forall b, cell_key (f b) = cell_key b) ->
  map cell_key (fold_left (fun bl i => alter f i bl) sel bl) = map cell_key bl.
Proof.
  intros Hf. revert bl. induction sel as [|r sel IH]; intros bl; simpl; [reflexivity|].
  rewrite IH. apply keys_alter, Hf.
Qed.

Lemma Block_eqb_keys (a b a' b' : Block) :
  cell_key a' = cell_key a -> cell_key b' = cell_key b ->
  Block_eqb a' b' = Block_eqb a b.
Proof.
  unfold cell_key, Block_eqb. intros Ha Hb.
  injection Ha as -> -> _. injection Hb as -> -> _. reflexivity.
Qed.

Lemma distinct_blocks_keys (bl bl' : list Block) :
  map cell_key bl' = map cell_key bl -> distinct_blocks bl -> distinct_blocks bl'.
Proof.
  intros Hk Hd i j bi' bj' Hi Hj E.
  destruct (keys_lookup_back bl bl' i bi' Hk Hi) as (bi & Hbi & Ki).
  destruct (keys_lookup_back bl bl' j bj' Hk Hj) as (bj & Hbj & Kj).
  apply (Hd i j bi bj Hbi Hbj). rewrite <- (Block_eqb_keys bi bj bi' bj' Ki Kj).
  exact E.
Qed.

(** A session keeps its invariant when its cells keep their keys, its history
    gets no new entry, and flags and set agree. *)
Lemma session_inv_keys (g g' : Game) :
  session_inv g ->
  map cell_key (blocks (current_blockset g')) = map cell_key (blocks (current_blockset g)) ->
  (forall e, In e (history g') -> In e (history g)) ->
  flags_agree (current_blockset g') ->
  session_inv g'.
Proof.
  intros (_ & Hd & Hp & Hh) Hk Hsub Hag. split; [exact Hag|]. split; [|split].
  - apply (distinct_blocks_keys _ _ Hk Hd).
  - intros b' Hb'. apply list_elem_of_In, list_elem_of_lookup in Hb' as [i Hi].
    destruct (keys_lookup_back _ _ i b' Hk Hi) as (b & Hb & Kb).
    unfold cell_key in Kb. injection Kb as _ -> ->.
    apply Hp. apply list_elem_of_In. eapply list_elem_of_lookup_2. exact Hb.
  - intros e i p f b' He Hf Hb'.
    destruct (keys_lookup_back _ _ i b' Hk Hb') as (b & Hb & Kb).
    unfold cell_key in Kb. injection Kb as _ -> _.
    apply (Hh e i p f b (Hsub e He) Hf Hb).
Qed.

Lemma session_inv_ext (g g' : Game) :
  current_blockset g' = current_blockset g -> history g' = history g ->
  session_inv g -> session_inv g'.
Proof. unfold session_inv. intros -> ->. auto. Qed.

Lemma pushed_history_In (h : list Snapshot) (idx : Z) (e0 e : Snapshot) :
  In e (pushed_history h idx e0) -> In e h \/ e = e0.
Proof.
  unfold pushed_history, py_slice_last, py_slice_to. intros Hin.
  apply list_elem_of_In in Hin. apply subseteq_drop in Hin.
  apply elem_of_app in Hin as [Hin|Hin].
  - left. apply list_elem_of_In.
    destruct (0 <=? idx + 1); eapply subseteq_take; exact Hin.
  - right. apply list_elem_of_singleton in Hin. exact Hin.
Qed.

Lemma save_state_inv (g : Game) : session_inv g -> session_inv (_save_state g).
Proof.
  intros Hinv. rewrite save_state_eq. cbv zeta.
  generalize (Z.of_nat (length (pushed_history (history g) (history_index g)
    (snapshot_of (current_blockset g), selection_confirmed g))) - 1).
  intros z. destruct Hinv as (Hag & Hd & Hp & Hh).
  split; [exact Hag|]. split; [exact Hd|]. split; [exact Hp|].
  intros e i p f b He Hf Hb. fields in He. fields in Hb.
  apply pushed_history_In in He as [He| ->].
  - apply (Hh e i p f b He Hf Hb).
  - simpl in Hf. unfold snapshot_of in Hf. rewrite lookup_map, Hb in Hf.
    simpl in Hf. congruence.
Qed.

Lemma fire_selection_change_inv (g : Game) :
  session_inv g -> session_inv (fire_selection_change g).
Proof.
  unfold fire_selection_change. destruct (on_selection_change _); [|auto].
  apply save_state_inv.
Qed.

Lemma same_block_eq (bl : list Block) (i j : nat) :
  distinct_blocks bl -> same_block bl i j = true -> j = i.
Proof.
  intros Hd. destruct (bl !! i) as [bi|] eqn:Hi.
  - apply (same_block_distinct bl i j bi Hd Hi).
  - unfold same_block. rewrite Hi.
    destruct (Nat.eqb_spec j i); [auto | discriminate].
Qed.

Lemma set_add_In (bl : list Block) (i k : nat) (sel : list nat) :
  distinct_blocks bl -> In k (set_add bl i sel) <-> In k sel \/ k = i.
Proof.
  intros Hd. unfold set_add. destruct (existsb (same_block bl i) sel) eqn:E.
  - apply existsb_exists in E as (j & Hj & Hs).
    apply (same_block_eq bl i j Hd) in Hs. subst j.
    split; [auto | intros [H| ->]; assumption].
  - rewrite in_app_iff. simpl. intuition.
Qed.

Lemma set_discard_In (bl : list Block) (i k : nat) (sel : list nat) :
  distinct_blocks bl -> In k (set_discard bl i sel) <-> In k sel /\ k <> i.
Proof.
  intros Hd. unfold set_discard.
  rewrite <- !list_elem_of_In, list_elem_of_filter. split.
  - intros [Hs Hk]. split; [exact Hk|]. intros ->.
    rewrite same_block_refl in Hs. discriminate.
  - intros [Hk Hne]. split; [|exact Hk].
    destruct (same_block bl i k) eqn:E; [|reflexivity].
    apply (same_block_eq bl i k Hd) in E. contradiction.
Qed.

(** Changing the flag of cell [i] to [v] and the set so that [i] is in it
    exactly when [v] is true keeps the invariant. *)
Lemma session_inv_set_flag (g : Game) (i : nat) (v : bool) (sel' : list nat)
      (f : Block -> Block) :
  session_inv g ->
  (forall b, cell_key (f b) = cell_key b) ->
  (forall b, selected (f b) = v) ->
  (forall k, k <> i -> (In k sel' <-> In k (selected_blocks (current_blockset g)))) ->
  (In i sel' <-> v = true) ->
  session_inv (with_selected_blocks sel'
                 (with_blocks (alter f i (blocks (current_blockset g))) g)).
Proof.
  intros Hinv Hkey Hflag Hother Hi.
  apply (session_inv_keys g); [exact Hinv | apply keys_alter, Hkey | auto |].
  destruct Hinv as (Hag & _). intros k b' Hk. fields in Hk. fields.
  destruct (decide (i = k)) as [<-|Hne].
  - rewrite list_lookup_alter_eq in Hk.
    destruct (blocks (current_blockset g) !! i) as [b|]; [|discriminate].
    injection Hk as <-. rewrite Hflag. symmetry. exact Hi.
  - rewrite list_lookup_alter_ne in Hk by exact Hne.
    rewrite (Hag k b' Hk). symmetry. apply Hother. congruence.
Qed.

Lemma select_block_inv (i : nat) (g : Game) :
  session_inv g -> session_inv (select_block i g).
Proof.
  intros Hinv. unfold select_block. destruct (in_blocks _ i); [|exact Hinv].
  apply fire_selection_change_inv. fields.
  assert (Hd : distinct_blocks
                 (alter (set_selected true) i (blocks (current_blockset g)))).
  { apply (distinct_blocks_keys (blocks (current_blockset g)));
      [apply keys_alter; reflexivity | apply Hinv]. }
  apply (session_inv_set_flag g i true); [exact Hinv | reflexivity | reflexivity | |].
  - intros k Hne. rewrite (set_add_In _ i k _ Hd). intuition.
  - rewrite (set_add_In _ i i _ Hd). intuition.
Qed.

Lemma deselect_block_inv (i : nat) (g : Game) :
  session_inv g -> session_inv (deselect_block i g).
Proof.
  intros Hinv. unfold deselect_block. destruct (in_selected _ i); [|exact Hinv].
  apply fire_selection_change_inv. fields.
  assert (Hd : distinct_blocks
                 (alter (set_selected false) i (blocks (current_blockset g)))).
  { apply (distinct_blocks_keys (blocks (current_blockset g)));
      [apply keys_alter; reflexivity | apply Hinv]. }
  apply (session_inv_set_flag g i false); [exact Hinv | reflexivity | reflexivity | |].
  - intros k Hne. rewrite (set_discard_In _ i k _ Hd). intuition.
  - rewrite (set_discard_In _ i i _ Hd). intuition discriminate.
Qed.

Lemma select_blocks_in_area_inv (start_pos end_pos : Pos) (g : Game) :
  session_inv g -> session_inv (select_blocks_in_area start_pos end_pos g).
Proof.
  unfold select_blocks_in_area.
  generalize (seq 0 (length (blocks (current_blockset g)))). intros l.
  revert g. induction l as [|i l IH]; intros g Hinv; simpl; [exact Hinv|].
  apply IH. destruct (blocks (current_blockset g) !! i); [|exact Hinv].
  match goal with |- context [if ?c then _ else _] => destruct c end;
    [apply select_block_inv|]; exact Hinv.
Qed.

(** After a loop that applies [f] to every cell of the selected set, where
    [f] sets the flag to [v]: a cell is flagged when it is in the set and [v]
    is true. *)
Lemma fold_alter_flags (f : Block -> Block) (v : bool) (bs : BlockSet)
      (i : nat) (b' : Block) :
  (forall b, f (f b) = f b) -> (forall b, selected (f b) = v) ->
  flags_agree bs ->
  fold_left (fun bl r => alter f r bl) (selected_blocks bs) (blocks bs) !! i = Some b' ->
  selected b' = true <-> In i (selected_blocks bs) /\ v = true.
Proof.
  intros Hidem Hflag Hag Hb'.
  destruct (in_dec Nat.eq_dec i (selected_blocks bs)) as [Hin|Hnot].
  - rewrite fold_alter_lookup_in in Hb' by assumption.
    destruct (blocks bs !! i) as [b|]; [|discriminate]. injection Hb' as <-.
    rewrite Hflag. intuition.
  - rewrite fold_alter_lookup_notin in Hb' by exact Hnot.
    rewrite (Hag i b' Hb'). intuition.
Qed.

Lemma clear_selection_inv (g : Game) :
  session_inv g -> session_inv (clear_selection g).
Proof.
  intros Hinv. unfold clear_selection. apply fire_selection_change_inv.
  apply (session_inv_keys g);
    [exact Hinv | apply keys_fold_alter; reflexivity | auto |].
  intros i b' Hb'. fields in Hb'. fields.
  rewrite (fold_alter_flags (set_selected false) false (current_blockset g) i b');
    [simpl; intuition discriminate | reflexivity | reflexivity | apply Hinv | exact Hb'].
Qed.

Lemma start_drag_inv (p : Pos) (g : Game) :
  session_inv g -> session_inv (start_drag p g).
Proof.
  intros Hinv. unfold start_drag.
  destruct (selected_blocks (current_blockset g)) as [|r sel] eqn:Hsel.
  - apply (session_inv_ext g); [reflexivity..|exact Hinv].
  - rewrite <- Hsel.
    apply (session_inv_keys g);
      [exact Hinv | apply keys_fold_alter; reflexivity | auto |].
    intros i b' Hb'. fields in Hb'. fields.
    rewrite (fold_alter_flags (fun b => set_ghost true (set_selected true b)) true
                              (current_blockset g) i b');
      [intuition | reflexivity | reflexivity | apply Hinv | exact Hb'].
Qed.

Lemma alter_ext_at (f h : Block -> Block) (bl : list Block) (i : nat) :
  (forall b, bl !! i = Some b -> f b = h b) -> alter f i bl = alter h i bl.
Proof.
  intros Hfh. apply list_eq. intros j. destruct (decide (i = j)) as [<-|Hne].
  - rewrite !list_lookup_alter_eq. destruct (bl !! i) as [b|] eqn:Hb; [|reflexivity].
    simpl. rewrite (Hfh b eq_refl). reflexivity.
  - rewrite !list_lookup_alter_ne by exact Hne. reflexivity.
Qed.

Lemma restore_block_inv (g : Game) (k : nat) (p : Pos) (f : bool) :
  session_inv g ->
  (forall b, blocks (current_blockset g) !! k = Some b -> p = pos b) ->
  session_inv (with_blockset (restore_block (current_blockset g) k (p, f)) g) /\
  map cell_key (blocks (restore_block (current_blockset g) k (p, f))) =
  map cell_key (blocks (current_blockset g)).
Proof.
  intros Hinv Hp. unfold restore_block.
  destruct (k <? length (blocks (current_blockset g)))%nat;
    [|split; [rewrite with_blockset_same; exact Hinv | reflexivity]].
  rewrite (alter_ext_at _ (set_selected f) (blocks (current_blockset g)) k)
    by (intros b Hb; rewrite (Hp b Hb); destruct b; reflexivity).
  assert (Hd : distinct_blocks
                 (alter (set_selected f) k (blocks (current_blockset g)))).
  { apply (distinct_blocks_keys (blocks (current_blockset g)));
      [apply keys_alter; reflexivity | apply Hinv]. }
  split; [|apply keys_alter; reflexivity].
  destruct f.
  - apply (session_inv_set_flag g k true);
      [exact Hinv | reflexivity | reflexivity | |].
    + intros j Hne. rewrite (set_add_In _ k j _ Hd). intuition.
    + rewrite (set_add_In _ k k _ Hd). intuition.
  - apply (session_inv_set_flag g k false);
      [exact Hinv | reflexivity | reflexivity | |].
    + intros j Hne. rewrite (set_discard_In _ k j _ Hd). intuition.
    + rewrite (set_discard_In _ k k _ Hd). intuition discriminate.
Qed.

Lemma restore_blocks_inv (state_blocks : list (Pos * bool)) :
  forall (k : nat) (g : Game),
    session_inv g ->
    (forall j p f b, state_blocks !! j = Some (p, f) ->
                     blocks (current_blockset g) !! (k + j)%nat = Some b -> p = pos b) ->
    session_inv (with_blockset (restore_blocks (current_blockset g) k state_blocks) g).
Proof.
  induction state_blocks as [|[p f] rest IH]; intros k g Hinv Hp; simpl.
  - rewrite with_blockset_same. exact Hinv.
  - destruct (restore_block_inv g k p f Hinv) as [Hinv' Hkeys].
    { intros b Hb. apply (Hp 0%nat p f b); [reflexivity|].
      rewrite Nat.add_0_r. exact Hb. }
    apply (IH (S k) _ Hinv'). intros j p' f' b' Hj Hb'. fields in Hb'.
    destruct (keys_lookup_back _ _ _ b' Hkeys Hb') as (b & Hb & Kb).
    unfold cell_key in Kb. injection Kb as _ -> _.
    apply (Hp (S j) p' f' b); [exact Hj|].
    replace (k + S j)%nat with (S k + j)%nat by lia. exact Hb.
Qed.

Lemma restore_state_inv (state : Snapshot) (g : Game) :
  session_inv g -> In state (history g) -> session_inv (_restore_state state g).
Proof.
  intros Hinv Hin. destruct state as [state_blocks c]. unfold _restore_state.
  eapply session_inv_ext;
    [| | apply (restore_blocks_inv state_blocks 0 g Hinv)]; [reflexivity..|].
  intros j p f b Hj Hb. destruct Hinv as (_ & _ & _ & Hh).
  apply (Hh (state_blocks, c) j p f b Hin Hj Hb).
Qed.

Lemma py_getitem_In {A} (l : list A) (k : Z) (a : A) :
  py_getitem l k = Ok a -> In a l.
Proof.
  unfold py_getitem, py_index. intros H. apply list_elem_of_In.
  destruct (0 <=? k).
  - destruct (l !! Z.to_nat k) eqn:E; [|discriminate]. injection H as <-.
    eapply list_elem_of_lookup_2. exact E.
  - destruct (0 <=? Z.of_nat (length l) + k); [|discriminate].
    destruct (l !! Z.to_nat (Z.of_nat (length l) + k)) eqn:E; [|discriminate].
    injection H as <-. eapply list_elem_of_lookup_2. exact E.
Qed.

Lemma undo_inv (g g' : Game) : session_inv g -> _undo g = Ok g' -> session_inv g'.
Proof.
  intros Hinv H. unfold _undo in H.
  destruct (0 <? history_index g); [|injection H as <-; exact Hinv].
  apply bind_Ok in H as (state & Hs & H). injection H as <-. fields in Hs.
  apply py_getitem_In in Hs.
  match goal with
  | |- context [_restore_state state ?g1] =>
    assert (Hinv1 : session_inv g1)
      by (apply (session_inv_ext g); [reflexivity..|exact Hinv]);
    pose proof (restore_state_inv state g1 Hinv1 Hs) as Hr;
    revert Hr; generalize (_restore_state state g1)
  end.
  intros r Hr. apply (session_inv_ext r); [reflexivity..|exact Hr].
Qed.

Lemma redo_inv (g g' : Game) : session_inv g -> _redo g = Ok g' -> session_inv g'.
Proof.
  intros Hinv H. unfold _redo in H.
  destruct (history_index g <? Z.of_nat (length (history g)) - 1);
    [|injection H as <-; exact Hinv].
  apply bind_Ok in H as (state & Hs & H). injection H as <-. fields in Hs.
  apply py_getitem_In in Hs.
  match goal with
  | |- context [_restore_state state ?g1] =>
    assert (Hinv1 : session_inv g1)
      by (apply (session_inv_ext g); [reflexivity..|exact Hinv]);
    pose proof (restore_state_inv state g1 Hinv1 Hs) as Hr;
    revert Hr; generalize (_restore_state state g1)
  end.
  intros r Hr. apply (session_inv_ext r); [reflexivity..|exact Hr].
Qed.

(** Resetting a session whose selected cells may have been moved and
    unflagged by a drag gives back a session that satisfies the invariant. *)
Lemma reset_level_inv (g0 g1 : Game) :
  session_inv g0 ->
  selected_blocks (current_blockset g1) = selected_blocks (current_blockset g0) ->
  moved_only (selected_blocks (current_blockset g0))
             (blocks (current_blockset g0)) (blocks (current_blockset g1)) ->
  session_inv (_reset_level g1).
Proof.
  intros Hinv Hsel [Hlen Hmoved].
  destruct (reset_level_fields g1) as (Hb & Hs & _ & Hh & _).
  set (sel := selected_blocks (current_blockset g0)) in *.
  assert (Hcell : forall i b',
             blocks (current_blockset (_reset_level g1)) !! i = Some b' ->
             exists b0, blocks (current_blockset g0) !! i = Some b0 /\
                        cell_key b' = cell_key b0 /\ selected b' = false).
  { intros i b' Hb'. rewrite Hb, Hsel in Hb'.
    destruct (Hinv) as (Hag & _ & Hp & _).
    assert (Hfrom : forall b1, blocks (current_blockset g1) !! i = Some b1 ->
              exists b0, blocks (current_blockset g0) !! i = Some b0 /\
                         cell_key (reset_position b1) = cell_key b0 /\
                         (~ In i sel -> selected (reset_position b1) = false)).
    { intros b1 Hb1. destruct (Hmoved i b1 Hb1) as (b0 & Hb0 & Ht & Ho & Hsame).
      exists b0. split; [exact Hb0|].
      assert (Hpos0 : pos b0 = original_pos b0).
      { apply Hp. apply list_elem_of_In. eapply list_elem_of_lookup_2. exact Hb0. }
      split.
      - unfold cell_key. simpl. rewrite Ht, Ho, Hpos0. reflexivity.
      - intros Hn. rewrite (Hsame Hn). simpl.
        destruct (selected b0) eqn:E; [|reflexivity].
        apply (Hag i b0 Hb0) in E. contradiction. }
    destruct (in_dec Nat.eq_dec i sel) as [Hin|Hnot].
    - rewrite fold_alter_lookup_in in Hb' by (auto || exact Hin).
      rewrite lookup_map in Hb'.
      destruct (blocks (current_blockset g1) !! i) as [b1|] eqn:Hb1; [|discriminate].
      injection Hb' as <-. destruct (Hfrom b1 eq_refl) as (b0 & Hb0 & Hk & _).
      exists b0. split; [exact Hb0|]. split; [exact Hk | reflexivity].
    - rewrite fold_alter_lookup_notin in Hb' by exact Hnot.
      rewrite lookup_map in Hb'.
      destruct (blocks (current_blockset g1) !! i) as [b1|] eqn:Hb1; [|discriminate].
      injection Hb' as <-. destruct (Hfrom b1 eq_refl) as (b0 & Hb0 & Hk & Hf).
      exists b0. split; [exact Hb0|]. split; [exact Hk | exact (Hf Hnot)]. }
  apply (session_inv_keys g0); [exact Hinv | | |].
  - apply list_eq. intros i. rewrite !lookup_map.
    destruct (blocks (current_blockset (_reset_level g1)) !! i) as [b'|] eqn:Hb'.
    + destruct (Hcell i b' Hb') as (b0 & -> & Hk & _). simpl. rewrite Hk. reflexivity.
    + apply lookup_ge_None in Hb'. rewrite Hb, fold_alter_length, length_map, Hlen in Hb'.
      apply lookup_ge_None in Hb'. rewrite Hb'. reflexivity.
  - rewrite Hh. intros e [].
  - intros i b' Hb'. rewrite Hs. destruct (Hcell i b' Hb') as (_ & _ & _ & Hf).
    rewrite Hf. simpl. intuition discriminate.
Qed.

Lemma confirm_selection_inv (g : Game) :
  session_inv g -> session_inv (_confirm_selection g).
Proof.
  intros Hinv. unfold _confirm_selection.
  destruct (selected_blocks (current_blockset g)); [exact Hinv|].
  assert (Hs : session_inv (_save_state (with_selection_confirmed true g)))
    by (apply save_state_inv, (session_inv_ext g); [reflexivity..|exact Hinv]).
  revert Hs. generalize (_save_state (with_selection_confirmed true g)).
  intros s Hs. apply (session_inv_ext s); [reflexivity..|exact Hs].
Qed.

Lemma handle_click_inv (hit : option string) (g g1 : Game) (action : option string) :
  session_inv g -> handle_click hit g = Ok (g1, action) -> session_inv g1.
Proof.
  intros Hinv H. unfold handle_click in H.
  destruct (String.eqb (current_state g) "in_level_chooseblock");
    [|injection H as <- _; exact Hinv].
  destruct hit as [name|]; [|injection H as <- _; exact Hinv].
  destruct (String.eqb name "confirm"); [|injection H as <- _; exact Hinv].
  apply bind_Ok in H as (results & _ & H).
  destruct (failed_names results); injection H as <- _;
    (apply (session_inv_ext g); [reflexivity..|exact Hinv]).
Qed.

Lemma handle_action_inv (action : string) (g g' : Game) :
  session_inv g -> _handle_action action g = Ok g' -> session_inv g'.
Proof.
  intros Hinv H. unfold _handle_action in H.
  destruct (String.eqb action "reset").
  { injection H as <-. apply (reset_level_inv g g Hinv eq_refl), moved_only_refl. }
  destruct (String.eqb action "undo"); [exact (undo_inv g g' Hinv H)|].
  destruct (String.eqb action "redo"); [exact (redo_inv g g' Hinv H)|].
  destruct (String.eqb action "confirm").
  { injection H as <-. apply confirm_selection_inv, Hinv. }
  destruct (String.eqb action "back_to_levels"); injection H as <-;
    [apply (session_inv_ext g); [reflexivity..|exact Hinv] | exact Hinv].
Qed.

(** [update_drag] only rewrites the temporary copies kept in the drag
    attributes. *)
Lemma update_drag_shape (p : Pos) (g g' : Game) :
  update_drag p g = Ok g' -> exists d, g' = with_drag d g.
Proof.
  intros H. unfold update_drag in H.
  match type of H with
  | (if ?c then _ else _) = _ => destruct c
  end.
  { injection H as <-. exists (drag g). destruct g; reflexivity. }
  repeat (apply bind_Ok in H as (? & _ & H)).
  injection H as <-. eexists. reflexivity.
Qed.

Lemma handle_mouse_motion_inv (p : Pos) (g g' : Game) :
  session_inv g -> _handle_mouse_motion p g = Ok g' -> session_inv g'.
Proof.
  intros Hinv H. unfold _handle_mouse_motion in H.
  destruct (String.eqb (current_state g) "in_level_chooseblock");
    [|injection H as <-; exact Hinv].
  destruct (dragging (drag g)); [|injection H as <-; exact Hinv].
  destruct (update_drag_shape p g g' H) as [d ->].
  apply (session_inv_ext g); [reflexivity..|exact Hinv].
Qed.

Lemma handle_mouse_down_inv (hit : option string) (p : Pos) (g g' : Game) :
  session_inv g -> _handle_mouse_down hit p g = Ok g' -> session_inv g'.
Proof.
  intros Hinv H. unfold _handle_mouse_down in H.
  destruct (String.eqb (current_state g) "in_level_chooseblock");
    [|injection H as <-; exact Hinv].
  apply bind_Ok in H as ([g1 action] & Hclick & H).
  apply (handle_click_inv hit g g1 action Hinv) in Hclick.
  destruct action as [a|]; [exact (handle_action_inv a g1 g' Hclick H)|].
  destruct (negb (selection_confirmed g1)).
  - apply bind_Ok in H as (grid_pos & _ & H).
    destruct (clicked_block g1 grid_pos) as [i|]; [|injection H as <-; exact Hclick].
    destruct (in_selected (current_blockset g1) i); injection H as <-.
    + pose proof (deselect_block_inv i g1 Hclick) as Hd. revert Hd.
      generalize (deselect_block i g1). intros s Hs.
      apply (session_inv_ext s); [reflexivity..|exact Hs].
    + pose proof (select_block_inv i g1 Hclick) as Hd. revert Hd.
      generalize (select_block i g1). intros s Hs.
      apply (session_inv_ext s); [reflexivity..|exact Hs].
  - apply bind_Ok in H as (grid_pos & _ & H). injection H as <-.
    apply start_drag_inv.
    destruct (existsb _ _); [|exact Hclick].
    apply (session_inv_ext g1); [reflexivity..|exact Hclick].
Qed.

(** The state [_handle_mouse_up] leaves when the movement-stage evaluation
    fails. *)
Lemma mouse_up_failing_shape (mouse : Pos) (g g1 : Game) (results : Results) :
  current_state g = "in_level_chooseblock" ->
  dragging (drag g) = true ->
  selection_confirmed g = true ->
  end_drag mouse g = Ok g1 ->
  check_constraints (current_blockset g1) (constraints g) Movement = Ok results ->
  failed_names results <> [] ->
  exists x,
    _handle_mouse_up mouse g =
      Ok (with_failed_constraints (failed_names results) (_reset_level x)) /\
    selected_blocks (current_blockset x) = selected_blocks (current_blockset g) /\
    moved_only (selected_blocks (current_blockset g))
               (blocks (current_blockset g)) (blocks (current_blockset x)).
Proof.
  intros Hst Hdrag Hconf Hend Hcheck Hfail.
  destruct (end_drag_shape mouse g g1 Hconf Hend) as (bl & d & -> & Hmoved).
  unfold _handle_mouse_up. rewrite Hst, String.eqb_refl, Hdrag, Hend. fields.
  rewrite Hconf. fields in Hcheck. rewrite Hcheck. fields.
  destruct (failed_names results) as [|n ns] eqn:Hf; [congruence|].
  eexists. split; [reflexivity|]. split; [reflexivity | exact Hmoved].
Qed.

Lemma failed_drop_inv (mouse : Pos) (g g1 g' : Game) (results : Results) :
  session_inv g ->
  current_state g = "in_level_chooseblock" ->
  dragging (drag g) = true ->
  selection_confirmed g = true ->
  end_drag mouse g = Ok g1 ->
  check_constraints (current_blockset g1) (constraints g) Movement = Ok results ->
  failed_names results <> [] ->
  _handle_mouse_up mouse g = Ok g' ->
  session_inv g'.
Proof.
  intros Hinv Hst Hdrag Hconf Hend Hcheck Hfail Hup.
  destruct (mouse_up_failing_shape mouse g g1 results Hst Hdrag Hconf Hend Hcheck Hfail)
    as (x & Heq & Hsel & Hmoved).
  rewrite Heq in Hup. injection Hup as <-.
  pose proof (reset_level_inv g x Hinv Hsel Hmoved) as Hr. revert Hr.
  generalize (_reset_level x). intros r Hr.
  apply (session_inv_ext r); [reflexivity..|exact Hr].
Qed.

Lemma session_inv_flags_agree (g : Game) :
  session_inv g -> flags_agree (current_blockset g).
Proof. intros Hinv. apply Hinv. Qed.

(** C5 as amended.  From a session that satisfies [session_inv] (whose first
    part is that every cell's selected flag is true exactly when the cell is
    in the selected set), every operation other than a drag that ends on a
    passing evaluation leads to a session that satisfies it again: selecting
    and deselecting a cell, selecting an area, clearing the selection, a
    mouse press (toggling a cell, Confirm, Reset, Undo, Redo, beginning a
    drag), mouse motion (updating a drag), and releasing the mouse when the
    movement-stage evaluation fails. *)
Theorem C5_flags_agree_with_selected_set (g : Game) :
  session_inv g ->
  flags_agree (current_blockset g) /\
  (forall i, session_inv (select_block i g)) /\
  (forall i, session_inv (deselect_block i g)) /\
  (forall a b, session_inv (select_blocks_in_area a b g)) /\
  session_inv (clear_selection g) /\
  (forall hit p g', _handle_mouse_down hit p g = Ok g' -> session_inv g') /\
  (forall p g', _handle_mouse_motion p g = Ok g' -> session_inv g') /\
  (forall mouse g1 results g',
      current_state g = "in_level_chooseblock" ->
      dragging (drag g) = true ->
      selection_confirmed g = true ->
      end_drag mouse g = Ok g1 ->
      check_constraints (current_blockset g1) (constraints g) Movement = Ok results ->
      failed_names results <> [] ->
      _handle_mouse_up mouse g = Ok g' ->
      session_inv g').
Proof.
  intros Hinv. split; [apply Hinv|].
  split; [intros i; apply select_block_inv, Hinv|].
  split; [intros i; apply deselect_block_inv, Hinv|].
  split; [intros a b; apply select_blocks_in_area_inv, Hinv|].
  split; [apply clear_selection_inv, Hinv|].
  split; [intros hit p g'; apply handle_mouse_down_inv, Hinv|].
  split; [intros p g'; apply handle_mouse_motion_inv, Hinv|].
  intros mouse g1 results g'. apply failed_drop_inv, Hinv.
Qed.



Lemma example_selecting_inv : session_inv example_selecting.
Proof.
  split; [exact example_selecting_flags_agree|].
  split; [exact example_selecting_distinct|]. split.
  - intros b [<-|[<-|[<-|[]]]]; reflexivity.
  - intros e i p f b [<-|[<-|[]]] Hf Hb;
      (destruct i as [|[|[|i]]]; cbn in Hf, Hb; [| | |discriminate];
       injection Hf as <- _; injection Hb as <-; reflexivity).
Qed.

Lemma example_dragging_reached :
  (g1 ← _handle_mouse_down (Some "confirm") (0, 0) example_selecting;
   _handle_mouse_down None (5, 5) g1) = Ok example_dragging.
Proof. vm_compute. reflexivity. Qed.

(** The example session with a drag begun is a session in play: two clicks on
    cells, Confirm, and a mouse press on the first cell. *)
Lemma example_dragging_in_play :
  in_play [solid 1 (0, 0); solid 1 (1, 0); solid 1 (3, 0)] ["glue"] example_layout
          example_dragging.
Proof.
  pose (g1 := select_block 0 example_level).
  pose (g3 := _confirm_selection (with_selection_confirmed true example_selecting)).
  apply (play_mouse_down _ _ _ g3 None (5, 5) example_dragging);
    [apply (play_mouse_down _ _ _ example_selecting (Some "confirm") (0, 0) g3);
     [apply (play_mouse_down _ _ _ g1 None (45, 5) example_selecting);
      [apply (play_mouse_down _ _ _ example_level None (5, 5) g1);
       [apply play_load|]|]|]|];
    vm_compute; reflexivity.
Qed.

(** On the example session: after deselecting the first cell, after Undo and
    after Reset, flags and selected set agree. *)
Lemma C5_agreement_examples :
  flags_agree (current_blockset (deselect_block 0 example_selecting)) /\
  (forall g', _handle_mouse_down (Some "undo") (0, 0) example_selecting = Ok g' ->
              flags_agree (current_blockset g')) /\
  (forall g', _handle_mouse_down (Some "reset") (0, 0) example_selecting = Ok g' ->
              flags_agree (current_blockset g')).
Proof.
  destruct (C5_flags_agree_with_selected_set example_selecting example_selecting_inv)
    as (_ & _ & Hdes & _ & _ & Hdown & _).
  split; [apply Hdes|]. split; intros g' Hg'; apply (Hdown _ _ _ Hg').
Defined.

(** C5, the claim as stated fails: the example session, confirmed and with a
    drag begun, is reached by mouse presses from the loaded level; when the
    drag ends, [end_drag] has unflagged the two selected cells and left them
    in the selected set, and so has the whole mouse release, whose
    evaluation passes. *)
Lemma C5_end_drag_unflags_selected_cells :
  ~ (forall g', end_drag (5, 5) example_dragging = Ok g' ->
                flags_agree (current_blockset g')) /\
  ~ (forall g', _handle_mouse_up (5, 5) example_dragging = Ok g' ->
                flags_agree (current_blockset g')).
Proof.
  split; intros H.
  - assert (Hend : exists g', end_drag (5, 5) example_dragging = Ok g' /\
                              selected_blocks (current_blockset g') = [0; 1]%nat /\
                              (selected <$> blocks (current_blockset g') !! 0%nat)
                              = Some false)
      by (eexists; split; [vm_compute; reflexivity | split; reflexivity]).
    destruct Hend as (g' & Hg' & Hsel & Hflag). specialize (H g' Hg').
    destruct (blocks (current_blockset g') !! 0%nat) as [b|] eqn:Hb; [|discriminate].
    injection Hflag as Hflag. apply (H 0%nat b) in Hb.
    rewrite Hsel, Hflag in Hb. destruct Hb as [_ Hb].
    specialize (Hb (or_introl eq_refl)). discriminate.
  - assert (Hup : exists g', _handle_mouse_up (5, 5) example_dragging = Ok g' /\
                             selected_blocks (current_blockset g') = [0; 1]%nat /\
                             (selected <$> blocks (current_blockset g') !! 0%nat)
                             = Some false)
      by (eexists; split; [vm_compute; reflexivity | split; reflexivity]).
    destruct Hup as (g' & Hg' & Hsel & Hflag). specialize (H g' Hg').
    destruct (blocks (current_blockset g') !! 0%nat) as [b|] eqn:Hb; [|discriminate].
    injection Hflag as Hflag. apply (H 0%nat b) in Hb.
    rewrite Hsel, Hflag in Hb. destruct Hb as [_ Hb].
    specialize (Hb (or_introl eq_refl)). discriminate.
Qed.

(** * Further properties of the code *)

(** ** Python numbers *)

Lemma py_int_inject_Z (q : Q) (z : Z) : (q == inject_Z z)%Q -> py_int q = z.
Proof.
  unfold Qeq, py_int. simpl. intros H. rewrite Z.mul_1_r in H. rewrite H.
  apply Z.quot_mul. discriminate.
Qed.

Lemma mirror_coordinate_exact (a x : Z) :
  py_int (2 * (inject_Z a / 2) - inject_Z x)%Q = a - x.
Proof.
  apply py_int_inject_Z. unfold Qeq. simpl.
  change (1 * (1 * 2))%positive with 2%positive.
  change (2 * 1)%positive with 2%positive. lia.
Qed.

Lemma list_min_le (l : list Z) (d : Z) :
  list_min d l <= d /\ (forall x, In x l -> list_min d l <= x) /\
  (list_min d l = d \/ In (list_min d l) l).
Proof.
  unfold list_min. revert d. induction l as [|a l IH]; intros d; simpl.
  - split; [lia|]. split; [intros x []|]. now left.
  - destruct (IH (Z.min d a)) as (H1 & H2 & H3). split; [lia|]. split.
    + intros x [<-|Hx]; [lia|]. now apply H2.
    + destruct H3 as [H3|H3]; [|now right; right]. rewrite H3.
      destruct (Z.min_spec d a) as [[_ E]|[_ E]]; rewrite E.
      * now left.
      * right; now left.
Qed.

Lemma list_max_ge (l : list Z) (d : Z) :
  d <= list_max d l /\ (forall x, In x l -> x <= list_max d l) /\
  (list_max d l = d \/ In (list_max d l) l).
Proof.
  unfold list_max. revert d. induction l as [|a l IH]; intros d; simpl.
  - split; [lia|]. split; [intros x []|]. now left.
  - destruct (IH (Z.max d a)) as (H1 & H2 & H3). split; [lia|]. split.
    + intros x [<-|Hx]; [lia|]. now apply H2.
    + destruct H3 as [H3|H3]; [|now right; right]. rewrite H3.
      destruct (Z.max_spec d a) as [[_ E]|[_ E]]; rewrite E.
      * right; now left.
      * now left.
Qed.

Lemma py_min_spec (l : list Z) : l <> [] -> is_least (py_min l) l.
Proof.
  destruct l as [|a l]; [congruence|]. intros _. simpl.
  destruct (list_min_le l a) as (H1 & H2 & H3). split.
  - destruct H3 as [->|H3]; [now left|now right].
  - intros x [<-|Hx]; [lia|now apply H2].
Qed.

Lemma py_max_spec (l : list Z) : l <> [] -> is_greatest (py_max l) l.
Proof.
  destruct l as [|a l]; [congruence|]. intros _. simpl.
  destruct (list_max_ge l a) as (H1 & H2 & H3). split.
  - destruct H3 as [->|H3]; [now left|now right].
  - intros x [<-|Hx]; [lia|now apply H2].
Qed.

Lemma is_least_unique (m m' : Z) (l : list Z) :
  is_least m l -> is_least m' l -> m = m'.
Proof.
  intros [H1 H2] [H3 H4]. apply H2 in H3. apply H4 in H1. lia.
Qed.

Lemma is_greatest_unique (m m' : Z) (l : list Z) :
  is_greatest m l -> is_greatest m' l -> m = m'.
Proof.
  intros [H1 H2] [H3 H4]. apply H2 in H3. apply H4 in H1. lia.
Qed.

(** ** The position dictionary *)

Lemma pos_to_block_Some (bl : list Block) (p : Pos) (s : Block) :
  pos_to_block bl p = Some s -> In s bl /\ pos s = p.
Proof.
  unfold pos_to_block. intros H. apply find_some in H. destruct H as [H1 H2].
  apply in_rev in H1. apply pos_eqb_eq in H2. auto.
Qed.

Lemma pos_to_block_In (bl : list Block) (b : Block) :
  NoDup (map pos bl) -> In b bl -> pos_to_block bl (pos b) = Some b.
Proof.
  intros Hnd Hb. assert (Hb' : In b (rev bl)) by now apply in_rev in Hb.
  destruct (pos_to_block bl (pos b)) as [s|] eqn:E.
  - apply pos_to_block_Some in E. destruct E as [Hs Hp]. f_equal.
    clear Hb'. induction bl as [|a bl IH]; [destruct Hb|].
    simpl in Hnd. inversion Hnd as [|? ? Hn Hnd']; subst.
    destruct Hb as [->|Hb], Hs as [->|Hs]; auto.
    + exfalso. apply Hn. rewrite <- Hp. now apply list_elem_of_In, in_map.
    + exfalso. apply Hn. rewrite Hp. now apply list_elem_of_In, in_map.
  - exfalso. unfold pos_to_block in E.
    pose proof (find_none _ _ E b Hb') as Hf. simpl in Hf.
    rewrite pos_eqb_refl in Hf. discriminate.
Qed.

Lemma pos_to_block_spec (bl : list Block) (p : Pos) (s : Block) :
  NoDup (map pos bl) -> (pos_to_block bl p = Some s <-> In s bl /\ pos s = p).
Proof.
  intros Hnd. split; [apply pos_to_block_Some|].
  intros [Hs <-]. now apply pos_to_block_In.
Qed.

(** ** The four reflections of [_check_mirror] *)

Lemma reflection_check_iff (bl : list Block) (f : Pos -> Pos) :
  NoDup (map pos bl) ->
  forallb (fun b => match pos_to_block bl (f (pos b)) with
                    | Some s => type b =? type s
                    | None => false
                    end) bl = true <->
  type_preserving bl f.
Proof.
  intros Hnd. rewrite forallb_forall. split; intros H b Hb.
  - specialize (H b Hb). destruct (pos_to_block bl (f (pos b))) as [s|] eqn:E;
      [|discriminate].
    apply pos_to_block_Some in E. destruct E as [Hs Hp].
    exists s. apply Z.eqb_eq in H. auto.
  - destruct (H b Hb) as (s & Hs & Hp & Ht).
    rewrite <- Hp, (pos_to_block_In bl s Hnd Hs). apply Z.eqb_eq. auto.
Qed.

Lemma forallb_eq_on {A} (f h : A -> bool) (l : list A) :
  (forall x, In x l -> f x = h x) -> forallb f l = forallb h l.
Proof.
  induction l as [|a l IH]; intros H; simpl; [reflexivity|].
  rewrite (H a (or_introl eq_refl)), IH; [reflexivity|].
  intros x Hx. apply H. now right.
Qed.

(** *** Floats in their exact range *)

Lemma py_truediv_2_small (a : Z) :
  Z.abs a <= 2 ^ 53 -> py_truediv_2 a = Ok (inject_Z a / 2)%Q.
Proof.
  intros H. unfold py_truediv_2. apply Z.leb_le in H. rewrite H. reflexivity.
Qed.

Lemma float_of_int_small (z : Z) :
  Z.abs z <= 2 ^ 52 -> float_of_int z = Ok (inject_Z z).
Proof.
  intros H. unfold float_of_int. apply Z.leb_le in H. rewrite H. reflexivity.
Qed.

Lemma float_result_exact (q : Q) (n : Z) :
  (2 * q == inject_Z n)%Q -> Z.abs n <= 2 ^ 53 -> float_result q = Ok q.
Proof.
  intros Hq Hn. unfold float_result, half_integer, is_integer.
  rewrite (py_int_inject_Z _ n Hq).
  apply Qeq_bool_iff in Hq. rewrite Hq.
  apply Z.leb_le in Hn. rewrite Hn. reflexivity.
Qed.

Lemma mirrored_small (a x : Z) :
  Z.abs a <= 2 ^ 41 -> Z.abs x <= 2 ^ 40 ->
  mirrored (inject_Z a / 2)%Q x = Ok (2 * (inject_Z a / 2) - inject_Z x)%Q.
Proof.
  intros Ha Hx. unfold mirrored.
  rewrite (float_result_exact (2 * (inject_Z a / 2))%Q (2 * a)).
  - simpl. rewrite float_of_int_small by lia. simpl.
    apply (float_result_exact _ (2 * (a - x))); [|lia].
    unfold Qeq. simpl. lia.
  - unfold Qeq. simpl. lia.
  - lia.
Qed.

Lemma plus_half_small (y a : Z) :
  Z.abs a <= 2 ^ 42 -> Z.abs y <= 2 ^ 40 ->
  (fy ← float_of_int y; float_result (fy + inject_Z a / 2)%Q) =
  Ok (inject_Z y + inject_Z a / 2)%Q.
Proof.
  intros Ha Hy. rewrite float_of_int_small by lia. simpl.
  apply (float_result_exact _ (2 * y + a)); [|lia].
  unfold Qeq. simpl. lia.
Qed.

Lemma minus_half_small (x a : Z) :
  Z.abs a <= 2 ^ 42 -> Z.abs x <= 2 ^ 40 ->
  (fx ← float_of_int x; float_result (fx - inject_Z a / 2)%Q) =
  Ok (inject_Z x - inject_Z a / 2)%Q.
Proof.
  intros Ha Hx. rewrite float_of_int_small by lia. simpl.
  apply (float_result_exact _ (2 * x - a)); [|lia].
  unfold Qeq. simpl. lia.
Qed.

Lemma half_minus_small (a y : Z) :
  Z.abs a <= 2 ^ 42 -> Z.abs y <= 2 ^ 40 ->
  (fy ← float_of_int y; float_result (inject_Z a / 2 - fy)%Q) =
  Ok (inject_Z a / 2 - inject_Z y)%Q.
Proof.
  intros Ha Hy. rewrite float_of_int_small by lia. simpl.
  apply (float_result_exact _ (a - 2 * y)); [|lia].
  unfold Qeq. simpl. lia.
Qed.

(** A loop whose body returns on every block is a conjunction. *)
Lemma for_blocks_pure (f : Block -> bool) (body : Block -> result bool)
      (l : list Block) :
  (forall b, In b l -> body b = Ok (f b)) -> for_blocks body l = Ok (forallb f l).
Proof.
  induction l as [|b l IH]; intros H; simpl; [reflexivity|].
  rewrite (H b (or_introl eq_refl)). simpl.
  destruct (f b); [|reflexivity]. apply IH. intros c Hc. apply H. now right.
Qed.

(** The sum of the least and the greatest of bounded values. *)
Lemma range_sum_bounded {A} (f : A -> Z) (l : list A) (B : Z) :
  l <> [] -> (forall a, In a l -> Z.abs (f a) <= B) ->
  Z.abs (py_min (map f l) + py_max (map f l)) <= 2 * B.
Proof.
  intros Hne Hb.
  assert (Hm : map f l <> []) by (intros E; now apply map_eq_nil in E).
  destruct (py_min_spec _ Hm) as [H1 _]. destruct (py_max_spec _ Hm) as [H2 _].
  apply in_map_iff in H1. destruct H1 as (a1 & E1 & Ha1).
  apply in_map_iff in H2. destruct H2 as (a2 & E2 & Ha2).
  pose proof (Hb a1 Ha1). pose proof (Hb a2 Ha2). lia.
Qed.

Lemma horizontal_check_exact (bl : list Block) :
  small_coordinates bl -> bl <> [] ->
  let xs := map (fun b => fst (pos b)) bl in
  _is_horizontally_symmetric_blocks bl =
  Ok (forallb (fun b => match pos_to_block bl
                            ((fun p => (py_min xs + py_max xs - fst p, snd p)) (pos b)) with
                        | Some s => type b =? type s
                        | None => false
                        end) bl).
Proof.
  intros Hs Hne. cbv zeta. unfold _is_horizontally_symmetric_blocks.
  destruct bl as [|b0 bl0] eqn:Ebl; [congruence|]. rewrite <- Ebl in *.
  pose proof (range_sum_bounded (fun b => fst (pos b)) bl (2 ^ 40) Hne
                (fun b Hb => proj1 (Hs b Hb))) as Ha.
  set (a := py_min _ + py_max _) in *.
  rewrite py_truediv_2_small by lia. simpl.
  apply for_blocks_pure. intros b Hb. destruct (pos b) as [x y] eqn:Ep.
  assert (Hx : Z.abs x <= 2 ^ 40).
  { pose proof (proj1 (Hs b Hb)) as H. rewrite Ep in H. exact H. }
  rewrite mirrored_small by lia. simpl.
  rewrite axis_block_ok_types_only, mirror_coordinate_exact. reflexivity.
Qed.

Lemma vertical_check_exact (bl : list Block) :
  small_coordinates bl -> bl <> [] ->
  let ys := map (fun b => snd (pos b)) bl in
  _is_vertically_symmetric_blocks bl =
  Ok (forallb (fun b => match pos_to_block bl
                            ((fun p => (fst p, py_min ys + py_max ys - snd p)) (pos b)) with
                        | Some s => type b =? type s
                        | None => false
                        end) bl).
Proof.
  intros Hs Hne. cbv zeta. unfold _is_vertically_symmetric_blocks.
  destruct bl as [|b0 bl0] eqn:Ebl; [congruence|]. rewrite <- Ebl in *.
  pose proof (range_sum_bounded (fun b => snd (pos b)) bl (2 ^ 40) Hne
                (fun b Hb => proj2 (Hs b Hb))) as Ha.
  set (a := py_min _ + py_max _) in *.
  rewrite py_truediv_2_small by lia. simpl.
  apply for_blocks_pure. intros b Hb. destruct (pos b) as [x y] eqn:Ep.
  assert (Hy : Z.abs y <= 2 ^ 40).
  { pose proof (proj2 (Hs b Hb)) as H. rewrite Ep in H. exact H. }
  rewrite mirrored_small by lia. simpl.
  rewrite axis_block_ok_types_only, mirror_coordinate_exact. reflexivity.
Qed.

Lemma is_least_nonempty {A} (m : Z) (f : A -> Z) (l : list A) :
  is_least m (map f l) -> l <> [].
Proof. intros [H _] ->. destruct H. Qed.

(** X1.  On a grid whose cells have pairwise different positions, at
    coordinates of magnitude at most [2 ^ 40], the two axis checks return,
    the x-reflection check with [True] exactly when the map
    [x -> min_x + max_x - x] sends every cell onto a cell of the same type,
    and the y-reflection check exactly when [y -> min_y + max_y - y] does:
    the mirrored coordinate is then a whole number computed without
    rounding, and nothing but the types is compared. *)
Theorem X1_axis_checks_are_type_reflections (bl : list Block) (x0 x1 y0 y1 : Z) :
  small_coordinates bl ->
  NoDup (map pos bl) ->
  is_least x0 (map (fun b => fst (pos b)) bl) ->
  is_greatest x1 (map (fun b => fst (pos b)) bl) ->
  is_least y0 (map (fun b => snd (pos b)) bl) ->
  is_greatest y1 (map (fun b => snd (pos b)) bl) ->
  exists h v,
    _is_horizontally_symmetric_blocks bl = Ok h /\
    _is_vertically_symmetric_blocks bl = Ok v /\
    (h = true <-> type_preserving bl (fun p => (x0 + x1 - fst p, snd p))) /\
    (v = true <-> type_preserving bl (fun p => (fst p, y0 + y1 - snd p))).
Proof.
  intros Hs Hnd Hx0 Hx1 Hy0 Hy1.
  assert (Hne : bl <> []) by exact (is_least_nonempty _ _ _ Hx0).
  assert (Hm : forall f : Block -> Z, map f bl <> []).
  { intros f E. apply Hne. now apply map_eq_nil in E. }
  rewrite (is_least_unique _ _ _ Hx0 (py_min_spec _ (Hm _))).
  rewrite (is_greatest_unique _ _ _ Hx1 (py_max_spec _ (Hm _))).
  rewrite (is_least_unique _ _ _ Hy0 (py_min_spec _ (Hm _))).
  rewrite (is_greatest_unique _ _ _ Hy1 (py_max_spec _ (Hm _))).
  rewrite (horizontal_check_exact bl Hs Hne), (vertical_check_exact bl Hs Hne).
  cbv zeta. do 2 eexists. split; [reflexivity|]. split; [reflexivity|]. split.
  - exact (reflection_check_iff bl
             (fun p => (py_min (map (fun b => fst (pos b)) bl) +
                        py_max (map (fun b => fst (pos b)) bl) - fst p, snd p)) Hnd).
  - exact (reflection_check_iff bl
             (fun p => (fst p, py_min (map (fun b => snd (pos b)) bl) +
                               py_max (map (fun b => snd (pos b)) bl) - snd p)) Hnd).
Qed.

Lemma X1_axis_checks_example :
  _is_horizontally_symmetric_blocks
    [solid 1 (0, 0); pyramid (1, 0) [1; 0; 0; 0]; solid 1 (2, 0)] = Ok true.
Proof.
  destruct (X1_axis_checks_are_type_reflections
              [solid 1 (0, 0); pyramid (1, 0) [1; 0; 0; 0]; solid 1 (2, 0)]
              0 2 0 0
              ltac:(apply small_coordinates_intro; reflexivity)
              ltac:(refine (bool_decide_unpack _ _); vm_compute; exact I)
              ltac:(split; simpl; [tauto|intros x H; lia])
              ltac:(split; simpl; [tauto|intros x H; lia])
              ltac:(split; simpl; [tauto|intros x H; lia])
              ltac:(split; simpl; [tauto|intros x H; lia]))
    as (h & v & Eh & _ & Hh & _).
  rewrite Eh. f_equal. apply Hh.
  intros b Hb. simpl in Hb.
  destruct Hb as [<-|[<-|[<-|[]]]]; simpl.
  - exists (solid 1 (2, 0)). simpl. tauto.
  - exists (pyramid (1, 0) [1; 0; 0; 0]). simpl. tauto.
  - exists (solid 1 (0, 0)). simpl. tauto.
Defined.

Lemma half_is_integer (n : Z) :
  Qeq_bool (n # 2) (inject_Z (Z.quot n 2)) = Z.even n.
Proof.
  unfold Qeq_bool. simpl. destruct (Z.even n) eqn:E.
  - apply Z.even_spec in E. destruct E as [k ->]. apply Z.eqb_eq.
    rewrite (Z.mul_comm 2 k), Z.quot_mul by discriminate. lia.
  - apply Z.eqb_neq. intros H.
    assert (Z.even n = true); [|congruence].
    apply Z.even_spec. exists (Z.quot n 2). lia.
Qed.

Lemma half_py_int (n : Z) : Z.even n = true -> Z.quot n 2 = n / 2.
Proof.
  intros E. apply Z.even_spec in E. destruct E as [k ->].
  rewrite (Z.mul_comm 2 k), Z.quot_mul, Z.div_mul by discriminate. reflexivity.
Qed.

Lemma even_div2 (a : Z) : Z.even a = true -> 2 * (a / 2) = a.
Proof.
  intros E. apply Z.even_spec in E. destruct E as [k ->].
  rewrite (Z.mul_comm 2 k), Z.div_mul by discriminate. lia.
Qed.

Lemma half_shift (a k : Z) :
  Z.even (a + 2 * k) = Z.even a /\
  (Z.even a = true -> Z.quot (a + 2 * k) 2 = a / 2 + k).
Proof.
  rewrite Z.even_add_mul_2. split; [reflexivity|]. intros E.
  rewrite half_py_int by now rewrite Z.even_add_mul_2.
  rewrite (Z.mul_comm 2 k), Z.div_add by discriminate. reflexivity.
Qed.

Lemma is_integer_plus_half (y a : Z) :
  is_integer (inject_Z y + inject_Z a / 2)%Q = Z.even a /\
  (Z.even a = true -> py_int (inject_Z y + inject_Z a / 2)%Q = y + a / 2).
Proof.
  unfold is_integer, py_int.
  change (inject_Z y + inject_Z a / 2)%Q with ((y * 2 + a * 1 * 1) # 2).
  cbn [Qnum Qden]. rewrite half_is_integer.
  replace (y * 2 + a * 1 * 1) with (a + 2 * y) by lia.
  destruct (half_shift a y) as [-> H]. split; [reflexivity|].
  intros E. rewrite (H E). lia.
Qed.

Lemma is_integer_minus_half (x a : Z) :
  is_integer (inject_Z x - inject_Z a / 2)%Q = Z.even a /\
  (Z.even a = true -> py_int (inject_Z x - inject_Z a / 2)%Q = x - a / 2).
Proof.
  unfold is_integer, py_int.
  change (inject_Z x - inject_Z a / 2)%Q with ((x * 2 + - (a * 1) * 1) # 2).
  cbn [Qnum Qden]. rewrite half_is_integer.
  replace (x * 2 + - (a * 1) * 1) with (a + 2 * (x - a)) by lia.
  destruct (half_shift a (x - a)) as [-> H]. split; [reflexivity|].
  intros E. rewrite (H E). pose proof (even_div2 a E). lia.
Qed.

Lemma is_integer_half_minus (a y : Z) :
  is_integer (inject_Z a / 2 - inject_Z y)%Q = Z.even a /\
  (Z.even a = true -> py_int (inject_Z a / 2 - inject_Z y)%Q = a / 2 - y).
Proof.
  unfold is_integer, py_int.
  change (inject_Z a / 2 - inject_Z y)%Q with ((a * 1 * 1 + - y * 2) # 2).
  cbn [Qnum Qden]. rewrite half_is_integer.
  replace (a * 1 * 1 + - y * 2) with (a + 2 * (- y)) by lia.
  destruct (half_shift a (- y)) as [-> H]. split; [reflexivity|].
  intros E. rewrite (H E). lia.
Qed.

Lemma forallb_andb_const {A} (c : bool) (f : A -> bool) (l : list A) :
  l <> [] -> forallb (fun x => c && f x) l = c && forallb f l.
Proof.
  destruct c; simpl; [reflexivity|].
  destruct l; [congruence|reflexivity].
Qed.

Lemma diagonal_values_bounded (bl : list Block) :
  small_coordinates bl ->
  (forall b, In b bl -> Z.abs (fst (pos b) - snd (pos b)) <= 2 ^ 41) /\
  (forall b, In b bl -> Z.abs (fst (pos b) + snd (pos b)) <= 2 ^ 41).
Proof.
  intros Hs. split; intros b Hb; destruct (Hs b Hb); lia.
Qed.

Lemma diagonal1_check_exact (bl : list Block) :
  small_coordinates bl -> bl <> [] ->
  let a := py_min (map (fun b => fst (pos b) - snd (pos b)) bl) +
           py_max (map (fun b => fst (pos b) - snd (pos b)) bl) in
  _is_diagonal1_symmetric_blocks bl =
  Ok (Z.even a &&
      forallb (fun b => match pos_to_block bl
                                ((fun p => (snd p + a / 2, fst p - a / 2)) (pos b)) with
                        | Some s => type b =? type s
                        | None => false
                        end) bl).
Proof.
  intros Hs Hne. cbv zeta. unfold _is_diagonal1_symmetric_blocks.
  destruct bl as [|b0 bl0] eqn:Ebl; [congruence|]. rewrite <- Ebl in *.
  pose proof (range_sum_bounded (fun b => fst (pos b) - snd (pos b)) bl (2 ^ 41) Hne
                (proj1 (diagonal_values_bounded bl Hs))) as Ha.
  set (a := py_min _ + py_max _) in *.
  rewrite py_truediv_2_small by lia. simpl.
  rewrite <- forallb_andb_const by congruence.
  apply for_blocks_pure. intros b Hb. destruct (pos b) as [x y] eqn:Ep.
  assert (Hxy : Z.abs x <= 2 ^ 40 /\ Z.abs y <= 2 ^ 40).
  { pose proof (Hs b Hb) as H. rewrite Ep in H. exact H. }
  rewrite plus_half_small by lia. simpl.
  rewrite minus_half_small by lia. simpl.
  f_equal. unfold diagonal_block_ok.
  destruct (is_integer_plus_half y a) as [-> Hx].
  destruct (is_integer_minus_half x a) as [-> Hy].
  destruct (Z.even a); [|reflexivity].
  rewrite Hx, Hy by reflexivity. simpl.
  destruct (pos_to_block bl (y + a / 2, x - a / 2)) as [s|]; [|reflexivity].
  destruct (type b =? type s); reflexivity.
Qed.

Lemma diagonal2_check_exact (bl : list Block) :
  small_coordinates bl -> bl <> [] ->
  let a := py_min (map (fun b => fst (pos b) + snd (pos b)) bl) +
           py_max (map (fun b => fst (pos b) + snd (pos b)) bl) in
  _is_diagonal2_symmetric_blocks bl =
  Ok (Z.even a &&
      forallb (fun b => match pos_to_block bl
                                ((fun p => (a / 2 - snd p, a / 2 - fst p)) (pos b)) with
                        | Some s => type b =? type s
                        | None => false
                        end) bl).
Proof.
  intros Hs Hne. cbv zeta. unfold _is_diagonal2_symmetric_blocks.
  destruct bl as [|b0 bl0] eqn:Ebl; [congruence|]. rewrite <- Ebl in *.
  pose proof (range_sum_bounded (fun b => fst (pos b) + snd (pos b)) bl (2 ^ 41) Hne
                (proj2 (diagonal_values_bounded bl Hs))) as Ha.
  set (a := py_min _ + py_max _) in *.
  rewrite py_truediv_2_small by lia. simpl.
  rewrite <- forallb_andb_const by congruence.
  apply for_blocks_pure. intros b Hb. destruct (pos b) as [x y] eqn:Ep.
  assert (Hxy : Z.abs x <= 2 ^ 40 /\ Z.abs y <= 2 ^ 40).
  { pose proof (Hs b Hb) as H. rewrite Ep in H. exact H. }
  rewrite (half_minus_small a y) by lia. simpl.
  rewrite (half_minus_small a x) by lia. simpl.
  f_equal. unfold diagonal_block_ok.
  destruct (is_integer_half_minus a y) as [-> Hx].
  destruct (is_integer_half_minus a x) as [-> Hy].
  destruct (Z.even a); [|reflexivity].
  rewrite Hx, Hy by reflexivity. simpl.
  destruct (pos_to_block bl (a / 2 - y, a / 2 - x)) as [s|]; [|reflexivity].
  destruct (type b =? type s); reflexivity.
Qed.

(** X2.  On a grid whose cells have pairwise different positions, at
    coordinates of magnitude at most [2 ^ 40], the two diagonal checks
    return.  The check of the diagonal [x - y = c] returns [True] exactly
    when the least and the greatest value of [x - y] have an even sum [2c]
    and the map [(x, y) -> (y + c, x - c)] sends every cell onto a cell of
    the same type; the check of the diagonal [x + y = c] likewise with the
    values of [x + y] and the map [(x, y) -> (c - y, c - x)].  With an odd
    sum the check returns [False]. *)
Theorem X2_diagonal_checks_are_type_reflections (bl : list Block) (d0 d1 s0 s1 : Z) :
  small_coordinates bl ->
  NoDup (map pos bl) ->
  is_least d0 (map (fun b => fst (pos b) - snd (pos b)) bl) ->
  is_greatest d1 (map (fun b => fst (pos b) - snd (pos b)) bl) ->
  is_least s0 (map (fun b => fst (pos b) + snd (pos b)) bl) ->
  is_greatest s1 (map (fun b => fst (pos b) + snd (pos b)) bl) ->
  exists r1 r2,
    _is_diagonal1_symmetric_blocks bl = Ok r1 /\
    _is_diagonal2_symmetric_blocks bl = Ok r2 /\
    (r1 = true <->
     Z.even (d0 + d1) = true /\
     type_preserving bl (fun p => (snd p + (d0 + d1) / 2, fst p - (d0 + d1) / 2))) /\
    (r2 = true <->
     Z.even (s0 + s1) = true /\
     type_preserving bl (fun p => ((s0 + s1) / 2 - snd p, (s0 + s1) / 2 - fst p))).
Proof.
  intros Hs Hnd Hd0 Hd1 Hs0 Hs1.
  assert (Hne : bl <> []) by exact (is_least_nonempty _ _ _ Hd0).
  assert (Hm : forall f : Block -> Z, map f bl <> []).
  { intros f E. apply Hne. now apply map_eq_nil in E. }
  rewrite (is_least_unique _ _ _ Hd0 (py_min_spec _ (Hm _))).
  rewrite (is_greatest_unique _ _ _ Hd1 (py_max_spec _ (Hm _))).
  rewrite (is_least_unique _ _ _ Hs0 (py_min_spec _ (Hm _))).
  rewrite (is_greatest_unique _ _ _ Hs1 (py_max_spec _ (Hm _))).
  rewrite (diagonal1_check_exact bl Hs Hne), (diagonal2_check_exact bl Hs Hne).
  cbv zeta. do 2 eexists. split; [reflexivity|]. split; [reflexivity|]. split.
  - rewrite andb_true_iff.
    apply and_iff_compat_l.
    set (a := py_min _ + py_max _).
    exact (reflection_check_iff bl
             (fun p => (snd p + a / 2, fst p - a / 2)) Hnd).
  - rewrite andb_true_iff.
    apply and_iff_compat_l.
    set (a := py_min _ + py_max _).
    exact (reflection_check_iff bl
             (fun p => (a / 2 - snd p, a / 2 - fst p)) Hnd).
Qed.

Lemma X2_diagonal_checks_example :
  _is_diagonal1_symmetric_blocks [solid 1 (0, 0); solid 1 (1, 0)] = Ok false.
Proof.
  destruct (X2_diagonal_checks_are_type_reflections
              [solid 1 (0, 0); solid 1 (1, 0)] 0 1 0 1
              ltac:(apply small_coordinates_intro; reflexivity)
              ltac:(refine (bool_decide_unpack _ _); vm_compute; exact I)
              ltac:(split; simpl; [tauto|intros x H; lia])
              ltac:(split; simpl; [tauto|intros x H; lia])
              ltac:(split; simpl; [tauto|intros x H; lia])
              ltac:(split; simpl; [tauto|intros x H; lia]))
    as (r1 & r2 & E1 & _ & H1 & _).
  rewrite E1. f_equal. destruct r1; [|reflexivity].
  destruct (proj1 H1 eq_refl) as [E _]. discriminate E.
Defined.

Lemma constant_coordinate_range {A} (f : A -> Z) (l : list A) (c : Z) :
  l <> [] -> (forall a, In a l -> f a = c) ->
  py_min (map f l) = c /\ py_max (map f l) = c.
Proof.
  intros Hne Hc.
  assert (Hm : map f l <> []) by (intros E; now apply map_eq_nil in E).
  assert (Hall : forall x, In x (map f l) -> x = c).
  { intros x Hx. apply in_map_iff in Hx. destruct Hx as (a & <- & Ha). now apply Hc. }
  destruct (py_min_spec _ Hm) as [H1 _]. destruct (py_max_spec _ Hm) as [H2 _].
  split; now apply Hall.
Qed.

(** At small coordinates the mirror check returns. *)
Lemma check_mirror_returns (bs : BlockSet) :
  small_coordinates (blocks bs) -> exists b, _check_mirror bs = Ok b.
Proof.
  intros Hs. unfold _check_mirror.
  destruct (length (blocks bs) <=? 1)%nat eqn:El; [eauto|].
  assert (Hne : blocks bs <> []).
  { intros E. rewrite E in El. discriminate. }
  rewrite (horizontal_check_exact _ Hs Hne), (vertical_check_exact _ Hs Hne),
    (diagonal1_check_exact _ Hs Hne), (diagonal2_check_exact _ Hs Hne).
  cbv zeta. unfold py_or. simpl.
  repeat match goal with
         | |- context [if ?c then _ else _] => destruct c; simpl
         end; eauto.
Qed.

(** X3.  A grid whose cells have pairwise different positions, at
    coordinates of magnitude at most [2 ^ 40], and all lie on one row, or
    all on one column, passes the mirror check (and the symmetry check,
    which is the same function) whatever the types and faces of its cells:
    the reflection along the line maps every cell onto itself. *)
Theorem X3_straight_line_passes_mirror (bs : BlockSet) (c : Z) :
  small_coordinates (blocks bs) ->
  NoDup (map pos (blocks bs)) ->
  (forall b, In b (blocks bs) -> snd (pos b) = c) \/
  (forall b, In b (blocks bs) -> fst (pos b) = c) ->
  _check_mirror bs = Ok true /\ _check_symmetry bs = Ok true.
Proof.
  intros Hs Hnd Hline. unfold _check_symmetry.
  enough (_check_mirror bs = Ok true) by auto.
  unfold _check_mirror. destruct (length (blocks bs) <=? 1)%nat eqn:El; [reflexivity|].
  assert (Hne : blocks bs <> []).
  { intros E. rewrite E in El. discriminate. }
  rewrite (horizontal_check_exact _ Hs Hne), (vertical_check_exact _ Hs Hne).
  cbv zeta. unfold py_or at 1 2. cbn [mbind result_bind].
  destruct Hline as [Hrow|Hcol].
  - match goal with |- (if ?h then _ else _) = _ => destruct h end; [reflexivity|].
    assert (forallb
              (fun b => match pos_to_block (blocks bs)
                                (fst (pos b),
                                 py_min (map (fun b => snd (pos b)) (blocks bs)) +
                                 py_max (map (fun b => snd (pos b)) (blocks bs)) -
                                 snd (pos b)) with
                        | Some s => type b =? type s
                        | None => false
                        end) (blocks bs) = true) as ->; [|reflexivity].
    destruct (constant_coordinate_range (fun b => snd (pos b)) _ c Hne Hrow) as [-> ->].
    apply forallb_forall. intros b Hb.
    replace (fst (pos b), c + c - snd (pos b)) with (pos b).
    + rewrite (pos_to_block_In _ b Hnd Hb). apply Z.eqb_refl.
    + rewrite (Hrow b Hb). destruct (pos b) as [x y] eqn:E. simpl.
      f_equal. pose proof (Hrow b Hb) as H. rewrite E in H. simpl in H. lia.
  - assert (forallb
              (fun b => match pos_to_block (blocks bs)
                                (py_min (map (fun b => fst (pos b)) (blocks bs)) +
                                 py_max (map (fun b => fst (pos b)) (blocks bs)) -
                                 fst (pos b), snd (pos b)) with
                        | Some s => type b =? type s
                        | None => false
                        end) (blocks bs) = true) as ->; [|reflexivity].
    destruct (constant_coordinate_range (fun b => fst (pos b)) _ c Hne Hcol) as [-> ->].
    apply forallb_forall. intros b Hb.
    replace (c + c - fst (pos b), snd (pos b)) with (pos b).
    + rewrite (pos_to_block_In _ b Hnd Hb). apply Z.eqb_refl.
    + rewrite (Hcol b Hb). destruct (pos b) as [x y] eqn:E. simpl.
      f_equal. pose proof (Hcol b Hb) as H. rewrite E in H. simpl in H. lia.
Qed.

Lemma X3_straight_line_example :
  _check_mirror (grid_of [solid 1 (0, 0); solid 2 (1, 0); pyramid (5, 0) [1; 2; 0; 0]])
  = Ok true.
Proof.
  refine (proj1 (X3_straight_line_passes_mirror
            (grid_of [solid 1 (0, 0); solid 2 (1, 0); pyramid (5, 0) [1; 2; 0; 0]])
            0 _ _ _)).
  - apply small_coordinates_intro. reflexivity.
  - refine (bool_decide_unpack _ _); vm_compute; exact I.
  - left. simpl. intros b [<-|[<-|[<-|[]]]]; reflexivity.
Defined.

(** ** The dictionary [check_constraints] returns *)

Lemma dict_set_In (k : string) (v : bool) (d : Results) (n : string) (r : bool) :
  In (n, r) (dict_set k v d) -> (n = k /\ r = v) \/ In (n, r) d.
Proof.
  induction d as [|[k' v'] d IH]; simpl.
  - intros [H|[]]. left. now inversion H.
  - destruct (String.eqb_spec k' k) as [->|N]; simpl.
    + intros [H|H]; [left; now inversion H | right; now right].
    + intros [H|H]; [right; now left|].
      destruct (IH H) as [?|?]; [now left | right; now right].
Qed.

Lemma dict_set_keys (k : string) (v : bool) (d : Results) (n : string) :
  In n (map fst (dict_set k v d)) <-> n = k \/ In n (map fst d).
Proof.
  induction d as [|[k' v'] d IH]; simpl.
  - intuition.
  - destruct (String.eqb_spec k' k) as [->|N]; simpl; [intuition|].
    rewrite IH. intuition.
Qed.

Lemma dict_set_NoDup (k : string) (v : bool) (d : Results) :
  NoDup (map fst d) -> NoDup (map fst (dict_set k v d)).
Proof.
  induction d as [|[k' v'] d IH]; simpl; intros Hnd.
  - repeat constructor. intros H. inversion H.
  - destruct (String.eqb_spec k' k) as [->|N]; simpl; [exact Hnd|].
    inversion Hnd as [|? ? Hn Hnd']; subst. constructor; [|now apply IH].
    rewrite list_elem_of_In, dict_set_keys. intros [E|H]; [congruence|].
    apply Hn, list_elem_of_In, H.
Qed.

Lemma check_constraints_from_spec (bs : BlockSet) (stage : Stage)
      (names : list string) (acc results : Results) :
  check_constraints_from acc bs names stage = Ok results ->
  NoDup (map fst acc) ->
  (forall n r, In (n, r) acc -> check_one bs n stage = Ok r) ->
  NoDup (map fst results) /\
  (forall n, In n (map fst results) <-> In n (map fst acc) \/ In n names) /\
  (forall n r, In (n, r) results -> check_one bs n stage = Ok r).
Proof.
  revert acc. induction names as [|name names IH]; simpl; intros acc H Hnd Hacc.
  - injection H as <-. split; [exact Hnd|]. split; [intuition|exact Hacc].
  - destruct (check_one bs name stage) as [r| | |] eqn:E; try discriminate.
    simpl in H. apply IH in H.
    + destruct H as (H1 & H2 & H3). split; [exact H1|]. split; [|exact H3].
      intros n. rewrite H2, dict_set_keys. intuition.
    + now apply dict_set_NoDup.
    + intros n r' Hin. apply dict_set_In in Hin.
      destruct Hin as [[-> ->]|Hin]; [exact E|now apply Hacc].
Qed.

(** X4.  The dictionary [check_constraints] returns has exactly one entry for
    each requested name, however often the name is requested, and the value
    of an entry is the result of that constraint's check at the stage. *)
Theorem X4_check_constraints_dictionary (bs : BlockSet) (names : list string)
        (stage : Stage) (results : Results) :
  check_constraints bs names stage = Ok results ->
  NoDup (map fst results) /\
  (forall n, In n (map fst results) <-> In n names) /\
  (forall n r, In (n, r) results -> check_one bs n stage = Ok r).
Proof.
  intros H. apply check_constraints_from_spec in H.
  - destruct H as (H1 & H2 & H3). split; [exact H1|]. split; [|exact H3].
    intros n. rewrite H2. simpl. intuition.
  - constructor.
  - intros n r [].
Qed.

Lemma X4_check_constraints_dictionary_example :
  check_one (grid_of [solid 1 (0, 0); solid 2 (2, 0)]) "sail" Movement = Ok true.
Proof.
  refine (proj2 (proj2 (X4_check_constraints_dictionary
            (grid_of [solid 1 (0, 0); solid 2 (2, 0)]) ["sail"; "mirror"; "sail"]
            Movement [("sail", true); ("mirror", true)] _)) "sail" true _).
  - vm_compute. reflexivity.
  - simpl. auto.
Defined.

Lemma check_one_selection_failure (bs : BlockSet) (n : string) :
  check_one bs n Selection = Ok false ->
  n = "glue" \/ n = "symmetry" \/ n = "pyramid".
Proof.
  unfold check_one. cbn [is_selection is_movement].
  destruct (String.eqb_spec n "glue") as [->|_]; [auto|].
  destruct (String.eqb_spec n "mirror") as [->|_].
  { simpl. destruct (_check_mirror bs); simpl; discriminate. }
  destruct (String.eqb_spec n "symmetry") as [->|_]; [auto|].
  destruct (String.eqb_spec n "pyramid") as [->|_]; [auto|].
  destruct (String.eqb_spec n "sail") as [->|_].
  { simpl. destruct (_check_sail bs); simpl; discriminate. }
  simpl. discriminate.
Qed.

Lemma check_one_movement_failure (bs : BlockSet) (n : string) :
  check_one bs n Movement = Ok false ->
  n = "mirror" \/ n = "symmetry" \/ n = "pyramid" \/ n = "sail".
Proof.
  unfold check_one. cbn [is_selection is_movement].
  destruct (String.eqb_spec n "glue") as [->|_].
  { simpl. destruct (_check_glue bs); simpl; discriminate. }
  destruct (String.eqb_spec n "mirror") as [->|_]; [auto|].
  destruct (String.eqb_spec n "symmetry") as [->|_]; [auto|].
  destruct (String.eqb_spec n "pyramid") as [->|_]; [auto|].
  destruct (String.eqb_spec n "sail") as [->|_]; [auto 6|].
  simpl. discriminate.
Qed.

(** X5.  Which constraints can be reported as failed depends on the stage:
    at the selection stage only [glue], [symmetry] and [pyramid] can fail
    ([mirror], [sail] and unknown names always pass), and at the movement
    stage only [mirror], [symmetry], [pyramid] and [sail] can ([glue] and
    unknown names always pass). *)
Theorem X5_failing_names_by_stage (bs : BlockSet) (names : list string)
        (stage : Stage) (results : Results) (n : string) :
  check_constraints bs names stage = Ok results ->
  In n (failed_names results) ->
  In n names /\
  match stage with
  | Selection => n = "glue" \/ n = "symmetry" \/ n = "pyramid"
  | Movement => n = "mirror" \/ n = "symmetry" \/ n = "pyramid" \/ n = "sail"
  end.
Proof.
  intros H Hn. apply check_constraints_from_spec in H;
    [|constructor|intros ? ? []].
  destruct H as (_ & H2 & H3). apply failed_names_spec in Hn. split.
  - apply (in_map fst) in Hn. apply H2 in Hn. simpl in Hn. tauto.
  - apply H3 in Hn. destruct stage.
    + exact (check_one_selection_failure bs n Hn).
    + exact (check_one_movement_failure bs n Hn).
Qed.

Lemma X5_failing_names_example :
  In "glue" ["glue"; "mirror"] /\
  ("glue" = "glue" \/ "glue" = "symmetry" \/ "glue" = "pyramid").
Proof.
  refine (X5_failing_names_by_stage
            (mkBlockSet [set_selected true (solid 1 (0, 0)); solid 2 (1, 0);
                         set_selected true (solid 1 (2, 1))] [0%nat; 2%nat] false)
            ["glue"; "mirror"] Selection
            [("glue", false); ("mirror", true)] "glue" _ _).
  - vm_compute. reflexivity.
  - vm_compute. auto.
Defined.

Lemma check_sail_returns (bs : BlockSet) :
  small_coordinates (blocks bs) ->
  Forall (fun c => type c = 3 -> (4 <= length (detailed_information c))%nat)
         (blocks bs) ->
  exists b, _check_sail bs = Ok b.
Proof.
  intros Hs Hwf. destruct (sail_nodes_ok (blocks bs) Hs Hwf) as [nodes Hn].
  exact (check_sail_returns_on_nodes bs nodes Hs Hn).
Qed.

Lemma check_glue_returns (bs : BlockSet) : exists b, _check_glue bs = Ok b.
Proof.
  unfold _check_glue. destruct (get_all_positions bs); [eauto|].
  apply is_connected_total.
Qed.

Lemma check_one_returns (bs : BlockSet) (n : string) (stage : Stage) :
  small_coordinates (blocks bs) ->
  n <> "sail" \/
  Forall (fun c => type c = 3 -> (4 <= length (detailed_information c))%nat)
         (blocks bs) ->
  exists r, check_one bs n stage = Ok r.
Proof.
  intros Hs Hwf. unfold check_one.
  destruct (String.eqb_spec n "glue") as [->|_].
  { destruct (check_glue_returns bs) as [b ->]. simpl. eauto. }
  destruct (String.eqb_spec n "mirror") as [->|_].
  { destruct (check_mirror_returns bs Hs) as [b ->]. simpl. eauto. }
  destruct (String.eqb_spec n "symmetry") as [->|_].
  { unfold _check_symmetry. destruct (check_mirror_returns bs Hs) as [b ->].
    simpl. eauto. }
  destruct (String.eqb_spec n "pyramid") as [->|_]; [simpl; eauto|].
  destruct (String.eqb_spec n "sail") as [->|_]; [|simpl; eauto].
  destruct Hwf as [N|Hwf]; [congruence|].
  destruct (check_sail_returns bs Hs Hwf) as [b Hb]. rewrite Hb. simpl.
  destruct stage; simpl; eauto.
Qed.

Lemma check_constraints_from_returns (bs : BlockSet) (stage : Stage)
      (names : list string) (acc : Results) :
  small_coordinates (blocks bs) ->
  ~ In "sail" names \/
  Forall (fun c => type c = 3 -> (4 <= length (detailed_information c))%nat)
         (blocks bs) ->
  exists results, check_constraints_from acc bs names stage = Ok results.
Proof.
  intros Hs Hwf. revert acc. induction names as [|n names IH]; intros acc; simpl;
    [eauto|].
  destruct (check_one_returns bs n stage Hs) as [r ->].
  - destruct Hwf as [N|Hwf]; [|now right]. left. intros ->. apply N. now left.
  - simpl. apply IH. destruct Hwf as [N|Hwf]; [|now right].
    left. intros H. apply N. now right.
Qed.

(** X6.  On a grid whose cells lie at coordinates of magnitude at most
    [2 ^ 40], evaluating the required constraints returns a dictionary, at
    either stage, when [sail] is not among the names or every pyramid cell
    has at least four face entries: no float operation overflows, no other
    index is out of range, and both traversals end. *)
Theorem X6_check_constraints_returns (bs : BlockSet) (names : list string)
        (stage : Stage) :
  small_coordinates (blocks bs) ->
  ~ In "sail" names \/
  Forall (fun c => type c = 3 -> (4 <= length (detailed_information c))%nat)
         (blocks bs) ->
  exists results, check_constraints bs names stage = Ok results.
Proof. apply check_constraints_from_returns. Qed.

Lemma X6_check_constraints_returns_example :
  exists results,
    check_constraints (grid_of [solid 2 (0, 0); pyramid (1, 0) [0; 0; 2]])
                      ["glue"; "pyramid"; "mirror"] Movement = Ok results.
Proof.
  apply X6_check_constraints_returns.
  - apply small_coordinates_intro. reflexivity.
  - left. simpl. intros [H|[H|[H|[]]]]; discriminate H.
Defined.

(** X7.  On a grid whose cells lie at coordinates of magnitude at most
    [2 ^ 40], when [sail] is among the required names and some pyramid cell
    has fewer than four face entries, the evaluation raises [IndexError] at
    the movement stage and also at the selection stage, where the result of
    [sail] would be discarded: the sail check is called before the stage is
    looked at. *)
Theorem X7_sail_raises_at_either_stage (bs : BlockSet) (names : list string)
        (stage : Stage) :
  small_coordinates (blocks bs) ->
  In "sail" names ->
  Exists (fun c => type c = 3 /\ (length (detailed_information c) < 4)%nat)
         (blocks bs) ->
  check_constraints bs names stage = Raise IndexError.
Proof.
  intros Hs Hin Hshort. unfold check_constraints. generalize (@nil (string * bool)).
  induction names as [|n names IH]; intros acc; [destruct Hin|]. simpl.
  destruct (String.eqb_spec n "sail") as [->|N].
  - unfold check_one. simpl. unfold _check_sail.
    rewrite (sail_nodes_short _ Hs Hshort). reflexivity.
  - destruct (check_one_returns bs n stage Hs (or_introl N)) as [r ->]. simpl.
    apply IH. destruct Hin as [E|Hin]; [congruence|exact Hin].
Qed.

Lemma X7_sail_raises_example :
  check_constraints (grid_of [solid 2 (0, 0); pyramid (1, 0) [0; 0; 2]])
                    ["glue"; "sail"] Selection = Raise IndexError.
Proof.
  apply X7_sail_raises_at_either_stage.
  - apply small_coordinates_intro. reflexivity.
  - simpl. auto.
  - simpl. right. left. split; [reflexivity|simpl; lia].
Defined.

(** ** The pyramid constraint, face by face *)

Lemma face_neighbor_opposite (k : nat) (p : Pos) :
  (k < 4)%nat -> face_neighbor (opposite_face k) (face_neighbor k p) = p.
Proof.
  destruct p as [x y]. destruct k as [|[|[|[|k]]]]; simpl; intros H;
    try (f_equal; lia).
Qed.

Lemma opposite_face_involutive (k : nat) :
  (k < 4)%nat -> opposite_face (opposite_face k) = k /\ (opposite_face k < 4)%nat.
Proof. destruct k as [|[|[|[|k]]]]; simpl; lia. Qed.

(** The check of face [k] against an occupied position. *)
Lemma check_adjacent_occupied (p : Pos) (requirement : Z)
      (dict : Pos -> option Block) (strict : bool) (k : nat) (n : Block) :
  (k < 4)%nat -> dict p = Some n ->
  _check_pyramid_adjacent p requirement dict strict (face_name k) =
  if (type n =? 1) || (type n =? 2) then requirement =? type n
  else if (type n =? 3) && (4 <=? length (detailed_information n))%nat
       then nth (opposite_face k) (detailed_information n) 0 =? requirement
       else false.
Proof.
  intros Hk Hd. unfold _check_pyramid_adjacent. rewrite Hd.
  rewrite bool_decide_eq_true_2 by eauto. rewrite andb_false_r.
  destruct (Z.eqb_spec (type n) 1) as [E1|N1]; simpl.
  - rewrite E1. change (1 =? 1) with true. change (1 =? 2) with false.
    rewrite andb_true_r, andb_false_r, orb_false_r. reflexivity.
  - destruct (Z.eqb_spec (type n) 2) as [E2|N2]; simpl.
    + rewrite E2. change (2 =? 1) with false. change (2 =? 2) with true.
      rewrite andb_true_r, andb_false_r. reflexivity.
    + destruct (type n =? 3); simpl; [|reflexivity].
      destruct (length (detailed_information n)) as [|[|[|[|m]]]]; try reflexivity.
      destruct k as [|[|[|[|k]]]]; try reflexivity; lia.
Qed.

Lemma check_adjacent_iff (p : Pos) (b : Block) (dict : Pos -> option Block)
      (strict : bool) (k : nat) :
  (k < 4)%nat ->
  _check_pyramid_adjacent p (nth k (detailed_information b) 0) dict strict
                          (face_name k) = true <->
  match dict p with
  | Some n => face_agrees b k n
  | None => strict = false \/ nth k (detailed_information b) 0 = 0
  end.
Proof.
  intros Hk. destruct (dict p) as [n|] eqn:Hd.
  - rewrite (check_adjacent_occupied p _ dict strict k n Hk Hd). unfold face_agrees.
    destruct (Z.eqb_spec (type n) 1) as [E1|N1]; cbn [orb].
    { rewrite Z.eqb_eq. split; [intros H; left; split; [now left|exact H]|].
      intros [[_ H]|[H _]]; [exact H|congruence]. }
    destruct (Z.eqb_spec (type n) 2) as [E2|N2]; cbn [orb].
    { rewrite Z.eqb_eq. split; [intros H; left; split; [now right|exact H]|].
      intros [[_ H]|[H _]]; [exact H|congruence]. }
    destruct (Z.eqb_spec (type n) 3) as [E3|N3]; cbn [andb].
    + destruct (Nat.leb_spec 4 (length (detailed_information n))) as [L|L].
      * rewrite Z.eqb_eq. split; [intros H; right; auto|].
        intros [[[H|H] _]|(_ & _ & H)]; [congruence|congruence|exact H].
      * split; [discriminate|].
        intros [[[H|H] _]|(_ & H & _)]; [congruence|congruence|lia].
    + split; [discriminate|]. intros [[[H|H] _]|(H & _)]; congruence.
  - unfold _check_pyramid_adjacent. rewrite Hd, face_name_known.
    rewrite bool_decide_eq_false_2 by (intros [? H]; discriminate H).
    cbn [negb andb]. rewrite andb_true_r.
    destruct (Z.eqb_spec (nth k (detailed_information b) 0) 0) as [E|N];
      cbn [negb andb].
    + split; auto.
    + rewrite andb_true_r. destruct strict; split; auto; try discriminate.
      intros [H|H]; [discriminate|contradiction].
Qed.

Lemma pyramid_block_ok_iff (dict : Pos -> option Block) (strict : bool) (b : Block) :
  is_pyramid b ->
  pyramid_block_ok dict strict b = true <->
  forall k, (k < 4)%nat ->
    _check_pyramid_adjacent (face_neighbor k (pos b))
                            (nth k (detailed_information b) 0) dict strict
                            (face_name k) = true.
Proof.
  intros [Ht Hl]. unfold pyramid_block_ok. rewrite Ht.
  apply Nat.leb_le in Hl. rewrite Hl. simpl.
  destruct (pos b) as [x y]. split.
  - intros H k Hk.
    destruct (_check_pyramid_adjacent (x, y - 1) _ dict strict "top") eqn:E0;
      [|discriminate].
    destruct (_check_pyramid_adjacent (x, y + 1) _ dict strict "bottom") eqn:E1;
      [|discriminate].
    destruct (_check_pyramid_adjacent (x - 1, y) _ dict strict "left") eqn:E2;
      [|discriminate].
    destruct (_check_pyramid_adjacent (x + 1, y) _ dict strict "right") eqn:E3;
      [|discriminate].
    destruct k as [|[|[|[|k]]]]; simpl; try assumption; lia.
  - intros H.
    pose proof (H 0%nat ltac:(lia)) as H0. pose proof (H 1%nat ltac:(lia)) as H1.
    pose proof (H 2%nat ltac:(lia)) as H2. pose proof (H 3%nat ltac:(lia)) as H3.
    simpl in H0, H1, H2, H3. rewrite H0, H1, H2, H3. reflexivity.
Qed.

Lemma pyramid_block_ok_other (dict : Pos -> option Block) (strict : bool) (b : Block) :
  ~ is_pyramid b -> pyramid_block_ok dict strict b = true.
Proof.
  intros H. unfold pyramid_block_ok.
  destruct (Z.eqb_spec (type b) 3) as [E|N]; cbn [andb]; [|reflexivity].
  destruct (Nat.leb_spec 4 (length (detailed_information b))) as [L|L];
    [|reflexivity].
  exfalso. apply H. split; assumption.
Qed.

Lemma is_pyramid_dec (b : Block) : is_pyramid b \/ ~ is_pyramid b.
Proof.
  unfold is_pyramid. destruct (Z.eq_dec (type b) 3);
    destruct (le_dec 4 (length (detailed_information b))); tauto.
Qed.

(** The loop over the cells of [bl], at either stage: it passes exactly when
    every face of every pyramid agrees with the cell it looks at, and, at the
    movement stage, has no colour where it looks at no cell. *)
Lemma pyramid_loop_iff (bl : list Block) (strict : bool) :
  NoDup (map pos bl) ->
  forallb (pyramid_block_ok (pos_to_block bl) strict) bl = true <->
  forall b k, In b bl -> is_pyramid b -> (k < 4)%nat ->
    (forall n, In n bl -> pos n = face_neighbor k (pos b) -> face_agrees b k n) /\
    (strict = true ->
     (forall n, In n bl -> pos n <> face_neighbor k (pos b)) ->
     nth k (detailed_information b) 0 = 0).
Proof.
  intros Hnd. rewrite forallb_forall. split.
  - intros H b k Hb Hp Hk. specialize (H b Hb).
    rewrite (pyramid_block_ok_iff _ _ _ Hp) in H. specialize (H k Hk).
    rewrite (check_adjacent_iff _ b _ _ _ Hk) in H. split.
    + intros n Hn Hpos. rewrite <- Hpos, (pos_to_block_In bl n Hnd Hn) in H. exact H.
    + intros Hs Hnone.
      destruct (pos_to_block bl (face_neighbor k (pos b))) as [n|] eqn:E.
      * apply pos_to_block_Some in E. destruct E as [Hn Hpos].
        exfalso. exact (Hnone n Hn Hpos).
      * destruct H as [H|H]; [congruence|exact H].
  - intros H b Hb. destruct (is_pyramid_dec b) as [Hp|Hp];
      [|now apply pyramid_block_ok_other].
    rewrite (pyramid_block_ok_iff _ _ _ Hp). intros k Hk.
    rewrite (check_adjacent_iff _ b _ _ _ Hk).
    destruct (H b k Hb Hp Hk) as [H1 H2].
    destruct (pos_to_block bl (face_neighbor k (pos b))) as [n|] eqn:E.
    + apply pos_to_block_Some in E. destruct E as [Hn Hpos]. now apply H1.
    + destruct strict; [right|now left]. apply H2; [reflexivity|].
      intros n Hn Hpos. rewrite pos_to_block_None in E.
      specialize (E n Hn). rewrite Hpos, pos_eqb_refl in E. discriminate.
Qed.

(** X8.  On a grid whose cells have pairwise different positions, the
    movement-stage pyramid check passes exactly when, for each of the four
    faces of each pyramid, the cell the face looks at agrees with it (a solid
    cell of the face's colour, or a pyramid showing the same value on the
    face that looks back) and a face that looks at no cell has no colour. *)
Theorem X8_pyramid_movement_meaning (bs : BlockSet) :
  NoDup (map pos (blocks bs)) ->
  _check_pyramid_movement bs = true <->
  forall b k, In b (blocks bs) -> is_pyramid b -> (k < 4)%nat ->
    (forall n, In n (blocks bs) -> pos n = face_neighbor k (pos b) ->
               face_agrees b k n) /\
    ((forall n, In n (blocks bs) -> pos n <> face_neighbor k (pos b)) ->
     nth k (detailed_information b) 0 = 0).
Proof.
  intros Hnd. unfold _check_pyramid_movement.
  destruct (blocks bs) as [|b0 bl0] eqn:E.
  - split; [|reflexivity]. intros _ b k [].
  - rewrite <- E in *. rewrite (pyramid_loop_iff _ true Hnd).
    split; intros H b k Hb Hp Hk; destruct (H b k Hb Hp Hk) as [H1 H2]; auto.
Qed.

Lemma X8_pyramid_movement_example :
  _check_pyramid_movement
    (grid_of [solid 1 (0, 0); pyramid (1, 0) [0; 0; 1; 2]; pyramid (2, 0) [0; 0; 2; 0]])
  = true <->
  forall b k,
    In b [solid 1 (0, 0); pyramid (1, 0) [0; 0; 1; 2]; pyramid (2, 0) [0; 0; 2; 0]] ->
    is_pyramid b -> (k < 4)%nat ->
    (forall n, In n [solid 1 (0, 0); pyramid (1, 0) [0; 0; 1; 2];
                     pyramid (2, 0) [0; 0; 2; 0]] ->
               pos n = face_neighbor k (pos b) -> face_agrees b k n) /\
    ((forall n, In n [solid 1 (0, 0); pyramid (1, 0) [0; 0; 1; 2];
                      pyramid (2, 0) [0; 0; 2; 0]] ->
                pos n <> face_neighbor k (pos b)) ->
     nth k (detailed_information b) 0 = 0).
Proof.
  apply (X8_pyramid_movement_meaning
           (grid_of [solid 1 (0, 0); pyramid (1, 0) [0; 0; 1; 2];
                     pyramid (2, 0) [0; 0; 2; 0]])).
  refine (bool_decide_unpack _ _); vm_compute; exact I.
Defined.

Lemma NoDup_map_filter {A B} (f : A -> B) (P : A -> Prop)
      `{forall x, Decision (P x)} (l : list A) :
  NoDup (map f l) -> NoDup (map f (filter P l)).
Proof.
  induction l as [|a l IH]; simpl; intros Hnd; [constructor|].
  inversion Hnd as [|? ? Hn Hnd']; subst.
  destruct (decide (P a)) as [Hp|Hp].
  - rewrite filter_cons_True by assumption. simpl. constructor; [|now apply IH].
    intros Hin. apply Hn. apply list_elem_of_In, in_map_iff in Hin.
    destruct Hin as (x & <- & Hx). apply list_elem_of_In, in_map.
    apply list_elem_of_In in Hx. apply list_elem_of_filter in Hx as [_ Hx].
    now apply list_elem_of_In.
  - rewrite filter_cons_False by assumption. now apply IH.
Qed.

Lemma In_filter_selected (bl : list Block) (b : Block) :
  In b (filter (fun b => selected b = true) bl) <-> In b bl /\ selected b = true.
Proof.
  rewrite <- !list_elem_of_In, list_elem_of_filter. tauto.
Qed.

(** X9.  On a grid whose cells have pairwise different positions, the
    selection-stage pyramid check passes exactly when every face of every
    selected pyramid agrees with the selected cell it looks at, if there is
    one: cells that are not selected are not looked at, and a coloured face
    with no selected neighbour is no objection. *)
Theorem X9_pyramid_selection_meaning (bs : BlockSet) :
  NoDup (map pos (blocks bs)) ->
  _check_pyramid_selection bs = true <->
  forall b k n,
    In b (blocks bs) -> selected b = true -> is_pyramid b -> (k < 4)%nat ->
    In n (blocks bs) -> selected n = true -> pos n = face_neighbor k (pos b) ->
    face_agrees b k n.
Proof.
  intros Hnd. unfold _check_pyramid_selection.
  pose proof (NoDup_map_filter pos (fun b => selected b = true) _ Hnd) as Hnd'.
  pose proof (In_filter_selected (blocks bs)) as Hin.
  destruct (filter (fun b => selected b = true) (blocks bs)) as [|b0 bl0] eqn:E.
  - split; [|reflexivity]. intros _ b k n Hb Hs. exfalso.
    apply (proj2 (Hin b)). auto.
  - rewrite <- E in *. rewrite (pyramid_loop_iff _ false Hnd'). split.
    + intros H b k n Hb Hs Hp Hk Hn Hsn Hpos.
      destruct (H b k (proj2 (Hin b) (conj Hb Hs)) Hp Hk) as [H1 _].
      apply H1; [|exact Hpos]. apply Hin. auto.
    + intros H b k Hb Hp Hk. apply Hin in Hb. destruct Hb as [Hb Hs].
      split; [|discriminate]. intros n Hn Hpos. apply Hin in Hn.
      destruct Hn as [Hn Hsn]. now apply (H b k n).
Qed.

Lemma X9_pyramid_selection_example :
  _check_pyramid_selection
    (grid_of [solid 1 (0, 0); set_selected true (pyramid (1, 0) [0; 0; 2; 2])])
  = true.
Proof.
  apply (X9_pyramid_selection_meaning
           (grid_of [solid 1 (0, 0); set_selected true (pyramid (1, 0) [0; 0; 2; 2])])).
  - refine (bool_decide_unpack _ _); vm_compute; exact I.
  - simpl. intros b k n [<-|[<-|[]]] Hs; [discriminate Hs|].
    intros _ Hk [<-|[<-|[]]] Hsn; [discriminate Hsn|].
    simpl. destruct k as [|[|[|k]]]; intros H; inversion H; lia.
Defined.

(** X10.  Two pyramids side by side are checked against each other twice,
    once from each side, and the two checks have the same outcome: whether
    the two faces that touch hold the same value. *)
Theorem X10_touching_faces_checked_alike (bl : list Block) (b n : Block)
        (k : nat) (strict : bool) :
  NoDup (map pos bl) -> In b bl -> In n bl ->
  is_pyramid b -> is_pyramid n -> (k < 4)%nat ->
  pos n = face_neighbor k (pos b) ->
  _check_pyramid_adjacent (face_neighbor k (pos b))
                          (nth k (detailed_information b) 0)
                          (pos_to_block bl) strict (face_name k) =
  (nth k (detailed_information b) 0 =?
   nth (opposite_face k) (detailed_information n) 0) /\
  _check_pyramid_adjacent (face_neighbor (opposite_face k) (pos n))
                          (nth (opposite_face k) (detailed_information n) 0)
                          (pos_to_block bl) strict (face_name (opposite_face k)) =
  (nth k (detailed_information b) 0 =?
   nth (opposite_face k) (detailed_information n) 0).
Proof.
  intros Hnd Hb Hn [Htb Hlb] [Htn Hln] Hk Hpos.
  destruct (opposite_face_involutive k Hk) as [Hopp Hk'].
  assert (Hback : face_neighbor (opposite_face k) (pos n) = pos b).
  { rewrite Hpos. now apply face_neighbor_opposite. }
  apply Nat.leb_le in Hlb, Hln. split.
  - rewrite (check_adjacent_occupied _ _ _ strict k n Hk);
      [|rewrite <- Hpos; now apply pos_to_block_In].
    rewrite Htn, Hln. simpl. apply Z.eqb_sym.
  - rewrite (check_adjacent_occupied _ _ _ strict _ b Hk');
      [|rewrite Hback; now apply pos_to_block_In].
    rewrite Htb, Hlb, Hopp. reflexivity.
Qed.

Lemma X10_touching_faces_example :
  _check_pyramid_adjacent (2, 0) 2
    (pos_to_block [pyramid (1, 0) [0; 0; 1; 2]; pyramid (2, 0) [0; 0; 1; 0]])
    true "right" = false.
Proof.
  refine (proj1 (X10_touching_faces_checked_alike
            [pyramid (1, 0) [0; 0; 1; 2]; pyramid (2, 0) [0; 0; 1; 0]]
            (pyramid (1, 0) [0; 0; 1; 2]) (pyramid (2, 0) [0; 0; 1; 0])
            3 true _ _ _ _ _ _ _)).
  - refine (bool_decide_unpack _ _); vm_compute; exact I.
  - simpl. auto.
  - simpl. auto.
  - split; simpl; [reflexivity|lia].
  - split; simpl; [reflexivity|lia].
  - lia.
  - reflexivity.
Defined.

(** ** The traversal of [is_connected] *)

Lemma pos_mem_In (p : Pos) (l : list Pos) : pos_mem p l = true <-> In p l.
Proof.
  unfold pos_mem. rewrite existsb_exists. split.
  - intros (x & Hx & E). apply pos_eqb_eq in E. now subst.
  - intros H. exists p. split; [exact H|apply pos_eqb_refl].
Qed.

Lemma pos_set_In (p : Pos) (l : list Pos) : In p (pos_set l) <-> In p l.
Proof.
  induction l as [|a l IH]; simpl; [tauto|].
  destruct (pos_mem a l) eqn:E.
  - rewrite IH. apply pos_mem_In in E. split; [tauto|]. intros [<-|H]; auto.
  - simpl. rewrite IH. tauto.
Qed.

Lemma pos_set_NoDup (l : list Pos) : List.NoDup (pos_set l).
Proof.
  induction l as [|a l IH]; simpl; [constructor|].
  destruct (pos_mem a l) eqn:E; [exact IH|]. constructor; [|exact IH].
  rewrite pos_set_In, <- pos_mem_In. congruence.
Qed.

Lemma linked_In (ps : list Pos) (a b : Pos) : In a ps -> linked ps a b -> In b ps.
Proof. intros Ha H. destruct H; assumption. Qed.

Lemma linked_trans (ps : list Pos) (a b c : Pos) :
  linked ps a b -> linked ps b c -> linked ps a c.
Proof.
  intros Hab Hbc. induction Hbc as [|c d _ IH Hadj Hd]; [exact Hab|].
  exact (linked_step ps a c d IH Hadj Hd).
Qed.

Lemma adjacent4_sym (a b : Pos) : adjacent4 a b -> adjacent4 b a.
Proof.
  destruct a as [x y]. unfold adjacent4.
  intros [ -> | [ -> | [ -> | -> ] ] ]; simpl; [right; left|left|do 3 right|right; right; left];
    f_equal; lia.
Qed.

Lemma linked_sym (ps : list Pos) (a b : Pos) :
  In a ps -> linked ps a b -> linked ps b a.
Proof.
  intros Ha H. induction H as [|b c Hab IH Hadj Hc]; [constructor|].
  apply (linked_trans ps c b a); [|exact IH].
  apply (linked_step ps c c b); [constructor|now apply adjacent4_sym|].
  exact (linked_In ps a b Ha Hab).
Qed.

Lemma linked_same_members (ps ps' : list Pos) (a b : Pos) :
  (forall x, In x ps <-> In x ps') -> linked ps a b -> linked ps' a b.
Proof.
  intros Hm H. induction H as [|b c _ IH Hadj Hc]; [constructor|].
  apply (linked_step ps' a b c IH Hadj). now apply Hm.
Qed.

Lemma connected_from_start (ps : list Pos) (start : Pos) :
  In start ps ->
  connected_positions ps <-> forall p, In p ps -> linked ps start p.
Proof.
  intros Hs. split.
  - intros H p Hp. now apply H.
  - intros H a b Ha Hb. apply (linked_trans ps a start b); [|now apply H].
    apply linked_sym; [exact Hs|now apply H].
Qed.

Lemma visit_neighbors_spec (ps nbrs : list Pos) :
  forall v q v' q',
    fold_left (visit_neighbor ps) nbrs (v, q) = (v', q') ->
    List.NoDup v ->
    List.NoDup v' /\
    (exists new, v' = v ++ new /\ q' = q ++ new /\
                 forall n, In n new -> In n nbrs /\ In n ps) /\
    (forall n, In n nbrs -> In n ps -> In n v').
Proof.
  induction nbrs as [|n nbrs IH]; intros v q v' q' H Hnd; simpl in H.
  - injection H as <- <-. split; [exact Hnd|]. split.
    + exists []. rewrite !app_nil_r. split; [reflexivity|].
      split; [reflexivity|intros ? []].
    + intros ? [].
  - destruct (pos_mem n ps && negb (pos_mem n v)) eqn:E.
    + apply andb_true_iff in E. destruct E as [Hps Hv].
      apply pos_mem_In in Hps. apply negb_true_iff in Hv.
      assert (Hnv : ~ In n v) by (rewrite <- pos_mem_In; congruence).
      apply IH in H.
      * destruct H as (H1 & (new & -> & -> & Hnew) & H3). split; [exact H1|].
        split.
        -- exists (n :: new). rewrite <- !app_assoc. simpl.
           split; [reflexivity|]. split; [reflexivity|].
           intros m [<-|Hm]; [split; [now left|exact Hps]|].
           destruct (Hnew m Hm). split; [now right|assumption].
        -- intros m [<-|Hm] Hmps; [|now apply H3].
           apply in_or_app. left. apply in_or_app. right. now left.
      * apply NoDup_ListNoDup, NoDup_app. split; [now apply NoDup_ListNoDup|].
        split; [|apply NoDup_singleton].
        intros x Hx Hx'. apply list_elem_of_singleton in Hx'. subst x.
        apply Hnv. now apply list_elem_of_In.
    + apply IH in H; [|exact Hnd].
      destruct H as (H1 & (new & -> & -> & Hnew) & H3). split; [exact H1|].
      split.
      * exists new. split; [reflexivity|]. split; [reflexivity|].
        intros m Hm. destruct (Hnew m Hm). split; [now right|assumption].
      * intros m [<-|Hm] Hmps; [|now apply H3].
        apply in_or_app. left.
        apply andb_false_iff in E. destruct E as [E|E].
        -- apply pos_mem_In in Hmps. congruence.
        -- apply negb_false_iff in E. now apply pos_mem_In.
Qed.

Lemma connected_bfs_step (fuel : nat) (ps v rest : list Pos) (x y : Z) :
  connected_bfs (S fuel) ps v ((x, y) :: rest) =
  let '(v', q') :=
    fold_left (visit_neighbor ps)
              [(x + 1, y); (x - 1, y); (x, y + 1); (x, y - 1)] (v, rest) in
  connected_bfs fuel ps v' q'.
Proof. reflexivity. Qed.

(** What the traversal has established when the queue is [q] and the
    visited list [v]. *)
Lemma connected_bfs_visits (ps : list Pos) (start : Pos) (fuel : nat) :
  forall v q r,
    connected_bfs fuel ps v q = Some r ->
    List.NoDup v -> In start v ->
    (forall p, In p v -> In p ps /\ linked ps start p) ->
    incl q v ->
    (forall p, In p v ->
               In p q \/ forall n, adjacent4 p n -> In n ps -> In n v) ->
    List.NoDup r /\ In start r /\
    (forall p, In p r -> In p ps /\ linked ps start p) /\
    (forall p n, In p r -> adjacent4 p n -> In n ps -> In n r).
Proof.
  induction fuel as [|fuel IH]; intros v q r H Hnd Hs Hv Hq Hc.
  - destruct q as [|c rest]; [|discriminate]. simpl in H. injection H as <-.
    repeat split; try assumption; try (now apply Hv).
    intros p n Hp. destruct (Hc p Hp) as [[]|H]. exact (H n).
  - destruct q as [|[x y] rest].
    { simpl in H. injection H as <-.
      repeat split; try assumption; try (now apply Hv).
      intros p n Hp. destruct (Hc p Hp) as [[]|H]. exact (H n). }
    rewrite connected_bfs_step in H.
    destruct (fold_left (visit_neighbor ps) _ (v, rest)) as [v' q'] eqn:E.
    apply visit_neighbors_spec in E; [|exact Hnd].
    destruct E as (Hnd' & (new & -> & -> & Hnew) & Hall).
    assert (Hcur : In (x, y) v) by (apply Hq; now left).
    apply (IH _ _ _ H); clear IH H.
    + exact Hnd'.
    + apply in_or_app. now left.
    + intros p Hp. apply in_app_or in Hp. destruct Hp as [Hp|Hp]; [now apply Hv|].
      destruct (Hnew p Hp) as [Hadj Hps]. split; [exact Hps|].
      apply (linked_step ps start (x, y) p); [now apply Hv| |exact Hps].
      unfold adjacent4. simpl in *.
      destruct Hadj as [<-|[<-|[<-|[<-|[]]]]]; auto.
    + intros p Hp. apply in_or_app. apply in_app_or in Hp.
      destruct Hp as [Hp|Hp]; [left; apply Hq; now right|now right].
    + intros p Hp. apply in_app_or in Hp. destruct Hp as [Hp|Hp].
      * destruct (Hc p Hp) as [[<-|Hr]|Hclosed].
        -- right. intros n Hadj Hps. apply Hall; [|exact Hps].
           unfold adjacent4 in Hadj. simpl in *.
           destruct Hadj as [ -> | [ -> | [ -> | -> ] ] ]; auto.
        -- left. apply in_or_app. now left.
        -- right. intros n Hadj Hps. apply in_or_app. left. now apply Hclosed.
      * left. apply in_or_app. now right.
Qed.

Lemma connected_bfs_result (ps : list Pos) (start : Pos) (r : list Pos) (fuel : nat) :
  In start ps -> List.NoDup ps ->
  connected_bfs fuel ps [start] [start] = Some r ->
  (length r =? length ps)%nat = true <-> connected_positions ps.
Proof.
  intros Hs Hnd H.
  apply (connected_bfs_visits ps start) in H.
  - destruct H as (Hr & Hsr & Hin & Hclosed).
    assert (Hreach : forall p, linked ps start p -> In p r).
    { intros p Hp. induction Hp as [|b c _ IH Hadj Hc]; [exact Hsr|].
      exact (Hclosed b c IH Hadj Hc). }
    assert (Hsub : incl r ps) by (intros p Hp; now apply Hin).
    rewrite (connected_from_start ps start Hs), Nat.eqb_eq. split.
    + intros Hlen p Hp. apply Hin.
      apply (NoDup_length_incl Hr (l' := ps));
        [rewrite Hlen; apply Nat.le_refl|exact Hsub|exact Hp].
    + intros Hall. apply Nat.le_antisymm.
      * now apply NoDup_incl_length.
      * apply NoDup_incl_length; [exact Hnd|]. intros p Hp. apply Hreach, Hall, Hp.
  - repeat constructor. intros [].
  - now left.
  - intros p [<-|[]]. split; [exact Hs|constructor].
  - intros p Hp. exact Hp.
  - intros p Hp. now left.
Qed.

Lemma length_deref (bl : list Block) (refs : list nat) :
  (length (deref bl refs) <= length refs)%nat.
Proof.
  unfold deref. induction refs as [|i refs IH]; simpl in *; [lia|].
  change (list_omap nat Block (fun i0 : nat => bl !! i0) refs)
    with (omap (fun i : nat => bl !! i) refs).
  destruct (bl !! i); simpl; lia.
Qed.

Lemma connected_positions_pos_set (l : list Pos) :
  connected_positions (pos_set l) <-> connected_positions l.
Proof.
  split; intros H a b Ha Hb.
  - apply (linked_same_members (pos_set l) l); [intros x; apply pos_set_In|].
    apply H; now apply pos_set_In.
  - apply (linked_same_members l (pos_set l));
      [intros x; symmetry; apply pos_set_In|].
    apply H; now apply pos_set_In.
Qed.

Lemma is_connected_spec (bs : BlockSet) :
  exists r, is_connected bs = Ok r /\
            (r = true <-> connected_positions (get_selected_positions bs)).
Proof.
  unfold is_connected.
  destruct (Nat.leb_spec (length (selected_blocks bs)) 1) as [L|L].
  - exists true. split; [reflexivity|]. split; [|reflexivity]. intros _ a b Ha Hb.
    unfold get_selected_positions in *.
    pose proof (length_deref (blocks bs) (selected_blocks bs)) as Hl.
    destruct (deref (blocks bs) (selected_blocks bs)) as [|c [|d rest]];
      simpl in *; [destruct Ha| |lia].
    destruct Ha as [<-|[]], Hb as [<-|[]]. constructor.
  - pose proof (connected_positions_pos_set (get_selected_positions bs)) as Hc.
    pose proof (pos_set_NoDup (get_selected_positions bs)) as Hnd.
    destruct (pos_set (get_selected_positions bs)) as [|start ps] eqn:E.
    { exists true. split; [reflexivity|]. split; [|reflexivity]. intros _.
      apply Hc. intros a b []. }
    destruct (connected_bfs_terminates (start :: ps) (S (length (start :: ps)))
                                       [start] [start]) as [r Hr].
    { pose proof (count_unvisited_pos_le [start] (start :: ps)). simpl in *. lia. }
    rewrite Hr. eexists. split; [reflexivity|]. rewrite <- Hc.
    apply (connected_bfs_result (start :: ps) start r _ (or_introl eq_refl) Hnd Hr).
Qed.

(** X11.  [is_connected] returns a boolean, and the boolean is true exactly
    when the positions of the selected cells form one orthogonally connected
    group: any two of them are joined by a chain of selected positions in
    which consecutive positions are one step apart horizontally or
    vertically.  No selection and a single selected cell count as
    connected. *)
Theorem X11_is_connected_meaning (bs : BlockSet) :
  exists r, is_connected bs = Ok r /\
            (r = true <-> connected_positions (get_selected_positions bs)).
Proof. exact (is_connected_spec bs). Qed.

(** X12.  At the selection stage the [glue] constraint returns a boolean,
    which is true exactly when the grid has at least one cell and the
    positions of the selected cells form one orthogonally connected group;
    at the movement stage it is true whatever the grid. *)
Theorem X12_glue_meaning (bs : BlockSet) :
  (exists r, check_one bs "glue" Selection = Ok r /\
             (r = true <-> blocks bs <> [] /\
                           connected_positions (get_selected_positions bs))) /\
  check_one bs "glue" Movement = Ok true.
Proof.
  split.
  - unfold check_one, _check_glue, get_all_positions. simpl.
    destruct (blocks bs) as [|b bl] eqn:E; simpl.
    + exists false. split; [reflexivity|]. split; [discriminate|].
      intros [N _]. congruence.
    + destruct (is_connected_spec bs) as (r & -> & Hr). simpl.
      exists r. split; [reflexivity|]. rewrite Hr. split; [|tauto].
      intros H. split; [discriminate|exact H].
  - unfold check_one. simpl. destruct (check_glue_returns bs) as [r ->].
    reflexivity.
Qed.


(** ** What every session of a level keeps *)

Lemma map_alter_same {K} (key : Block -> K) (f : Block -> Block)
      (bl : list Block) (i : nat) :
  (forall b, key (f b) = key b) -> map key (alter f i bl) = map key bl.
Proof.
  intros Hf. apply list_eq. intros j. rewrite !lookup_map.
  destruct (decide (i = j)) as [<-|Hne].
  - rewrite list_lookup_alter_eq. destruct (bl !! i); simpl; [|reflexivity].
    rewrite Hf. reflexivity.
  - rewrite list_lookup_alter_ne by exact Hne. reflexivity.
Qed.

Lemma map_fold_alter_same {K} (key : Block -> K) (f : Block -> Block)
      (sel : list nat) (bl : list Block) :
  (forall b, key (f b) = key b) ->
  map key (fold_left (fun bl i => alter f i bl) sel bl) = map key bl.
Proof.
  intros Hf. revert bl. induction sel as [|r sel IH]; intros bl; simpl; [reflexivity|].
  rewrite IH. apply map_alter_same, Hf.
Qed.

Lemma steady_ext S (g g' : Game) :
  level_data g' = level_data g -> history g' = history g ->
  history_index g' = history_index g -> steady S g -> steady S g'.
Proof.
  unfold steady, history_ok. intros -> -> ->. auto.
Qed.

Lemma pushed_history_length (h : list Snapshot) (idx : Z) (e : Snapshot) :
  (1 <= length (pushed_history h idx e) <= 20)%nat.
Proof.
  unfold pushed_history. split; [|apply py_slice_last_length].
  rewrite py_slice_last_snoc by lia. rewrite length_app. simpl. lia.
Qed.

Lemma steady_save S (g : Game) : steady S g -> steady S (_save_state g).
Proof.
  intros [Hd _]. rewrite save_state_eq. cbv zeta.
  pose proof (pushed_history_length (history g) (history_index g)
                (snapshot_of (current_blockset g), selection_confirmed g)) as Hl.
  revert Hl. generalize (pushed_history (history g) (history_index g)
                (snapshot_of (current_blockset g), selection_confirmed g)).
  intros h Hl. split; [exact Hd|]. unfold history_ok. fields.
  split; [lia|]. split; [lia|]. intros _. lia.
Qed.

Lemma steady_fire S (g : Game) : steady S g -> steady S (fire_selection_change g).
Proof.
  unfold fire_selection_change. destruct (on_selection_change _); [|auto].
  apply steady_save.
Qed.

Lemma steady_select_block S (i : nat) (g : Game) :
  steady S g -> steady S (select_block i g).
Proof.
  intros H. unfold select_block. destruct (in_blocks _ i); [|exact H].
  apply steady_fire. apply (steady_ext S g); [|reflexivity|reflexivity|exact H].
  unfold level_data. fields. rewrite map_alter_same; reflexivity.
Qed.

Lemma steady_deselect_block S (i : nat) (g : Game) :
  steady S g -> steady S (deselect_block i g).
Proof.
  intros H. unfold deselect_block. destruct (in_selected _ i); [|exact H].
  apply steady_fire. apply (steady_ext S g); [|reflexivity|reflexivity|exact H].
  unfold level_data. fields. rewrite map_alter_same; reflexivity.
Qed.

Lemma steady_select_blocks_in_area S (start_pos end_pos : Pos) (g : Game) :
  steady S g -> steady S (select_blocks_in_area start_pos end_pos g).
Proof.
  unfold select_blocks_in_area.
  generalize (seq 0 (length (blocks (current_blockset g)))). intros l.
  revert g. induction l as [|i l IH]; intros g H; simpl; [exact H|].
  apply IH. destruct (blocks (current_blockset g) !! i); [|exact H].
  match goal with |- context [if ?c then _ else _] => destruct c end;
    [apply steady_select_block|]; exact H.
Qed.

Lemma steady_clear_selection S (g : Game) :
  steady S g -> steady S (clear_selection g).
Proof.
  intros H. unfold clear_selection. apply steady_fire.
  apply (steady_ext S g); [|reflexivity|reflexivity|exact H].
  unfold level_data. fields. rewrite map_fold_alter_same; reflexivity.
Qed.

Lemma restore_blocks_static (state_blocks : list (Pos * bool)) :
  forall bs i,
    map static_of (blocks (restore_blocks bs i state_blocks)) =
    map static_of (blocks bs).
Proof.
  induction state_blocks as [|[p f] rest IH]; intros bs i; simpl; [reflexivity|].
  rewrite IH. unfold restore_block.
  destruct (i <? length (blocks bs))%nat; [|reflexivity].
  simpl. apply map_alter_same. reflexivity.
Qed.

Lemma restore_state_level_data (state : Snapshot) (g : Game) :
  level_data (_restore_state state g) = level_data g /\
  history (_restore_state state g) = history g /\
  history_index (_restore_state state g) = history_index g.
Proof.
  destruct state as [state_blocks c]. unfold _restore_state, level_data. fields.
  rewrite restore_blocks_static. auto.
Qed.

Lemma steady_undo S (g g' : Game) : steady S g -> _undo g = Ok g' -> steady S g'.
Proof.
  intros [Hd Hh] H. unfold _undo in H.
  destruct (Z.ltb_spec 0 (history_index g)) as [Hlt|_];
    [|injection H as <-; split; assumption].
  apply bind_Ok in H as (state & _ & H). injection H as <-.
  destruct (restore_state_level_data state
              (with_history (history g) (history_index g - 1) g)) as (H1 & H2 & H3).
  revert H1 H2 H3.
  generalize (_restore_state state
                (with_history (history g) (history_index g - 1) g)).
  intros r H1 H2 H3. split.
  - unfold level_data in *. fields. fields in H1. rewrite H1. exact Hd.
  - unfold history_ok in *. fields. fields in H2. fields in H3.
    rewrite H2, H3. destruct Hh as (Ha & Hb & Hc). split; [exact Ha|].
    split; [lia|]. intros _. lia.
Qed.

Lemma steady_redo S (g g' : Game) : steady S g -> _redo g = Ok g' -> steady S g'.
Proof.
  intros [Hd Hh] H. unfold _redo in H.
  destruct (Z.ltb_spec (history_index g) (Z.of_nat (length (history g)) - 1))
    as [Hlt|_]; [|injection H as <-; split; assumption].
  apply bind_Ok in H as (state & _ & H). injection H as <-.
  destruct (restore_state_level_data state
              (with_history (history g) (history_index g + 1) g)) as (H1 & H2 & H3).
  revert H1 H2 H3.
  generalize (_restore_state state
                (with_history (history g) (history_index g + 1) g)).
  intros r H1 H2 H3. split.
  - unfold level_data in *. fields. fields in H1. rewrite H1. exact Hd.
  - unfold history_ok in *. fields. fields in H2. fields in H3.
    rewrite H2, H3. destruct Hh as (Ha & Hb & Hc). split; [exact Ha|].
    split; [lia|]. intros _. lia.
Qed.

Lemma map_static_reset (bl : list Block) :
  map static_of (map reset_position bl) = map static_of bl.
Proof. rewrite map_map. reflexivity. Qed.

Lemma steady_reset_level S (g : Game) :
  level_data g = S -> steady S (_reset_level g).
Proof.
  intros Hd. destruct (reset_level_fields g) as (Hb & _ & _ & Hh & Hi & _ & _ & _ & Hc & Hl).
  revert Hb Hh Hi Hc Hl. generalize (_reset_level g). intros r Hb Hh Hi Hc Hl.
  split.
  - unfold level_data in *. rewrite Hb, Hc, Hl.
    rewrite map_fold_alter_same by reflexivity. rewrite map_static_reset. exact Hd.
  - unfold history_ok. rewrite Hh, Hi. simpl. split; [lia|]. split; [lia|].
    intros N. congruence.
Qed.

Lemma steady_confirm_selection S (g : Game) :
  steady S g -> steady S (_confirm_selection g).
Proof.
  intros H. unfold _confirm_selection.
  destruct (selected_blocks (current_blockset g)); [exact H|].
  assert (Hs : steady S (_save_state (with_selection_confirmed true g))).
  { apply steady_save. apply (steady_ext S g); [reflexivity..|exact H]. }
  revert Hs. generalize (_save_state (with_selection_confirmed true g)).
  intros s Hs. apply (steady_ext S s); [reflexivity..|exact Hs].
Qed.

Lemma steady_handle_click S (hit : option string) (g g1 : Game)
      (action : option string) :
  steady S g -> handle_click hit g = Ok (g1, action) -> steady S g1.
Proof.
  intros Hinv H. unfold handle_click in H.
  destruct (String.eqb (current_state g) "in_level_chooseblock");
    [|injection H as <- _; exact Hinv].
  destruct hit as [name|]; [|injection H as <- _; exact Hinv].
  destruct (String.eqb name "confirm"); [|injection H as <- _; exact Hinv].
  apply bind_Ok in H as (results & _ & H).
  destruct (failed_names results); injection H as <- _;
    (apply (steady_ext S g); [reflexivity..|exact Hinv]).
Qed.

Lemma steady_handle_action S (action : string) (g g' : Game) :
  steady S g -> _handle_action action g = Ok g' -> steady S g'.
Proof.
  intros Hinv H. unfold _handle_action in H.
  destruct (String.eqb action "reset").
  { injection H as <-. apply steady_reset_level, Hinv. }
  destruct (String.eqb action "undo"); [exact (steady_undo S g g' Hinv H)|].
  destruct (String.eqb action "redo"); [exact (steady_redo S g g' Hinv H)|].
  destruct (String.eqb action "confirm").
  { injection H as <-. apply steady_confirm_selection, Hinv. }
  destruct (String.eqb action "back_to_levels"); injection H as <-;
    [apply (steady_ext S g); [reflexivity..|exact Hinv] | exact Hinv].
Qed.

Lemma steady_start_drag S (p : Pos) (g : Game) :
  steady S g -> steady S (start_drag p g).
Proof.
  intros H. unfold start_drag.
  destruct (selected_blocks (current_blockset g)) as [|r sel] eqn:Hsel.
  - apply (steady_ext S g); [reflexivity..|exact H].
  - rewrite <- Hsel. apply (steady_ext S g); [|reflexivity|reflexivity|exact H].
    unfold level_data. fields. rewrite map_fold_alter_same; reflexivity.
Qed.

Lemma steady_handle_mouse_down S (hit : option string) (p : Pos) (g g' : Game) :
  steady S g -> _handle_mouse_down hit p g = Ok g' -> steady S g'.
Proof.
  intros Hinv H. unfold _handle_mouse_down in H.
  destruct (String.eqb (current_state g) "in_level_chooseblock");
    [|injection H as <-; exact Hinv].
  apply bind_Ok in H as ([g1 action] & Hclick & H).
  apply (steady_handle_click S hit g g1 action Hinv) in Hclick.
  destruct action as [a|]; [exact (steady_handle_action S a g1 g' Hclick H)|].
  destruct (negb (selection_confirmed g1)).
  - apply bind_Ok in H as (grid_pos & _ & H).
    destruct (clicked_block g1 grid_pos) as [i|]; [|injection H as <-; exact Hclick].
    destruct (in_selected (current_blockset g1) i); injection H as <-.
    + pose proof (steady_deselect_block S i g1 Hclick) as Hd. revert Hd.
      generalize (deselect_block i g1). intros s Hs.
      apply (steady_ext S s); [reflexivity..|exact Hs].
    + pose proof (steady_select_block S i g1 Hclick) as Hd. revert Hd.
      generalize (select_block i g1). intros s Hs.
      apply (steady_ext S s); [reflexivity..|exact Hs].
  - apply bind_Ok in H as (grid_pos & _ & H). injection H as <-.
    apply steady_start_drag.
    destruct (existsb _ _); [|exact Hclick].
    apply (steady_ext S g1); [reflexivity..|exact Hclick].
Qed.

Lemma steady_handle_mouse_motion S (p : Pos) (g g' : Game) :
  steady S g -> _handle_mouse_motion p g = Ok g' -> steady S g'.
Proof.
  intros Hinv H. unfold _handle_mouse_motion in H.
  destruct (String.eqb (current_state g) "in_level_chooseblock");
    [|injection H as <-; exact Hinv].
  destruct (dragging (drag g)); [|injection H as <-; exact Hinv].
  destruct (update_drag_shape p g g' H) as [d ->].
  apply (steady_ext S g); [reflexivity..|exact Hinv].
Qed.

Lemma restore_positions_static (orig : option (list Pos)) :
  forall sel i bl bl',
    restore_positions_from orig i sel bl = Ok bl' ->
    map static_of bl' = map static_of bl.
Proof.
  induction sel as [|r sel IH]; intros i bl bl' H; simpl in H.
  - injection H as <-. reflexivity.
  - apply bind_Ok in H as (p & _ & H). rewrite (IH _ _ _ H).
    apply map_alter_same. reflexivity.
Qed.

Lemma apply_drag_static (d : Drag) (colors : list (Z * Z * Z)) (is_valid : bool) :
  forall sel i bl bl',
    apply_drag_from d colors is_valid i sel bl = Ok bl' ->
    map static_of bl' = map static_of bl.
Proof.
  induction sel as [|r sel IH]; intros i bl bl' H; simpl in H.
  - injection H as <-. reflexivity.
  - destruct (colors !! i) as [c|]; [|exact (IH _ _ _ H)].
    apply bind_Ok in H as (p & _ & H). rewrite (IH _ _ _ H).
    apply map_alter_same. reflexivity.
Qed.

Lemma steady_end_drag S (mouse : Pos) (g g1 : Game) :
  steady S g -> end_drag mouse g = Ok g1 -> steady S g1.
Proof.
  intros Hinv H. unfold end_drag in H.
  apply bind_Ok in H as ([is_valid off] & _ & H).
  apply bind_Ok in H as (gm & Hgm & H).
  assert (Hm : steady S gm).
  { destruct (negb is_valid).
    - apply bind_Ok in Hgm as (bl1 & Hbl1 & Hgm). injection Hgm as <-.
      apply (steady_ext S g); [|reflexivity|reflexivity|exact Hinv].
      unfold level_data. fields.
      rewrite (restore_positions_static _ _ _ _ _ Hbl1). reflexivity.
    - match type of Hgm with
      | (if ?c then _ else _) = _ => destruct c
      end; [|injection Hgm as <-; exact Hinv].
      destruct (drag_start (drag g)) as [ds|]; [|injection Hgm as <-; exact Hinv].
      destruct (drag_end (drag g)) as [de|]; [|injection Hgm as <-; exact Hinv].
      apply bind_Ok in Hgm as (sp & _ & Hgm).
      apply bind_Ok in Hgm as (ep & _ & Hgm). injection Hgm as <-.
      apply steady_select_blocks_in_area, Hinv. }
  clear Hgm. revert Hm H. generalize gm. clear gm. intros gm Hm H.
  apply bind_Ok in H as (is_valid2 & _ & H).
  apply bind_Ok in H as (bl2 & Hbl2 & H). injection H as <-.
  apply (steady_ext S gm); [|reflexivity|reflexivity|exact Hm].
  unfold level_data. fields.
  destruct (selected_blocks (current_blockset gm)) as [|r sel].
  - injection Hbl2 as <-. reflexivity.
  - destruct (original_colors (drag g)) as [colors|].
    + rewrite (apply_drag_static _ _ _ _ _ _ _ Hbl2). reflexivity.
    + injection Hbl2 as <-. reflexivity.
Qed.

Lemma steady_handle_mouse_up S (mouse : Pos) (g g' : Game) :
  steady S g -> _handle_mouse_up mouse g = Ok g' -> steady S g'.
Proof.
  intros Hinv H. unfold _handle_mouse_up in H.
  destruct (String.eqb (current_state g) "in_level_chooseblock");
    [|injection H as <-; exact Hinv].
  destruct (dragging (drag g)); [|injection H as <-; exact Hinv].
  apply bind_Ok in H as (g1 & Hend & H).
  apply (steady_end_drag S mouse g g1 Hinv) in Hend.
  clear Hinv. revert Hend H. generalize g1. clear g1 g. intros g1 Hend H.
  fields in H. destruct (selection_confirmed g1).
  - apply bind_Ok in H as (results & _ & H).
    destruct (failed_names results) as [|n ns]; injection H as <-.
    + apply (steady_ext S g1); [reflexivity..|exact Hend].
    + match goal with
      | |- steady S (with_failed_constraints _ (_reset_level ?x)) =>
        assert (Hr : steady S (_reset_level x))
          by (apply steady_reset_level; destruct Hend as [Hd _]; exact Hd);
        revert Hr; generalize (_reset_level x)
      end.
      intros r Hr. apply (steady_ext S r); [reflexivity..|exact Hr].
  - injection H as <-. apply (steady_ext S g1); [reflexivity..|exact Hend].
Qed.

Lemma played_steady (level : list Block) (required : list string) (l : Layout)
      (g : Game) :
  played level required l g -> steady (map static_of level, required, l) g.
Proof.
  induction 1 as [|g hit p g' _ IH _ H|g p g' _ IH _ H|g mouse g' _ IH _ H].
  - split; [reflexivity|]. unfold history_ok. simpl. split; [lia|]. split; [lia|].
    intros N. congruence.
  - exact (steady_handle_mouse_down _ hit p g g' IH H).
  - exact (steady_handle_mouse_motion _ p g g' IH H).
  - exact (steady_handle_mouse_up _ mouse g g' IH H).
Qed.

(** X13.  Through every sequence of mouse presses, motions and releases on a
    loaded level, the history holds at most 20 entries, and the cursor is
    the index of one of its entries, or -1 when the history is empty. *)
Theorem X13_history_stays_in_order (level : list Block) (required : list string)
        (l : Layout) (g : Game) :
  played level required l g -> history_ok g.
Proof. intros H. exact (proj2 (played_steady level required l g H)). Qed.

Lemma X13_history_example : history_ok example_selecting.
Proof.
  apply (X13_history_stays_in_order
           [solid 1 (0, 0); solid 1 (1, 0); solid 1 (3, 0)] ["glue"] example_layout).
  apply (played_mouse_down _ _ _ (select_block 0 example_level) None (45, 5));
    [|reflexivity|vm_compute; reflexivity].
  apply (played_mouse_down _ _ _ example_level None (5, 5));
    [|reflexivity|vm_compute; reflexivity].
  apply played_load.
Defined.

(** X14.  Through every sequence of mouse presses, motions and releases on a
    loaded level, the grid keeps the cells of the level: none is added or
    removed, and none changes its type, its faces or its original position;
    the required constraints and the layout stay those of the level. *)
Theorem X14_level_data_never_changes (level : list Block) (required : list string)
        (l : Layout) (g : Game) :
  played level required l g ->
  map static_of (blocks (current_blockset g)) = map static_of level /\
  constraints g = required /\ layout g = l.
Proof.
  intros H. destruct (played_steady level required l g H) as [Hd _].
  unfold level_data in Hd. injection Hd as H1 H2 H3. auto.
Qed.

Lemma X14_level_data_example :
  map static_of (blocks (current_blockset example_dragging)) =
  map static_of [solid 1 (0, 0); solid 1 (1, 0); solid 1 (3, 0)].
Proof.
  refine (proj1 (X14_level_data_never_changes
            [solid 1 (0, 0); solid 1 (1, 0); solid 1 (3, 0)] ["glue"] example_layout
            example_dragging _)).
  apply (played_mouse_down _ _ _
           (_confirm_selection (with_selection_confirmed true example_selecting))
           None (5, 5)); [|reflexivity|vm_compute; reflexivity].
  apply (played_mouse_down _ _ _ example_selecting (Some "confirm") (0, 0));
    [|reflexivity|vm_compute; reflexivity].
  apply (played_mouse_down _ _ _ (select_block 0 example_level) None (45, 5));
    [|reflexivity|vm_compute; reflexivity].
  apply (played_mouse_down _ _ _ example_level None (5, 5));
    [|reflexivity|vm_compute; reflexivity].
  apply played_load.
Defined.

Lemma py_getitem_in_range {A} (l : list A) (k : Z) :
  0 <= k < Z.of_nat (length l) -> exists a, py_getitem l k = Ok a.
Proof.
  intros H. unfold py_getitem. destruct (Z.leb_spec 0 k); [|lia].
  apply py_index_in_range. lia.
Qed.

Lemma undo_returns (g : Game) : history_ok g -> exists g', _undo g = Ok g'.
Proof.
  intros (_ & Hb & _). unfold _undo.
  destruct (Z.ltb_spec 0 (history_index g)) as [Hlt|_]; [|eauto]. fields.
  destruct (py_getitem_in_range (history g) (history_index g - 1)) as [s ->];
    [lia|]. simpl. eauto.
Qed.

Lemma redo_returns (g : Game) : history_ok g -> exists g', _redo g = Ok g'.
Proof.
  intros (_ & Hb & _). unfold _redo.
  destruct (Z.ltb_spec (history_index g) (Z.of_nat (length (history g)) - 1))
    as [Hlt|_]; [|eauto]. fields.
  destruct (py_getitem_in_range (history g) (history_index g + 1)) as [s ->];
    [lia|]. simpl. eauto.
Qed.

Lemma handle_action_returns (action : string) (g : Game) :
  history_ok g -> exists g', _handle_action action g = Ok g'.
Proof.
  intros H. unfold _handle_action.
  destruct (String.eqb action "reset"); [eauto|].
  destruct (String.eqb action "undo"); [now apply undo_returns|].
  destruct (String.eqb action "redo"); [now apply redo_returns|].
  destruct (String.eqb action "confirm"); [eauto|].
  destruct (String.eqb action "back_to_levels"); eauto.
Qed.

Lemma well_formed_static (bl bl' : list Block) :
  map static_of bl = map static_of bl' ->
  Forall (fun c => type c = 3 -> (4 <= length (detailed_information c))%nat) bl' ->
  Forall (fun c => type c = 3 -> (4 <= length (detailed_information c))%nat) bl.
Proof.
  intros E H.
  apply (Forall_map static_of
           (fun s => fst (fst s) = 3 -> (4 <= length (snd (fst s)))%nat)) in H.
  apply (Forall_map static_of
           (fun s => fst (fst s) = 3 -> (4 <= length (snd (fst s)))%nat)).
  rewrite E. exact H.
Qed.

Lemma get_grid_pos_returns (g : Game) (p : Pos) :
  cell_size (layout g) <> 0 -> exists q, get_grid_pos g p = Ok q.
Proof.
  intros H. unfold get_grid_pos, py_floordiv.
  destruct (Z.eqb_spec (cell_size (layout g)) 0); [contradiction|]. simpl. eauto.
Qed.

(** A session in play that is on the level screen has been there since the
    level was loaded. *)
Lemma in_play_played (level : list Block) (required : list string) (l : Layout)
      (g : Game) :
  in_play level required l g ->
  current_state g = "in_level_chooseblock" ->
  played level required l g.
Proof.
  intros Hplay. induction Hplay as
      [|g hit p g' _ IH Hdown|g p g' _ IH Hmove
       |g mouse g1 results g' _ IH Hst Hdrag Hconf Hend Hcheck Hfail Hup];
    intros Hlevel.
  - apply played_load.
  - destruct (String.eqb_spec (current_state g) "in_level_chooseblock") as [E|N].
    + exact (played_mouse_down _ _ _ g hit p g' (IH E) E Hdown).
    + unfold _handle_mouse_down in Hdown.
      destruct (String.eqb_spec (current_state g) "in_level_chooseblock");
        [contradiction|].
      injection Hdown as <-. contradiction.
  - destruct (String.eqb_spec (current_state g) "in_level_chooseblock") as [E|N].
    + exact (played_mouse_motion _ _ _ g p g' (IH E) E Hmove).
    + unfold _handle_mouse_motion in Hmove.
      destruct (String.eqb_spec (current_state g) "in_level_chooseblock");
        [contradiction|].
      injection Hmove as <-. contradiction.
  - exact (played_mouse_up _ _ _ g mouse g' (IH Hst) Hst Hup).
Qed.

(** X15.  On a level whose layout has a non-zero cell size, and which does
    not require [sail] or has four face entries on every pyramid, a mouse
    press on the level screen returns in every session of [in_play] (no
    drag has been released but on a failing evaluation of a confirmed
    selection) whose cells lie at coordinates of magnitude at most
    [2 ^ 40], whatever is pressed: the buttons Reset, Undo, Redo, Confirm
    and Back, a cell or the empty grid.  In particular Undo and Redo never
    index outside the history, and the evaluation Confirm starts does not
    overflow. *)
Theorem X15_mouse_press_returns (level : list Block) (required : list string)
        (l : Layout) (g : Game) (hit : option string) (p : Pos) :
  in_play level required l g ->
  current_state g = "in_level_chooseblock" ->
  small_coordinates (blocks (current_blockset g)) ->
  cell_size l <> 0 ->
  ~ In "sail" required \/
  Forall (fun c => type c = 3 -> (4 <= length (detailed_information c))%nat) level ->
  exists g', _handle_mouse_down hit p g = Ok g'.
Proof.
  intros Hplay Hlevel Hsmall Hcell Hwf.
  pose proof (played_steady level required l g
                (in_play_played level required l g Hplay Hlevel)) as Hs.
  unfold _handle_mouse_down.
  assert (Hst : String.eqb (current_state g) "in_level_chooseblock" = true)
    by (rewrite Hlevel; apply String.eqb_refl).
  rewrite Hst.
  assert (Hclick : exists g1 action, handle_click hit g = Ok (g1, action)).
  { unfold handle_click. rewrite Hst. destruct hit as [name|]; [|eauto].
    destruct (String.eqb name "confirm"); [|eauto].
    destruct (check_constraints_from_returns (current_blockset g) Selection
                (constraints g) [] Hsmall) as [results Hr].
    - destruct Hs as [Hd _]. unfold level_data in Hd. injection Hd as H1 H2 H3.
      rewrite H2. destruct Hwf as [N|Hwf]; [now left|right].
      exact (well_formed_static _ _ H1 Hwf).
    - unfold check_constraints. rewrite Hr. simpl.
      destruct (failed_names results); eauto. }
  destruct Hclick as (g1 & action & Hclick). rewrite Hclick. simpl.
  pose proof (steady_handle_click _ hit g g1 action Hs Hclick) as Hs1.
  destruct action as [a|]; [apply handle_action_returns, Hs1|].
  assert (Hl : cell_size (layout g1) <> 0).
  { destruct Hs1 as [Hd _]. unfold level_data in Hd. injection Hd as _ _ ->.
    exact Hcell. }
  destruct (get_grid_pos_returns g1 p Hl) as [q ->]. simpl.
  destruct (negb (selection_confirmed g1)); [|eauto].
  destruct (clicked_block g1 q); [|eauto].
  destruct (in_selected (current_blockset g1) n); eauto.
Qed.

Lemma X15_mouse_press_example :
  exists g', _handle_mouse_down (Some "confirm") (0, 0) example_selecting = Ok g'.
Proof.
  apply (X15_mouse_press_returns
           [solid 1 (0, 0); solid 1 (1, 0); solid 1 (3, 0)] ["glue"] example_layout).
  - apply (play_mouse_down _ _ _ (select_block 0 example_level) None (45, 5));
      [|vm_compute; reflexivity].
    apply (play_mouse_down _ _ _ example_level None (5, 5));
      [|vm_compute; reflexivity].
    apply play_load.
  - reflexivity.
  - apply small_coordinates_intro. reflexivity.
  - discriminate.
  - left. simpl. intros [H|[]]. discriminate H.
Defined.

(** ** Looking a cell up by its position *)

Lemma find_index_from_Some (p : Pos) (bl : list Block) :
  forall k i,
    find_index_from k p bl = Some i <->
    exists j b, i = (k + j)%nat /\ bl !! j = Some b /\ pos b = p /\
                forall j' b', (j' < j)%nat -> bl !! j' = Some b' -> pos b' <> p.
Proof.
  induction bl as [|a bl IH]; intros k i; simpl.
  - split; [discriminate|]. intros (j & b & _ & H & _). discriminate H.
  - destruct (pos_eqb (pos a) p) eqn:E.
    + apply pos_eqb_eq in E. split.
      * intros H. injection H as <-. exists 0%nat, a.
        split; [lia|]. split; [reflexivity|]. split; [exact E|]. intros j' b' Hj. lia.
      * intros (j & b & -> & Hb & Hp & Hfirst). destruct j as [|j]; [f_equal; lia|].
        exfalso. apply (Hfirst 0%nat a); [lia|reflexivity|exact E].
    + assert (N : pos a <> p) by (rewrite <- pos_eqb_eq; congruence).
      rewrite IH. split.
      * intros (j & b & -> & Hb & Hp & Hfirst). exists (S j), b.
        split; [lia|]. split; [exact Hb|]. split; [exact Hp|].
        intros [|j'] b' Hj Hb'; [injection Hb' as <-; exact N|].
        apply (Hfirst j' b'); [lia|exact Hb'].
      * intros (j & b & -> & Hb & Hp & Hfirst). destruct j as [|j].
        { injection Hb as ->. contradiction. }
        exists j, b. split; [lia|]. split; [exact Hb|]. split; [exact Hp|].
        intros j' b' Hj Hb'. apply (Hfirst (S j') b'); [lia|exact Hb'].
Qed.

Lemma find_index_from_None (p : Pos) (bl : list Block) :
  forall k, find_index_from k p bl = None <-> forall b, In b bl -> pos b <> p.
Proof.
  induction bl as [|a bl IH]; intros k; simpl.
  - split; [intros _ b []|reflexivity].
  - destruct (pos_eqb (pos a) p) eqn:E.
    + apply pos_eqb_eq in E. split; [discriminate|]. intros H.
      exfalso. apply (H a); [now left|exact E].
    + assert (N : pos a <> p) by (rewrite <- pos_eqb_eq; congruence).
      rewrite IH. split.
      * intros H b [<-|Hb]; [exact N|now apply H].
      * intros H b Hb. apply H. now right.
Qed.

Lemma get_block_at_position_Some (bs : BlockSet) (p : Pos) (i : nat) :
  get_block_at_position bs p = Some i <->
  (exists b, blocks bs !! i = Some b /\ pos b = p) /\
  (forall j b', (j < i)%nat -> blocks bs !! j = Some b' -> pos b' <> p).
Proof.
  unfold get_block_at_position. rewrite find_index_from_Some. split.
  - intros (j & b & -> & Hb & Hp & Hfirst). simpl. split; [eauto|exact Hfirst].
  - intros [(b & Hb & Hp) Hfirst]. exists i, b. auto.
Qed.

Lemma find_index_from_app (p : Pos) (l1 l2 : list Block) :
  forall k,
    find_index_from k p (l1 ++ l2) =
    match find_index_from k p l1 with
    | Some i => Some i
    | None => find_index_from (k + length l1) p l2
    end.
Proof.
  induction l1 as [|a l1 IH]; intros k; simpl.
  - rewrite Nat.add_0_r. reflexivity.
  - destruct (pos_eqb (pos a) p); [reflexivity|].
    rewrite IH. replace (S k + length l1)%nat with (k + S (length l1))%nat by lia.
    reflexivity.
Qed.

(** X16.  [get_block_at_position] returns the first cell of the grid that is
    at the position, and nothing exactly when no cell is there.  A cell
    added with [add_block] is found at its position only when no earlier
    cell is there.  On a grid whose cells have pairwise different positions
    the cell found is the one the constraint checks find at the position,
    although those keep the last cell of a position and not the first. *)
Theorem X16_position_lookup (bs : BlockSet) (p : Pos) :
  (forall i, get_block_at_position bs p = Some i <->
             (exists b, blocks bs !! i = Some b /\ pos b = p) /\
             (forall j b', (j < i)%nat -> blocks bs !! j = Some b' -> pos b' <> p)) /\
  (get_block_at_position bs p = None <-> forall b, In b (blocks bs) -> pos b <> p) /\
  (forall b, get_block_at_position (add_block b bs) p =
             match get_block_at_position bs p with
             | Some i => Some i
             | None => if pos_eqb (pos b) p then Some (length (blocks bs)) else None
             end) /\
  (NoDup (map pos (blocks bs)) ->
   pos_to_block (blocks bs) p =
   match get_block_at_position bs p with
   | Some i => blocks bs !! i
   | None => None
   end).
Proof.
  split; [intros i; apply get_block_at_position_Some|].
  split; [apply find_index_from_None|].
  split.
  { intros b. unfold get_block_at_position, add_block. cbn [blocks].
    rewrite find_index_from_app. simpl. reflexivity. }
  intros Hnd. destruct (get_block_at_position bs p) as [i|] eqn:E.
  - apply get_block_at_position_Some in E. destruct E as [(b & Hb & Hp) _].
    rewrite Hb, <- Hp. apply (pos_to_block_In _ b Hnd).
    apply list_elem_of_In. eapply list_elem_of_lookup_2. exact Hb.
  - unfold get_block_at_position in E. rewrite find_index_from_None in E.
    apply pos_to_block_None.
    intros b Hb. destruct (pos_eqb (pos b) p) eqn:Ep; [|reflexivity].
    apply pos_eqb_eq in Ep. exfalso. exact (E b Hb Ep).
Qed.

Lemma X16_position_lookup_example :
  pos_to_block [solid 1 (0, 0); solid 2 (1, 0)] (1, 0) = Some (solid 2 (1, 0)).
Proof.
  refine (proj2 (proj2 (proj2 (X16_position_lookup
            (grid_of [solid 1 (0, 0); solid 2 (1, 0)]) (1, 0)))) _).
  refine (bool_decide_unpack _ _); vm_compute; exact I.
Defined.

(** ** Selecting cells *)

Lemma Block_eqb_refl (b : Block) : Block_eqb b b = true.
Proof. unfold Block_eqb. rewrite Z.eqb_refl, pos_eqb_refl. reflexivity. Qed.

Lemma in_blocks_of_lookup (bs : BlockSet) (i : nat) (b : Block) :
  blocks bs !! i = Some b -> in_blocks bs i = true.
Proof.
  intros Hb. unfold in_blocks. rewrite Hb. apply existsb_exists. exists b.
  split; [|apply Block_eqb_refl].
  apply list_elem_of_In. eapply list_elem_of_lookup_2. exact Hb.
Qed.


Lemma distinct_blocks_set_selected (v : bool) (i : nat) (bl : list Block) :
  distinct_blocks bl -> distinct_blocks (alter (set_selected v) i bl).
Proof.
  apply distinct_blocks_keys. apply keys_alter. reflexivity.
Qed.

Lemma select_block_effect (i : nat) (g : Game) (b : Block) :
  distinct_blocks (blocks (current_blockset g)) ->
  blocks (current_blockset g) !! i = Some b ->
  blocks (current_blockset (select_block i g)) =
    alter (set_selected true) i (blocks (current_blockset g)) /\
  (forall k, In k (selected_blocks (current_blockset (select_block i g))) <->
             In k (selected_blocks (current_blockset g)) \/ k = i).
Proof.
  intros Hd Hb. unfold select_block. rewrite (in_blocks_of_lookup _ i b Hb).
  match goal with
  | |- context [fire_selection_change ?x] =>
    destruct (fire_selection_change_shape x) as (h & idx & ->)
  end.
  fields. split; [reflexivity|]. intros k.
  apply set_add_In, distinct_blocks_set_selected, Hd.
Qed.




Lemma select_if_fold (test : Pos -> bool) (l : list nat) :
  forall g,
    distinct_blocks (blocks (current_blockset g)) ->
    let g' := fold_left (select_if test) l g in
    distinct_blocks (blocks (current_blockset g')) /\
    length (blocks (current_blockset g')) = length (blocks (current_blockset g)) /\
    (forall k c, blocks (current_blockset g) !! k = Some c ->
                 In k l -> test (pos c) = true ->
                 blocks (current_blockset g') !! k = Some (set_selected true c)) /\
    (forall k c, blocks (current_blockset g) !! k = Some c ->
                 ~ In k l \/ test (pos c) = false ->
                 blocks (current_blockset g') !! k = Some c) /\
    (forall k, In k (selected_blocks (current_blockset g')) <->
               In k (selected_blocks (current_blockset g)) \/
               (In k l /\ exists c, blocks (current_blockset g) !! k = Some c /\
                                    test (pos c) = true)).
Proof.
  induction l as [|i l IH]; intros g Hd; cbv zeta; simpl.
  - split; [exact Hd|]. split; [reflexivity|]. split; [intros k c _ []|].
    split; [auto|]. intros k. split; [auto|]. intros [H|[[] _]]. exact H.
  - destruct (blocks (current_blockset g) !! i) as [b|] eqn:Hb.
    2:{ assert (Hs : select_if test g i = g)
          by (unfold select_if; rewrite Hb; reflexivity).
        rewrite Hs. destruct (IH g Hd) as (H1 & H2 & H3 & H4 & H5).
        split; [exact H1|]. split; [exact H2|]. split; [|split].
        - intros k c Hk [<-|Hin] Ht; [congruence|]. now apply H3.
        - intros k c Hk Hor. apply H4; [exact Hk|]. tauto.
        - intros k. rewrite H5. split; [tauto|].
          intros [H|[[<-|Hin] (c & Hc & Ht)]]; [tauto|congruence|]. right. eauto. }
    destruct (test (pos b)) eqn:Ht.
    2:{ assert (Hs : select_if test g i = g)
          by (unfold select_if; rewrite Hb, Ht; reflexivity).
        rewrite Hs. destruct (IH g Hd) as (H1 & H2 & H3 & H4 & H5).
        split; [exact H1|]. split; [exact H2|]. split; [|split].
        - intros k c Hk [<-|Hin] Htc; [congruence|]. now apply H3.
        - intros k c Hk Hor. apply H4; [exact Hk|]. tauto.
        - intros k. rewrite H5. split; [tauto|].
          intros [H|[[<-|Hin] (c & Hc & Htc)]]; [tauto|congruence|]. right. eauto. }
    assert (Hs : select_if test g i = select_block i g)
      by (unfold select_if; rewrite Hb, Ht; reflexivity).
    rewrite Hs. clear Hs.
    destruct (select_block_effect i g b Hd Hb) as [E1 E2]. revert E1 E2.
    generalize (select_block i g). intros g1 E1 E2.
    assert (Hd1 : distinct_blocks (blocks (current_blockset g1))).
    { rewrite E1. now apply distinct_blocks_set_selected. }
    destruct (IH g1 Hd1) as (H1 & H2 & H3 & H4 & H5).
    split; [exact H1|]. split; [rewrite H2, E1; apply length_alter|].
    assert (Hlook : forall k c, blocks (current_blockset g) !! k = Some c ->
              blocks (current_blockset g1) !! k =
              Some (if decide (k = i) then set_selected true c else c)).
    { intros k c Hk. rewrite E1. destruct (decide (k = i)) as [->|Hne].
      - rewrite list_lookup_alter_eq, Hk. reflexivity.
      - rewrite list_lookup_alter_ne by congruence. exact Hk. }
    split; [|split].
    + intros k c Hk Hin Htc. specialize (Hlook k c Hk).
      destruct (in_dec Nat.eq_dec k l) as [Hl|Hl].
      * rewrite (H3 k _ Hlook Hl); [destruct (decide (k = i)); reflexivity|].
        destruct (decide (k = i)); exact Htc.
      * destruct Hin as [<-|Hin]; [|contradiction].
        rewrite (H4 i _ Hlook (or_introl Hl)).
        destruct (decide (i = i)); [reflexivity|congruence].
    + intros k c Hk Hor. specialize (Hlook k c Hk).
      assert (Hne : k <> i).
      { intros ->. destruct Hor as [Hn|Hf]; [apply Hn; now left|congruence]. }
      destruct (decide (k = i)); [contradiction|].
      apply (H4 k c Hlook). destruct Hor as [Hn|Hf]; [left|now right].
      intros Hl. apply Hn. now right.
    + intros k. rewrite H5, E2. split.
      * intros [[H| ->]|[Hl (c & Hc & Htc)]]; [now left| |].
        -- right. split; [now left|eauto].
        -- right. split; [now right|]. rewrite E1 in Hc.
           destruct (decide (k = i)) as [->|Hne].
           ++ eauto.
           ++ rewrite list_lookup_alter_ne in Hc by congruence. eauto.
      * intros [H|[[<-|Hl] (c & Hc & Htc)]]; [tauto|tauto|].
        right. split; [exact Hl|]. specialize (Hlook k c Hc).
        eexists. split; [exact Hlook|]. destruct (decide (k = i)); exact Htc.
Qed.

Lemma select_blocks_in_area_fold (a b : Pos) (g : Game) :
  select_blocks_in_area a b g =
  fold_left
    (select_if (fun p => (Z.min (fst a) (fst b) <=? fst p) &&
                         (fst p <=? Z.max (fst a) (fst b)) &&
                         (Z.min (snd a) (snd b) <=? snd p) &&
                         (snd p <=? Z.max (snd a) (snd b))))
    (seq 0 (length (blocks (current_blockset g)))) g.
Proof. reflexivity. Qed.

(** X18.  Selecting an area on a grid whose cells are pairwise distinct
    flags and adds to the selected set exactly the cells whose position lies
    in the rectangle spanned by the two corners, borders included, in
    whichever order the corners are given; cells already selected stay
    selected, and no cell moves or changes otherwise. *)
Theorem X18_area_selection (a b : Pos) (g : Game) :
  distinct_blocks (blocks (current_blockset g)) ->
  let g' := select_blocks_in_area a b g in
  length (blocks (current_blockset g')) = length (blocks (current_blockset g)) /\
  (forall k c, blocks (current_blockset g) !! k = Some c ->
     (in_rectangle a b (pos c) ->
      blocks (current_blockset g') !! k = Some (set_selected true c)) /\
     (~ in_rectangle a b (pos c) -> blocks (current_blockset g') !! k = Some c)) /\
  (forall k, In k (selected_blocks (current_blockset g')) <->
             In k (selected_blocks (current_blockset g)) \/
             exists c, blocks (current_blockset g) !! k = Some c /\
                       in_rectangle a b (pos c)).
Proof.
  intros Hd. cbv zeta. rewrite select_blocks_in_area_fold.
  set (test := fun p : Pos => _).
  assert (Htest : forall p, test p = true <-> in_rectangle a b p).
  { intros p. unfold test, in_rectangle.
    rewrite !andb_true_iff, !Z.leb_le. tauto. }
  destruct (select_if_fold test (seq 0 (length (blocks (current_blockset g)))) g Hd)
    as (_ & H2 & H3 & H4 & H5).
  assert (Hseq : forall k c, blocks (current_blockset g) !! k = Some c ->
                   In k (seq 0 (length (blocks (current_blockset g))))).
  { intros k c Hk. apply in_seq. apply lookup_lt_Some in Hk. lia. }
  split; [exact H2|]. split.
  - intros k c Hk. split.
    + intros Hr. apply (H3 k c Hk (Hseq k c Hk)). now apply Htest.
    + intros Hr. apply (H4 k c Hk). right.
      destruct (test (pos c)) eqn:E; [|reflexivity].
      exfalso. apply Hr. now apply Htest.
  - intros k. rewrite H5. split.
    + intros [H|[_ (c & Hc & Ht)]]; [now left|]. right. exists c.
      split; [exact Hc|now apply Htest].
    + intros [H|(c & Hc & Hr)]; [now left|]. right.
      split; [exact (Hseq k c Hc)|]. exists c. split; [exact Hc|now apply Htest].
Qed.

Lemma X18_area_selection_example :
  In 1%nat (selected_blocks (current_blockset
              (select_blocks_in_area (1, 0) (0, 0) example_level))).
Proof.
  refine (proj2 (proj2 (proj2 (X18_area_selection (1, 0) (0, 0) example_level _))
                       1%nat) _).
  - intros i j bi bj Hi Hj E.
    destruct i as [|[|[|i]]]; destruct j as [|[|[|j]]]; try reflexivity;
      vm_compute in Hi, Hj; try discriminate;
      injection Hi as <-; injection Hj as <-; discriminate E.
  - right. exists (solid 1 (1, 0)). split; [reflexivity|].
    unfold in_rectangle. simpl. lia.
Defined.

(** ** Snapshots, undo and redo *)

Lemma restore_blocks_lookup (state_blocks : list (Pos * bool)) :
  forall bs i k,
    blocks (restore_blocks bs i state_blocks) !! k =
    match (if (i <=? k)%nat then state_blocks !! (k - i)%nat else None) with
    | Some (p, f) => (fun b => set_selected f (set_pos p b)) <$> blocks bs !! k
    | None => blocks bs !! k
    end.
Proof.
  induction state_blocks as [|[p f] rest IH]; intros bs i k; simpl.
  - destruct (i <=? k)%nat; reflexivity.
  - rewrite IH.
    assert (Hstep : forall j, blocks (restore_block bs i (p, f)) !! j =
                      if decide (j = i)
                      then (fun b => set_selected f (set_pos p b)) <$> blocks bs !! j
                      else blocks bs !! j).
    { intros j. unfold restore_block.
      destruct (Nat.ltb_spec i (length (blocks bs))) as [Hlt|Hge]; simpl.
      - destruct (decide (j = i)) as [->|Hne].
        + apply list_lookup_alter_eq.
        + apply list_lookup_alter_ne. congruence.
      - destruct (decide (j = i)) as [->|Hne]; [|reflexivity].
        rewrite (lookup_ge_None_2 _ _ Hge). reflexivity. }
    rewrite Hstep.
    destruct (Nat.leb_spec (S i) k) as [H1|H1];
      destruct (Nat.leb_spec i k) as [H2|H2]; try lia.
    + replace (k - i)%nat with (S (k - S i)) by lia. simpl.
      destruct (decide (k = i)); [lia|]. reflexivity.
    + assert (k = i) as -> by lia. rewrite Nat.sub_diag. simpl.
      destruct (decide (i = i)); [reflexivity|congruence].
    + destruct (decide (k = i)); [lia|]. reflexivity.
Qed.

Lemma restore_blocks_snapshot (bs : BlockSet) (state_blocks : list (Pos * bool)) :
  length state_blocks = length (blocks bs) ->
  snapshot_of (restore_blocks bs 0 state_blocks) = state_blocks.
Proof.
  intros Hlen. unfold snapshot_of. apply list_eq. intros k.
  rewrite lookup_map, restore_blocks_lookup. simpl. rewrite Nat.sub_0_r.
  destruct (state_blocks !! k) as [[p f]|] eqn:E.
  - destruct (blocks bs !! k) as [b|] eqn:Hb; [reflexivity|].
    apply lookup_lt_Some in E. apply lookup_ge_None in Hb. lia.
  - destruct (blocks bs !! k) as [b|] eqn:Hb; [|reflexivity].
    apply lookup_lt_Some in Hb. apply lookup_ge_None in E. lia.
Qed.

Lemma restore_state_effect (state_blocks : list (Pos * bool)) (c : bool) (g : Game) :
  length state_blocks = length (blocks (current_blockset g)) ->
  snapshot_of (current_blockset (_restore_state (state_blocks, c) g)) = state_blocks /\
  history (_restore_state (state_blocks, c) g) = history g /\
  history_index (_restore_state (state_blocks, c) g) = history_index g.
Proof.
  intros Hlen. unfold _restore_state. fields.
  split; [now apply restore_blocks_snapshot|]. split; reflexivity.
Qed.

(** X19.  Restoring a snapshot that has one entry per cell puts every cell
    at the position and gives it the flag the snapshot records, so that a
    snapshot taken right afterwards is the snapshot restored; the confirmed
    flag becomes the recorded one, the failed constraints are emptied, and
    the cells keep their types, faces and original positions. *)
Theorem X19_restore_then_snapshot (state_blocks : list (Pos * bool)) (c : bool)
        (g : Game) :
  length state_blocks = length (blocks (current_blockset g)) ->
  let g' := _restore_state (state_blocks, c) g in
  snapshot_of (current_blockset g') = state_blocks /\
  selection_confirmed g' = c /\ failed_constraints g' = [] /\
  map static_of (blocks (current_blockset g')) =
  map static_of (blocks (current_blockset g)) /\
  history g' = history g /\ history_index g' = history_index g.
Proof.
  intros Hlen. cbv zeta. unfold _restore_state. fields.
  split; [now apply restore_blocks_snapshot|].
  split; [reflexivity|]. split; [reflexivity|].
  split; [apply restore_blocks_static|]. split; reflexivity.
Qed.

Lemma X19_restore_example :
  snapshot_of (current_blockset
                 (_restore_state ([((0, 0), false); ((1, 0), true); ((3, 0), false)],
                                  true) example_selecting))
  = [((0, 0), false); ((1, 0), true); ((3, 0), false)].
Proof.
  refine (proj1 (X19_restore_then_snapshot
            [((0, 0), false); ((1, 0), true); ((3, 0), false)] true
            example_selecting _)).
  reflexivity.
Defined.

Lemma undo_redo_step (g : Game) (idx : Z) (state_blocks : list (Pos * bool))
      (c : bool) :
  py_getitem (history g) idx = Ok (state_blocks, c) ->
  length state_blocks = length (blocks (current_blockset g)) ->
  let g' := with_failed_constraints []
              (with_selection_confirmed false
                 (_restore_state (state_blocks, c)
                                 (with_history (history g) idx g))) in
  snapshot_of (current_blockset g') = state_blocks /\
  history g' = history g /\ history_index g' = idx /\
  selection_confirmed g' = false /\ failed_constraints g' = [].
Proof.
  intros Hget Hlen. cbv zeta.
  destruct (restore_state_effect state_blocks c
              (with_history (history g) idx g) Hlen) as (H1 & H2 & H3).
  revert H1 H2 H3.
  generalize (_restore_state (state_blocks, c) (with_history (history g) idx g)).
  intros r H1 H2 H3. fields. auto.
Qed.

(** X20.  Undo does nothing when the cursor is at the first entry or before
    it, and Redo nothing when it is at the last entry.  Otherwise Undo moves
    the cursor one entry back and Redo one entry forward, and, when that
    entry has one record per cell, every cell is put at the position and
    given the flag recorded there; the history itself is unchanged, the
    session is left unconfirmed whatever the entry records, and the failed
    constraints are emptied. *)
Theorem X20_undo_and_redo (g : Game) :
  (history_index g <= 0 -> _undo g = Ok g) /\
  (Z.of_nat (length (history g)) - 1 <= history_index g -> _redo g = Ok g) /\
  (forall state_blocks c,
      0 < history_index g ->
      py_getitem (history g) (history_index g - 1) = Ok (state_blocks, c) ->
      length state_blocks = length (blocks (current_blockset g)) ->
      exists g', _undo g = Ok g' /\
                 snapshot_of (current_blockset g') = state_blocks /\
                 history g' = history g /\
                 history_index g' = history_index g - 1 /\
                 selection_confirmed g' = false /\ failed_constraints g' = []) /\
  (forall state_blocks c,
      history_index g < Z.of_nat (length (history g)) - 1 ->
      py_getitem (history g) (history_index g + 1) = Ok (state_blocks, c) ->
      length state_blocks = length (blocks (current_blockset g)) ->
      exists g', _redo g = Ok g' /\
                 snapshot_of (current_blockset g') = state_blocks /\
                 history g' = history g /\
                 history_index g' = history_index g + 1 /\
                 selection_confirmed g' = false /\ failed_constraints g' = []).
Proof.
  split; [|split; [|split]].
  - intros H. unfold _undo. destruct (Z.ltb_spec 0 (history_index g)); [lia|reflexivity].
  - intros H. unfold _redo.
    destruct (Z.ltb_spec (history_index g) (Z.of_nat (length (history g)) - 1));
      [lia|reflexivity].
  - intros st c Hlt Hget Hlen. unfold _undo.
    destruct (Z.ltb_spec 0 (history_index g)); [|lia]. fields. rewrite Hget.
    cbn [mbind result_bind]. eexists. split; [reflexivity|].
    exact (undo_redo_step g (history_index g - 1) st c Hget Hlen).
  - intros st c Hlt Hget Hlen. unfold _redo.
    destruct (Z.ltb_spec (history_index g) (Z.of_nat (length (history g)) - 1));
      [|lia]. fields. rewrite Hget.
    cbn [mbind result_bind]. eexists. split; [reflexivity|].
    exact (undo_redo_step g (history_index g + 1) st c Hget Hlen).
Qed.

Lemma X20_undo_example :
  exists g', _undo example_selecting = Ok g' /\
             snapshot_of (current_blockset g') =
             [((0, 0), true); ((1, 0), false); ((3, 0), false)].
Proof.
  destruct (proj1 (proj2 (proj2 (X20_undo_and_redo example_selecting)))
              [((0, 0), true); ((1, 0), false); ((3, 0), false)] false)
    as (g' & H1 & H2 & _).
  - reflexivity.
  - reflexivity.
  - reflexivity.
  - exists g'. split; [exact H1|exact H2].
Defined.

(** ** The Confirm button and the end of a level *)

(** X21.  A press on Confirm evaluates the required constraints at the
    selection stage.  If some fail, the session stays unconfirmed and
    reports their names, and neither the grid nor the history changes.  If
    none fails the session becomes confirmed: with a non-empty selection one
    snapshot, recorded as confirmed, is pushed on the history; with an empty
    selection the session is confirmed all the same, and nothing is
    pushed. *)
Theorem X21_confirm_button (p : Pos) (g : Game) (results : Results) :
  current_state g = "in_level_chooseblock" ->
  check_constraints (current_blockset g) (constraints g) Selection = Ok results ->
  exists g',
    _handle_mouse_down (Some "confirm") p g = Ok g' /\
    current_blockset g' = current_blockset g /\
    (failed_names results <> [] ->
     selection_confirmed g' = false /\
     failed_constraints g' = failed_names results /\
     history g' = history g /\ history_index g' = history_index g) /\
    (failed_names results = [] ->
     selection_confirmed g' = true /\ failed_constraints g' = [] /\
     (selected_blocks (current_blockset g) = [] ->
      history g' = history g /\ history_index g' = history_index g) /\
     (selected_blocks (current_blockset g) <> [] ->
      history g' = pushed_history (history g) (history_index g)
                                  (snapshot_of (current_blockset g), true) /\
      history_index g' = Z.of_nat (length (history g')) - 1)).
Proof.
  intros Hst Hc. unfold _handle_mouse_down, handle_click.
  rewrite Hst, !String.eqb_refl, Hc. cbn [mbind result_bind].
  destruct (failed_names results) as [|n ns] eqn:Hf; cbn [mbind result_bind].
  - rewrite handle_action_confirm. unfold _confirm_selection. fields.
    destruct (selected_blocks (current_blockset g)) as [|r sel] eqn:Hsel.
    + eexists. split; [reflexivity|]. fields. split; [reflexivity|].
      split; [congruence|]. intros _. split; [reflexivity|]. split; [reflexivity|].
      split; [auto|congruence].
    + rewrite save_state_eq. cbv zeta. fields.
      eexists. split; [reflexivity|]. fields. split; [reflexivity|].
      split; [congruence|]. intros _. split; [reflexivity|]. split; [reflexivity|].
      split; [congruence|]. intros _. split; reflexivity.
  - rewrite handle_action_reselection.
    eexists. split; [reflexivity|]. fields. split; [reflexivity|].
    split; [|congruence]. intros _. repeat split; reflexivity.
Qed.

Lemma X21_confirm_empty_selection_example :
  exists g',
    _handle_mouse_down (Some "confirm") (0, 0) example_level = Ok g' /\
    selection_confirmed g' = true /\ history g' = [].
Proof.
  destruct (X21_confirm_button (0, 0) example_level [("glue", true)])
    as (g' & H1 & _ & _ & H2).
  - reflexivity.
  - vm_compute. reflexivity.
  - destruct (H2 eq_refl) as (Hc & _ & He & _).
    exists g'. split; [exact H1|]. split; [exact Hc|].
    exact (proj1 (He eq_refl)).
Defined.

Lemma motion_and_release_idle_off_level (g : Game) :
  current_state g <> "in_level_chooseblock" ->
  (forall p, _handle_mouse_motion p g = Ok g) /\
  (forall mouse, _handle_mouse_up mouse g = Ok g).
Proof.
  intros Hst. unfold _handle_mouse_motion, _handle_mouse_up.
  destruct (String.eqb_spec (current_state g) "in_level_chooseblock");
    [contradiction|]. auto.
Qed.

(** X22.  When the drag of a confirmed selection ends and no required
    constraint fails at the movement stage, releasing the mouse completes
    the level: the session shows the congratulation screen, the level is
    marked completed, the cells stay where the drag left them, and the
    history is not extended.  From then on mouse motions and releases leave
    the session as it is. *)
Theorem X22_passing_drop_completes_level (mouse : Pos) (g g1 : Game)
        (results : Results) :
  current_state g = "in_level_chooseblock" ->
  dragging (drag g) = true ->
  selection_confirmed g = true ->
  end_drag mouse g = Ok g1 ->
  check_constraints (current_blockset g1) (constraints g) Movement = Ok results ->
  failed_names results = [] ->
  exists g',
    _handle_mouse_up mouse g = Ok g' /\
    current_state g' = "congrats" /\ completed g' = true /\
    failed_constraints g' = [] /\
    current_blockset g' = current_blockset g1 /\
    history g' = history g /\ history_index g' = history_index g /\
    (forall p, _handle_mouse_motion p g' = Ok g') /\
    (forall m, _handle_mouse_up m g' = Ok g').
Proof.
  intros Hst Hdrag Hconf Hend Hcheck Hfail.
  destruct (end_drag_shape mouse g g1 Hconf Hend) as (bl & d & -> & _).
  unfold _handle_mouse_up. rewrite Hst, String.eqb_refl, Hdrag, Hend. fields.
  rewrite Hconf. fields in Hcheck. rewrite Hcheck. fields. rewrite Hfail.
  eexists. split; [reflexivity|]. fields.
  do 6 (split; [reflexivity|]).
  apply motion_and_release_idle_off_level. fields. discriminate.
Qed.

Lemma X22_passing_drop_example :
  exists g', _handle_mouse_up (5, 5) example_dragging = Ok g' /\
             current_state g' = "congrats".
Proof.
  destruct (X22_passing_drop_completes_level (5, 5) example_dragging
              example_dropped [("glue", true)])
    as (g' & H1 & H2 & _).
  - reflexivity.
  - reflexivity.
  - reflexivity.
  - vm_compute. reflexivity.
  - vm_compute. reflexivity.
  - reflexivity.
  - exists g'. split; [exact H1|exact H2].
Defined.

(** ** Pixels and cells *)

Lemma floor_div_iff (a c x : Z) : 0 < c -> a / c = x <-> x * c <= a < x * c + c.
Proof.
  intros Hc. pose proof (Z.div_mod a c ltac:(lia)) as Hdm.
  pose proof (Z.mod_pos_bound a c Hc) as Hb. split.
  - intros <-. nia.
  - intros [H1 H2]. nia.
Qed.

(** X23.  With a positive cell size, the pixel [get_screen_pos] gives for a
    grid position is mapped back onto that position by [get_grid_pos], and a
    pixel is inside a cell for [Block.is_point_inside] (called with the grid
    offset and the cell size) exactly when [get_grid_pos] maps the pixel onto
    the position of the cell. *)
Theorem X23_pixels_and_cells (g : Game) :
  0 < cell_size (layout g) ->
  (forall p, get_grid_pos g (get_screen_pos g p) = Ok p) /\
  (forall b point,
      is_point_inside b point (grid_offset (layout g)) (cell_size (layout g)) = true
      <-> get_grid_pos g point = Ok (pos b)).
Proof.
  intros Hc. unfold get_grid_pos, get_screen_pos, py_floordiv.
  destruct (Z.eqb_spec (cell_size (layout g)) 0) as [E|_]; [lia|].
  cbn [mbind result_bind]. split.
  - intros [x y]. cbn [fst snd].
    rewrite !Z.add_simpl_r, !Z.div_mul by lia. reflexivity.
  - intros b [px py]. unfold is_point_inside. cbn [fst snd].
    destruct (pos b) as [x y]. cbn [fst snd].
    rewrite !andb_true_iff, !Z.leb_le, !Z.ltb_lt.
    pose proof (floor_div_iff (px - fst (grid_offset (layout g)))
                              (cell_size (layout g)) x Hc) as Hx.
    pose proof (floor_div_iff (py - snd (grid_offset (layout g)))
                              (cell_size (layout g)) y Hc) as Hy.
    split.
    + intros [[H1 H2] [H3 H4]].
      rewrite (proj2 Hx) by lia. rewrite (proj2 Hy) by lia. reflexivity.
    + intros H. injection H as H1 H2. apply Hx in H1. apply Hy in H2. lia.
Qed.

Lemma X23_pixels_and_cells_example :
  get_grid_pos example_level (get_screen_pos example_level (3, 0)) = Ok (3, 0).
Proof.
  apply (proj1 (X23_pixels_and_cells example_level ltac:(reflexivity))).
Defined.

(** ** The layout of a level *)

Lemma py_range_nonneg (l : list Z) : l <> [] -> py_min l <= py_max l.
Proof.
  intros H. destruct (py_min_spec l H) as [Hin _].
  destruct (py_max_spec l H) as [_ Hmax]. now apply Hmax.
Qed.

Lemma calc_max_rect_positive (level_blocks : list Block) :
  1 <= fst (_calc_max_rect level_blocks) /\ 1 <= snd (_calc_max_rect level_blocks).
Proof.
  unfold _calc_max_rect. destruct level_blocks as [|b bl] eqn:E; [simpl; lia|].
  rewrite <- E. cbn [fst snd].
  assert (Hm : forall f : Block -> Z, map f level_blocks <> []).
  { intros f N. apply map_eq_nil in N. congruence. }
  pose proof (py_range_nonneg _ (Hm (fun b => fst (pos b)))).
  pose proof (py_range_nonneg _ (Hm (fun b => snd (pos b)))). lia.
Qed.

(** X24.  For a level with non-negative margins, in a window at least 420
    pixels wide and 40 high, [set_level_layout] returns a layout: the grid
    has at least one column and row, so no division by zero occurs.  The cell
    size is between 0 and 60, and positive exactly when the grid has no more
    columns than the window leaves pixels for it, and no more rows.  The
    rectangle reserved for the grid stays 20 pixels clear of the information
    panel on its left, of the button column on its right and of the top and
    bottom of the window. *)
Theorem X24_level_layout (width height ml mt mr mb : Z) (level_blocks : list Block) :
  0 <= ml -> 0 <= mt -> 0 <= mr -> 0 <= mb -> 420 <= width -> 40 <= height ->
  exists l,
    set_level_layout width height ml mt mr mb (_calc_max_rect level_blocks) = Ok l /\
    grid_w l = fst (_calc_max_rect level_blocks) + ml + mr /\
    grid_h l = snd (_calc_max_rect level_blocks) + mt + mb /\
    0 <= cell_size l <= 60 /\
    (0 < cell_size l <-> grid_w l <= width - 420 /\ grid_h l <= height - 40) /\
    let '(area_x, area_y, area_w, area_h) := grid_area l in
    info_width + 20 <= area_x /\ area_x + area_w <= width - button_width - 20 /\
    20 <= area_y /\ area_y + area_h <= height - 20.
Proof.
  intros Hml Hmt Hmr Hmb Hw Hh.
  destruct (calc_max_rect_positive level_blocks) as [H1 H2].
  destruct (_calc_max_rect level_blocks) as [max_w max_h]. cbn [fst snd] in *.
  unfold set_level_layout, py_floordiv, info_width, button_width.
  destruct (Z.eqb_spec (max_w + ml + mr) 0) as [E|_]; [lia|].
  destruct (Z.eqb_spec (max_h + mt + mb) 0) as [E|_]; [lia|].
  cbn [mbind result_bind Z.eqb].
  set (gw := max_w + ml + mr). set (gh := max_h + mt + mb).
  set (cw := (width - 260 - 120 - 40) / gw). set (ch := (height - 40) / gh).
  assert (Hgw : 0 < gw) by (unfold gw; lia).
  assert (Hgh : 0 < gh) by (unfold gh; lia).
  assert (Hcw : 0 <= cw /\ cw * gw <= width - 420 /\ (0 < cw <-> gw <= width - 420)).
  { unfold cw. replace (width - 260 - 120 - 40) with (width - 420) by lia.
    pose proof (Z.div_mod (width - 420) gw ltac:(lia)).
    pose proof (Z.mod_pos_bound (width - 420) gw Hgw).
    split; [apply Z.div_pos; lia|]. split; [nia|]. split; intros; nia. }
  assert (Hch : 0 <= ch /\ ch * gh <= height - 40 /\ (0 < ch <-> gh <= height - 40)).
  { unfold ch.
    pose proof (Z.div_mod (height - 40) gh ltac:(lia)).
    pose proof (Z.mod_pos_bound (height - 40) gh Hgh).
    split; [apply Z.div_pos; lia|]. split; [nia|]. split; intros; nia. }
  set (c := Z.min (Z.min cw ch) 60).
  assert (Hc : 0 <= c <= 60 /\ c <= cw /\ c <= ch /\ (0 < c <-> 0 < cw /\ 0 < ch))
    by (unfold c; lia).
  eexists. split; [reflexivity|]. unfold grid_area.
  cbn [grid_w grid_h cell_size grid_offset margin_left margin_top fst snd].
  split; [reflexivity|]. split; [reflexivity|]. split; [lia|].
  split; [tauto|].
  assert (Haw : 0 <= gw * c <= width - 420) by nia.
  assert (Hah : 0 <= gh * c <= height - 40) by nia.
  pose proof (Z.div_mod (width - 260 - 120 - gw * c) 2 ltac:(lia)).
  pose proof (Z.mod_pos_bound (width - 260 - 120 - gw * c) 2 ltac:(lia)).
  pose proof (Z.div_mod (height - gh * c) 2 ltac:(lia)).
  pose proof (Z.mod_pos_bound (height - gh * c) 2 ltac:(lia)).
  lia.
Qed.

Lemma X24_level_layout_example :
  exists l,
    set_level_layout 1200 800 4 4 4 4
      (_calc_max_rect [solid 1 (0, 0); solid 1 (1, 0); solid 1 (3, 0)]) = Ok l /\
    cell_size l = 60.
Proof.
  destruct (X24_level_layout 1200 800 4 4 4 4
              [solid 1 (0, 0); solid 1 (1, 0); solid 1 (3, 0)])
    as (l & H & _); try lia.
  exists l. split; [exact H|].
  vm_compute in H. injection H as <-. reflexivity.
Defined.

Lemma scaled_le (a b c : Z) : 0 < c -> a * c <= b * c <-> a <= b.
Proof. intros Hc. split; intros H; nia. Qed.

(** X25.  With a positive cell size, a grid position is accepted by the
    bounds test of a drag exactly when its cell is drawn inside the rectangle
    reserved for the grid, widened on the right by [margin_left -
    margin_right] columns and at the bottom by [margin_top - margin_bottom]
    rows: the test subtracts the right margin where the grid starts with the
    left one.  With equal opposite margins the accepted positions are those
    drawn inside the rectangle. *)
Theorem X25_bounds_and_grid_area (g : Game) (p : Pos) :
  0 < cell_size (layout g) ->
  let '(area_x, area_y, area_w, area_h) := grid_area (layout g) in
  let '(sx, sy) := get_screen_pos g p in
  let c := cell_size (layout g) in
  in_bounds (layout g) p = true <->
  (area_x <= sx /\
   sx + c <= area_x + area_w + (margin_left (layout g) - margin_right (layout g)) * c) /\
  (area_y <= sy /\
   sy + c <= area_y + area_h + (margin_top (layout g) - margin_bottom (layout g)) * c).
Proof.
  intros Hc. unfold grid_area, get_screen_pos, in_bounds. cbv zeta.
  destruct p as [x y]. cbn [fst snd].
  set (l := layout g) in *. set (c := cell_size l) in *.
  rewrite negb_true_iff, !orb_false_iff, !Z.ltb_ge, !Z.leb_gt.
  pose proof (scaled_le (- margin_left l) x c Hc) as H1.
  pose proof (scaled_le (x + 1) (grid_w l - margin_right l) c Hc) as H2.
  pose proof (scaled_le (- margin_top l) y c Hc) as H3.
  pose proof (scaled_le (y + 1) (grid_h l - margin_bottom l) c Hc) as H4.
  split.
  - intros [[[Ha Hb] Hd] He].
    apply H1 in Ha. apply H3 in Hd.
    assert (Hb' : x + 1 <= grid_w l - margin_right l) by lia.
    assert (He' : y + 1 <= grid_h l - margin_bottom l) by lia.
    apply H2 in Hb'. apply H4 in He'. lia.
  - intros [[Ha Hb] [Hd He]].
    assert (Ha' : - margin_left l * c <= x * c) by lia.
    assert (Hb' : (x + 1) * c <= (grid_w l - margin_right l) * c) by lia.
    assert (Hd' : - margin_top l * c <= y * c) by lia.
    assert (He' : (y + 1) * c <= (grid_h l - margin_bottom l) * c) by lia.
    apply H1 in Ha'. apply H2 in Hb'. apply H3 in Hd'. apply H4 in He'. lia.
Qed.

Lemma X25_bounds_example :
  in_bounds (mkLayout 6 4 2 4 11 9 40 (240, 160)) (8, 0) = true /\
  fst (get_screen_pos
         (_load_level [] [] (mkLayout 6 4 2 4 11 9 40 (240, 160))) (8, 0)) + 40
  > 0 + 11 * 40.
Proof.
  pose proof (X25_bounds_and_grid_area
                (_load_level [] [] (mkLayout 6 4 2 4 11 9 40 (240, 160))) (8, 0)
                ltac:(reflexivity)) as H.
  cbv zeta in H. split; [|reflexivity].
  apply H. vm_compute. repeat split; discriminate.
Defined.

(** ** Moving the selected cells of a grid *)

Lemma fold_alter_lookup_once (f : Block -> Block) (sel : list nat) :
  forall (bl : list Block) (i : nat),
    NoDup sel -> In i sel ->
    fold_left (fun bl i => alter f i bl) sel bl !! i = f <$> (bl !! i).
Proof.
  induction sel as [|r sel IH]; intros bl i Hnd Hin; [destruct Hin|].
  inversion Hnd as [|? ? Hr Hnd']; subst. simpl.
  destruct Hin as [->|Hin].
  - rewrite fold_alter_lookup_notin by (rewrite <- list_elem_of_In; exact Hr).
    apply list_lookup_alter_eq.
  - rewrite (IH _ _ Hnd' Hin). rewrite list_lookup_alter_ne; [reflexivity|].
    intros ->. apply Hr. now apply list_elem_of_In.
Qed.

Lemma set_pos_twice (p q : Pos) (b : Block) : set_pos q (set_pos p b) = set_pos q b.
Proof. reflexivity. Qed.

Lemma set_pos_same (b : Block) : set_pos (pos b) b = b.
Proof. destruct b. reflexivity. Qed.

Lemma move_selected_lookup (d : Pos) (bs : BlockSet) (i : nat) :
  NoDup (selected_blocks bs) ->
  blocks (move_selected_blocks d bs) !! i =
  if in_dec Nat.eq_dec i (selected_blocks bs)
  then (fun b => set_pos (fst (pos b) + fst d, snd (pos b) + snd d) b)
         <$> blocks bs !! i
  else blocks bs !! i.
Proof.
  intros Hnd. unfold move_selected_blocks. cbn [blocks].
  destruct (in_dec Nat.eq_dec i (selected_blocks bs)) as [Hin|Hn].
  - exact (fold_alter_lookup_once _ _ _ _ Hnd Hin).
  - now apply fold_alter_lookup_notin.
Qed.

Lemma BlockSet_eq (a b : BlockSet) :
  (forall i, blocks a !! i = blocks b !! i) ->
  selected_blocks a = selected_blocks b ->
  on_selection_change a = on_selection_change b -> a = b.
Proof.
  destruct a, b. simpl. intros H -> ->. f_equal. now apply list_eq.
Qed.

(** X26.  On a grid whose selected set holds each cell once,
    [move_selected_blocks] shifts every selected cell by the offset and
    leaves the other cells alone; two moves in a row are one move by the sum
    of the offsets; and when the selected cells were at their original
    positions, [reset_selected_blocks] after a move gives back the grid as it
    was. *)
Theorem X26_moving_selected_cells (bs : BlockSet) (d d' : Pos) :
  NoDup (selected_blocks bs) ->
  (forall i b, blocks bs !! i = Some b ->
     (In i (selected_blocks bs) ->
      blocks (move_selected_blocks d bs) !! i =
      Some (set_pos (fst (pos b) + fst d, snd (pos b) + snd d) b)) /\
     (~ In i (selected_blocks bs) ->
      blocks (move_selected_blocks d bs) !! i = Some b)) /\
  move_selected_blocks d' (move_selected_blocks d bs) =
  move_selected_blocks (fst d + fst d', snd d + snd d') bs /\
  ((forall i b, In i (selected_blocks bs) -> blocks bs !! i = Some b ->
                pos b = original_pos b) ->
   reset_selected_blocks (move_selected_blocks d bs) = bs).
Proof.
  intros Hnd. split; [|split].
  - intros i b Hb. rewrite (move_selected_lookup d bs i Hnd), Hb.
    destruct (in_dec Nat.eq_dec i (selected_blocks bs)); split; intros H;
      try contradiction; reflexivity.
  - apply BlockSet_eq; [|reflexivity|reflexivity]. intros i.
    rewrite (move_selected_lookup d' (move_selected_blocks d bs) i Hnd).
    rewrite (move_selected_lookup (fst d + fst d', snd d + snd d') bs i Hnd).
    rewrite (move_selected_lookup d bs i Hnd).
    change (selected_blocks (move_selected_blocks d bs)) with (selected_blocks bs).
    destruct (in_dec Nat.eq_dec i (selected_blocks bs)); [|reflexivity].
    destruct (blocks bs !! i) as [b|]; [|reflexivity]. simpl.
    unfold set_pos. simpl. do 2 f_equal. f_equal; lia.
  - intros Horig. apply BlockSet_eq; [|reflexivity|reflexivity]. intros i.
    unfold reset_selected_blocks. cbn [blocks selected_blocks].
    change (selected_blocks (move_selected_blocks d bs)) with (selected_blocks bs).
    destruct (in_dec Nat.eq_dec i (selected_blocks bs)) as [Hin|Hn].
    + rewrite (fold_alter_lookup_once _ _ _ _ Hnd Hin).
      pose proof (move_selected_lookup d bs i Hnd) as Hm.
      destruct (in_dec Nat.eq_dec i (selected_blocks bs)); [|contradiction].
      rewrite Hm. destruct (blocks bs !! i) as [b|] eqn:Hb; [|reflexivity].
      simpl. f_equal. unfold reset_position. rewrite set_pos_twice.
      change (original_pos (set_pos _ b)) with (original_pos b).
      rewrite <- (Horig i b Hin Hb). apply set_pos_same.
    + rewrite fold_alter_lookup_notin by exact Hn.
      pose proof (move_selected_lookup d bs i Hnd) as Hm.
      destruct (in_dec Nat.eq_dec i (selected_blocks bs)); [contradiction|].
      exact Hm.
Qed.

Lemma X26_moving_example :
  reset_selected_blocks
    (move_selected_blocks (2, 1) (current_blockset example_selecting))
  = current_blockset example_selecting.
Proof.
  refine (proj2 (proj2 (X26_moving_selected_cells
            (current_blockset example_selecting) (2, 1) (0, 0) _)) _).
  - refine (bool_decide_unpack _ _); vm_compute; exact I.
  - intros i b Hin Hb.
    destruct i as [|[|i]]; vm_compute in Hb; try (injection Hb as <-; reflexivity).
    simpl in Hin. lia.
Defined.

(** X27.  [has_overlap] is true exactly when some position holds a cell of
    both grids; it does not depend on the order of the two grids, and a grid
    overlaps itself unless it is empty. *)
Theorem X27_has_overlap_meaning (bs other : BlockSet) :
  (has_overlap bs other = true <->
   exists p, In p (get_all_positions bs) /\ In p (get_all_positions other)) /\
  has_overlap bs other = has_overlap other bs /\
  (has_overlap bs bs = true <-> blocks bs <> []).
Proof.
  assert (Hmeaning : forall a b,
             has_overlap a b = true <->
             exists p, In p (get_all_positions a) /\ In p (get_all_positions b)).
  { intros a b. unfold has_overlap.
    destruct (filter _ (pos_set (get_all_positions a))) as [|p rest] eqn:E.
    - split; [discriminate|]. intros (p & Ha & Hb). exfalso.
      assert (Hin : p ∈ filter (fun p => pos_mem p (pos_set (get_all_positions b)) = true)
                               (pos_set (get_all_positions a))).
      { apply list_elem_of_filter. split.
        - apply pos_mem_In, pos_set_In, Hb.
        - apply list_elem_of_In, pos_set_In, Ha. }
      rewrite E in Hin. inversion Hin.
    - split; [|reflexivity]. intros _. exists p.
      assert (Hin : p ∈ filter (fun p => pos_mem p (pos_set (get_all_positions b)) = true)
                               (pos_set (get_all_positions a)))
        by (rewrite E; left).
      apply list_elem_of_filter in Hin. destruct Hin as [H1 H2].
      split.
      + apply (proj1 (pos_set_In _ _)), list_elem_of_In, H2.
      + apply (proj1 (pos_set_In _ _)), pos_mem_In, H1. }
  split; [apply Hmeaning|]. split.
  - destruct (has_overlap bs other) eqn:E1, (has_overlap other bs) eqn:E2;
      try reflexivity.
    + apply Hmeaning in E1. destruct E1 as (p & H1 & H2).
      rewrite <- E2. symmetry. apply Hmeaning. eauto.
    + apply Hmeaning in E2. destruct E2 as (p & H1 & H2).
      rewrite <- E1. apply Hmeaning. eauto.
  - rewrite Hmeaning. unfold get_all_positions. split.
    + intros (p & H & _) N. rewrite N in H. destruct H.
    + intros N. destruct (blocks bs) as [|b bl]; [congruence|].
      exists (pos b). simpl. auto.
Qed.

(** ** Dragging *)





Lemma moved_only_outside (sel : list nat) (bl bl' : list Block) (r : nat) :
  moved_only sel bl bl' -> ~ In r sel -> bl' !! r = bl !! r.
Proof.
  intros [Hlen H] Hn. destruct (bl' !! r) as [b'|] eqn:E.
  - destruct (H r b' E) as (b & Hb & _ & _ & Heq). rewrite Hb, (Heq Hn). reflexivity.
  - symmetry. apply lookup_ge_None. apply lookup_ge_None in E. lia.
Qed.

Lemma apply_drag_lookup (d : Drag) (colors : list (Z * Z * Z)) (valid : bool) :
  forall sel i (bl bl' : list Block),
    apply_drag_from d colors valid i sel bl = Ok bl' ->
    NoDup sel -> (i + length sel <= length colors)%nat ->
    forall (n r : nat),
      sel !! n = Some r ->
      exists c p,
        colors !! (i + n)%nat = Some c /\ drop_position d valid (i + n) p /\
        bl' !! r =
        (fun b => set_ghost false (set_selected false (set_pos p (set_color c b))))
          <$> bl !! r.
Proof.
  induction sel as [|r0 sel IH]; intros i bl bl' H Hnd Hlen n r Hn;
    [discriminate Hn|].
  simpl in H, Hlen. inversion Hnd as [|? ? Hr0 Hnd']; subst.
  destruct (colors !! i) as [c|] eqn:Ec;
    [|apply lookup_ge_None in Ec; lia].
  apply bind_Ok in H as (p & Hp & H).
  assert (Hsrc : drop_position d valid i p).
  { unfold drop_position. destruct valid.
    - destruct (temp_selected_block_set d) as [| |temp]; try discriminate.
      apply bind_Ok in Hp as (t & Ht & Hp). injection Hp as <-.
      unfold py_index in Ht. destruct (temp !! i) as [t'|] eqn:E; [|discriminate].
      injection Ht as ->. eauto.
    - unfold py_subscript in Hp. destruct (original_positions d) as [origs|];
        [|discriminate].
      unfold py_index in Hp. destruct (origs !! i) as [q|] eqn:E; [|discriminate].
      injection Hp as ->. eauto. }
  destruct n as [|n].
  - injection Hn as <-. exists c, p. rewrite Nat.add_0_r.
    split; [exact Ec|]. split; [exact Hsrc|].
    rewrite (moved_only_outside sel _ bl' r0
               (apply_drag_moved sel d colors valid sel (S i) _ bl'
                                 (fun r H => H) H)).
    + apply list_lookup_alter_eq.
    + rewrite <- list_elem_of_In. exact Hr0.
  - simpl in Hn.
    destruct (IH (S i) _ bl' H Hnd' ltac:(lia) n r Hn) as (c' & p' & H1 & H2 & H3).
    exists c', p'. replace (i + S n)%nat with (S i + n)%nat by lia.
    split; [exact H1|]. split; [exact H2|]. rewrite H3.
    rewrite list_lookup_alter_ne; [reflexivity|].
    intros ->. apply Hr0. apply list_elem_of_lookup_2 in Hn. exact Hn.
Qed.

(** X29.  When the drag of a confirmed, non-empty selection ends, the drop
    is all or nothing: either every selected cell takes the position of its
    preview copy, or every selected cell takes its recorded original
    position.  In both cases the cell gets back the colour recorded for it
    and loses its selected and ghost flags, the cells outside the selection
    are untouched, and the selected set itself is kept. *)
Theorem X29_drop_is_all_or_nothing (mouse : Pos) (g g1 : Game)
        (colors : list (Z * Z * Z)) :
  selection_confirmed g = true ->
  NoDup (selected_blocks (current_blockset g)) ->
  selected_blocks (current_blockset g) <> [] ->
  original_colors (drag g) = Some colors ->
  (length (selected_blocks (current_blockset g)) <= length colors)%nat ->
  end_drag mouse g = Ok g1 ->
  selected_blocks (current_blockset g1) = selected_blocks (current_blockset g) /\
  (forall r, ~ In r (selected_blocks (current_blockset g)) ->
             blocks (current_blockset g1) !! r = blocks (current_blockset g) !! r) /\
  exists valid,
    forall n r b',
      selected_blocks (current_blockset g) !! n = Some r ->
      blocks (current_blockset g1) !! r = Some b' ->
      drop_position (drag g) valid n (pos b') /\
      colors !! n = Some (color b') /\ selected b' = false /\ ghost b' = false.
Proof.
  intros Hconf Hnd Hne Hcol Hlen H.
  destruct (end_drag_shape mouse g g1 Hconf H) as (bl & d & Hshape & Hmoved).
  split; [rewrite Hshape; reflexivity|]. split.
  { intros r Hr. rewrite Hshape. fields. now apply (moved_only_outside _ _ _ r Hmoved). }
  clear bl d Hshape Hmoved. unfold end_drag in H.
  apply bind_Ok in H as ([is_valid off] & _ & H).
  rewrite Hconf in H. rewrite !andb_false_r in H.
  apply bind_Ok in H as (gm & Hgm & H).
  assert (Hsel : selected_blocks (current_blockset gm) =
                 selected_blocks (current_blockset g)).
  { destruct (negb is_valid).
    - apply bind_Ok in Hgm as (bl1 & _ & Hgm). injection Hgm as <-. reflexivity.
    - injection Hgm as <-. reflexivity. }
  clear Hgm. apply bind_Ok in H as (valid & _ & H).
  apply bind_Ok in H as (bl2 & Hbl2 & H). injection H as <-.
  rewrite Hsel, Hcol in Hbl2.
  destruct (selected_blocks (current_blockset g)) as [|r0 sel] eqn:Es; [congruence|].
  rewrite <- Es in *. exists valid. intros n r b' Hn Hb'. fields in Hb'.
  destruct (apply_drag_lookup _ _ _ _ _ _ _ Hbl2 Hnd ltac:(simpl; lia) n r Hn)
    as (c & p & H1 & H2 & H3).
  simpl in H1, H2. rewrite H3 in Hb'.
  destruct (blocks (current_blockset gm) !! r) as [b|]; [|discriminate].
  injection Hb' as <-. simpl. auto.
Qed.

Lemma X29_drop_example :
  selected_blocks (current_blockset example_dropped) = [0%nat; 1%nat].
Proof.
  refine (proj1 (X29_drop_is_all_or_nothing (5, 5) example_dragging example_dropped
                   [(0, 0, 0); (0, 0, 0)] _ _ _ _ _ _)).
  - reflexivity.
  - refine (bool_decide_unpack _ _); vm_compute; exact I.
  - discriminate.
  - reflexivity.
  - simpl. lia.
  - vm_compute. reflexivity.
Defined.

(** ** The traversal of [_check_sail] *)

Lemma node_eqb_sym (a b : Node) : node_eqb a b = node_eqb b a.
Proof.
  unfold node_eqb.
  assert (H : forall x y, Qeq_bool x y = Qeq_bool y x).
  { intros x y. destruct (Qeq_bool x y) eqn:E1, (Qeq_bool y x) eqn:E2;
      try reflexivity.
    - apply Qeq_bool_iff in E1. symmetry in E1. apply Qeq_bool_iff in E1. congruence.
    - apply Qeq_bool_iff in E2. symmetry in E2. apply Qeq_bool_iff in E2. congruence. }
  rewrite (H (fst a)), (H (snd a)). reflexivity.
Qed.

Lemma node_eqb_trans (a b c : Node) :
  node_eqb a b = true -> node_eqb b c = true -> node_eqb a c = true.
Proof.
  unfold node_eqb. rewrite !andb_true_iff, !Qeq_bool_iff.
  intros [H1 H2] [H3 H4]. split; etransitivity; eassumption.
Qed.

Lemma node_mem_spec (a : Node) (l : list Node) :
  node_mem a l = true <-> exists x, In x l /\ node_eqb a x = true.
Proof. unfold node_mem. apply existsb_exists. Qed.

Lemma adjacency_spec (nodes : list Node) (key n : Node) :
  In n (adjacency nodes key) <-> sail_step nodes key n.
Proof.
  unfold adjacency, sail_step. rewrite in_flat_map. split.
  - intros (point & Hp & Hn). destruct (node_eqb point key) eqn:E; [|destruct Hn].
    apply list_elem_of_In in Hn. apply list_elem_of_filter in Hn as [Ha Hn].
    split; [now apply list_elem_of_In|]. exists point. auto.
  - intros (Hn & point & Hp & E & Ha). exists point. split; [exact Hp|].
    rewrite E. apply list_elem_of_In, list_elem_of_filter.
    split; [exact Ha|now apply list_elem_of_In].
Qed.

Lemma sail_step_eqb (nodes : list Node) (a a' n : Node) :
  node_eqb a a' = true -> sail_step nodes a n -> sail_step nodes a' n.
Proof.
  intros E (Hn & point & Hp & Hpa & Hadj). split; [exact Hn|].
  exists point. split; [exact Hp|]. split; [|exact Hadj].
  exact (node_eqb_trans _ _ _ Hpa E).
Qed.

Lemma node_mem_app_l (n : Node) (v w : list Node) :
  node_mem n v = true -> node_mem n (v ++ w) = true.
Proof. unfold node_mem. rewrite existsb_app. intros ->. reflexivity. Qed.

Lemma distinct_nodes_snoc (v : list Node) (c : Node) :
  distinct_nodes v -> node_mem c v = false -> distinct_nodes (v ++ [c]).
Proof.
  intros Hd Hc i j a b Hi Hj E.
  assert (Hnot : forall x, In x v -> node_eqb c x = false).
  { intros x Hx. destruct (node_eqb c x) eqn:Ex; [|reflexivity].
    assert (node_mem c v = true) by (apply node_mem_spec; eauto). congruence. }
  destruct (Nat.lt_ge_cases i (length v)) as [Li|Li];
    destruct (Nat.lt_ge_cases j (length v)) as [Lj|Lj].
  - rewrite lookup_app_l in Hi, Hj by assumption. exact (Hd i j a b Hi Hj E).
  - rewrite lookup_app_l in Hi by assumption. rewrite lookup_app_r in Hj by assumption.
    destruct (j - length v)%nat as [|k]; [|destruct k; discriminate Hj].
    injection Hj as <-. rewrite node_eqb_sym in E.
    apply list_elem_of_lookup_2, list_elem_of_In in Hi.
    rewrite (Hnot a Hi) in E. discriminate.
  - rewrite lookup_app_l in Hj by assumption. rewrite lookup_app_r in Hi by assumption.
    destruct (i - length v)%nat as [|k]; [|destruct k; discriminate Hi].
    injection Hi as <-.
    apply list_elem_of_lookup_2, list_elem_of_In in Hj.
    rewrite (Hnot b Hj) in E. discriminate.
  - rewrite lookup_app_r in Hi, Hj by assumption.
    destruct (i - length v)%nat as [|k] eqn:Ei; [|destruct k; discriminate Hi].
    destruct (j - length v)%nat as [|k] eqn:Ej; [|destruct k; discriminate Hj].
    lia.
Qed.

Lemma sail_bfs_visits (nodes : list Node) (first : Node) (fuel : nat) :
  forall visited queue r,
    sail_bfs fuel nodes visited queue = Some r ->
    distinct_nodes visited ->
    (forall x, In x visited \/ In x queue ->
               In x nodes /\ sail_linked nodes first x) ->
    (forall v n, In v visited -> sail_step nodes v n ->
                 node_mem n visited = true \/ In n queue) ->
    node_mem first visited = true \/ In first queue ->
    distinct_nodes r /\
    (forall x, In x r -> In x nodes /\ sail_linked nodes first x) /\
    (forall v n, In v r -> sail_step nodes v n -> node_mem n r = true) /\
    node_mem first r = true.
Proof.
  induction fuel as [|fuel IH]; intros visited queue r H Hd Hin Hcl Hf.
  - destruct queue as [|c rest]; [|discriminate]. simpl in H. injection H as <-.
    split; [exact Hd|]. split; [intros x Hx; apply Hin; now left|]. split.
    + intros v n Hv Hs. destruct (Hcl v n Hv Hs) as [H|[]]. exact H.
    + destruct Hf as [H|[]]. exact H.
  - destruct queue as [|current rest].
    { simpl in H. injection H as <-.
      split; [exact Hd|]. split; [intros x Hx; apply Hin; now left|]. split.
      - intros v n Hv Hs. destruct (Hcl v n Hv Hs) as [H|[]]. exact H.
      - destruct Hf as [H|[]]. exact H. }
    simpl in H. destruct (node_mem current visited) eqn:Hcur; simpl in H.
    + apply (IH _ _ _ H); clear IH H.
      * exact Hd.
      * intros x [Hx|Hx]; apply Hin; [now left|right; now right].
      * intros v n Hv Hs. destruct (Hcl v n Hv Hs) as [Hm|[<-|Hr]]; auto.
      * destruct Hf as [Hm|[<-|Hr]]; auto.
    + assert (Hc : In current nodes /\ sail_linked nodes first current)
        by (apply Hin; right; now left).
      apply (IH _ _ _ H); clear IH H.
      * now apply distinct_nodes_snoc.
      * intros x [Hx|Hx].
        -- apply in_app_or in Hx. destruct Hx as [Hx|[<-|[]]]; [|exact Hc].
           apply Hin. now left.
        -- apply in_app_or in Hx. destruct Hx as [Hx|Hx];
             [apply Hin; right; now right|].
           apply list_elem_of_In, list_elem_of_filter in Hx. destruct Hx as [_ Hx].
           apply list_elem_of_In, adjacency_spec in Hx.
           split; [apply Hx|]. exact (sail_linked_step _ _ _ _ (proj2 Hc) Hx).
      * assert (Hnew : forall n, sail_step nodes current n ->
                  node_mem n (visited ++ [current]) = true \/
                  In n (rest ++ filter (fun n => node_mem n (visited ++ [current]) = false)
                                       (adjacency nodes current))).
        { intros n Hs. destruct (node_mem n (visited ++ [current])) eqn:E;
            [now left|right].
          apply in_or_app. right. apply list_elem_of_In, list_elem_of_filter.
          split; [exact E|]. apply list_elem_of_In, adjacency_spec, Hs. }
        intros v n Hv Hs. apply in_app_or in Hv. destruct Hv as [Hv|[<-|[]]];
          [|now apply Hnew].
        destruct (Hcl v n Hv Hs) as [Hm|[<-|Hr]].
        -- left. now apply node_mem_app_l.
        -- left. rewrite node_mem_snoc, node_eqb_refl. apply orb_true_r.
        -- right. apply in_or_app. now left.
      * destruct Hf as [Hm|[<-|Hr]].
        -- left. now apply node_mem_app_l.
        -- left. rewrite node_mem_snoc, node_eqb_refl. apply orb_true_r.
        -- right. apply in_or_app. now left.
Qed.

Lemma distinct_nodes_NoDup (l : list Node) : distinct_nodes l -> List.NoDup l.
Proof.
  intros Hd. apply NoDup_ListNoDup, NoDup_alt. intros i j x Hi Hj.
  apply (Hd i j x x Hi Hj). apply node_eqb_refl.
Qed.

Lemma sail_bfs_result (nodes : list Node) (first : Node) (r : list Node) (fuel : nat) :
  In first nodes ->
  sail_bfs fuel nodes [] [first] = Some r ->
  (length r =? length nodes)%nat = true <->
  distinct_nodes nodes /\ forall n, In n nodes -> sail_linked nodes first n.
Proof.
  intros Hfirst H. apply (sail_bfs_visits nodes first) in H.
  - destruct H as (Hd & Hin & Hcl & Hf).
    assert (Hsub : incl r nodes) by (intros x Hx; now apply Hin).
    pose proof (distinct_nodes_NoDup r Hd) as Hnd.
    assert (Hreach : forall n, sail_linked nodes first n -> node_mem n r = true).
    { intros n Hn. induction Hn as [|b c _ IH Hs]; [exact Hf|].
      apply node_mem_spec in IH. destruct IH as (x & Hx & E).
      apply (Hcl x c Hx). exact (sail_step_eqb nodes b x c E Hs). }
    rewrite Nat.eqb_eq. split.
    + intros Hlen.
      assert (Hsup : incl nodes r).
      { apply (NoDup_length_incl Hnd); [rewrite Hlen; apply Nat.le_refl|exact Hsub]. }
      assert (Hnd' : List.NoDup nodes).
      { apply (NoDup_incl_NoDup Hnd); [rewrite Hlen; apply Nat.le_refl|exact Hsub]. }
      split; [|intros n Hn; now apply Hin, Hsup].
      intros i j a b Hi Hj E.
      assert (Ha : In a r).
      { apply Hsup, list_elem_of_In. eapply list_elem_of_lookup_2. exact Hi. }
      assert (Hb : In b r).
      { apply Hsup, list_elem_of_In. eapply list_elem_of_lookup_2. exact Hj. }
      apply list_elem_of_In, list_elem_of_lookup in Ha as [i' Hi'].
      apply list_elem_of_In, list_elem_of_lookup in Hb as [j' Hj'].
      assert (i' = j') by exact (Hd i' j' a b Hi' Hj' E). subst j'.
      assert (a = b) by congruence. subst b.
      apply NoDup_ListNoDup in Hnd'. exact (NoDup_lookup nodes i j a Hnd' Hi Hj).
    + intros [Hdn Hall]. apply Nat.le_antisymm.
      * now apply NoDup_incl_length.
      * apply NoDup_incl_length; [now apply distinct_nodes_NoDup|].
        intros n Hn. pose proof (Hreach n (Hall n Hn)) as Hm.
        apply node_mem_spec in Hm. destruct Hm as (x & Hx & E).
        assert (Hxn : In x nodes) by now apply Hsub.
        apply list_elem_of_In, list_elem_of_lookup in Hn as [i Hi].
        apply list_elem_of_In, list_elem_of_lookup in Hxn as [j Hj].
        assert (i = j) by exact (Hdn i j n x Hi Hj E). subst j.
        assert (n = x) by congruence. subst x. exact Hx.
  - intros i j a b Hi. discriminate Hi.
  - intros x [[]|[<-|[]]]. split; [exact Hfirst|constructor].
  - intros v n [].
  - right. now left.
Qed.

(** X30.  On a grid whose cells lie at coordinates of magnitude at most
    [2 ^ 40], when the nodes of the grid can be built, [_check_sail] returns
    a boolean, and the boolean is true exactly when no two nodes are equal
    and every node is reached from the first one by steps of the adjacency
    test.  The nodes are the centres of the colour-B cells and, for each
    pyramid face of colour B, the point 0.4 off the centre of the pyramid on
    that side, in the order of the cells. *)
Theorem X30_sail_meaning (bs : BlockSet) (nodes : list Node) :
  small_coordinates (blocks bs) ->
  sail_nodes (blocks bs) = Ok nodes ->
  exists r,
    _check_sail bs = Ok r /\
    (r = true <->
     distinct_nodes nodes /\
     forall first n, head nodes = Some first -> In n nodes ->
                     sail_linked nodes first n).
Proof.
  intros Hs Hn. rewrite (check_sail_of_nodes bs nodes Hn).
  rewrite (sail_nodes_are_small _ _ Hs Hn). cbn [negb].
  destruct nodes as [|first [|second rest]].
  - exists true. split; [reflexivity|]. split; [|reflexivity]. intros _.
    split; [intros i j a b Hi; discriminate Hi|]. intros first n Hh. discriminate Hh.
  - exists true. split; [reflexivity|]. split; [|reflexivity]. intros _. split.
    + intros [|i] [|j] a b Hi Hj _; try reflexivity; discriminate.
    + intros f n Hh [<-|[]]. injection Hh as <-. constructor.
  - change (length (first :: second :: rest) <? 2)%nat with false. cbv iota.
    destruct (sail_fuel_enough (first :: second :: rest) first (or_introl eq_refl))
      as [v Hv].
    rewrite Hv. eexists. split; [reflexivity|].
    rewrite (sail_bfs_result (first :: second :: rest) first v _
                             (or_introl eq_refl) Hv).
    split; intros [H1 H2]; (split; [exact H1|]).
    + intros f n Hh. injection Hh as <-. apply H2.
    + intros n. now apply H2.
Qed.

Lemma X30_sail_meaning_example :
  exists r,
    _check_sail (grid_of [solid 2 (0, 0); pyramid (1, 0) [0; 0; 2; 2];
                          solid 2 (2, 0)]) = Ok r.
Proof.
  destruct (X30_sail_meaning
              (grid_of [solid 2 (0, 0); pyramid (1, 0) [0; 0; 2; 2]; solid 2 (2, 0)])
              [(0, 0); (1 - 0.4, 0); (1 + 0.4, 0); (2, 0)]%Q) as (r & H & _).
  - apply small_coordinates_intro. reflexivity.
  - vm_compute. reflexivity.
  - exists r. exact H.
Defined.
